(** * Mail forwarder: the inbound-mail pipeline of [forward-mail/index.ts]

    A shallow embedding of the five pipeline stages ([parseEvent],
    [transformRecipients], [fetchMessage], [processMessage], [sendMessage])
    and of the driver [handler], together with the properties of the
    specification that concern them.

    Conventions of the embedding.
    - A JavaScript string is a [string]; each character stands for one code
      unit in the range 0..255.
    - [undefined] is [None] at an [option] type.
    - The regular expressions of the source are kept as syntax trees and run
      by a backtracking matcher that follows the ECMAScript matching rules
      (continuation passing, greedy and lazy repetition, capture groups,
      the flags [i], [m] and [g]).
    - The context object [data] is threaded explicitly; the external world
      (logger, completion callback, object store, mail transmission) is a
      trace of effects plus the answers of the collaborators. *)

From Stdlib Require Import Ascii String Bool Arith Lia List.
From stdpp Require Import gmap strings.

(** ** Characters *)

Module Char.

Definition CR : ascii := "013"%char.
Definition LF : ascii := "010"%char.

Definition code (c : ascii) : nat := nat_of_ascii c.

(** ECMAScript [LineTerminator], restricted to codes below 256. *)
Definition isLineTerminator (c : ascii) : bool :=
  Ascii.eqb c LF || Ascii.eqb c CR.

(** The class [\s] (WhiteSpace and LineTerminator): TAB, LF, VT, FF, CR,
    SPACE and NBSP. *)
Definition isWhiteSpace (c : ascii) : bool :=
  let n := code c in
  ((9 <=? n) && (n <=? 13)) || (n =? 32) || (n =? 160).

(** The class [.] without the [s] flag. *)
Definition isDot (c : ascii) : bool := negb (isLineTerminator c).

(** The class [[\t ]]. *)
Definition isTabOrSpace (c : ascii) : bool :=
  Ascii.eqb c "009"%char || Ascii.eqb c " "%char.

(** [String.prototype.toLowerCase] on one code unit: A-Z and the
    upper-case letters of the Latin-1 supplement. *)
Definition toLowerCase (c : ascii) : ascii :=
  let n := code c in
  if ((65 <=? n) && (n <=? 90))
     || ((192 <=? n) && (n <=? 222) && negb (n =? 215))
  then ascii_of_nat (n + 32) else c.

(** [Canonicalize] of the [i] flag (upper-casing).  The two Latin-1
    letters whose upper case lies outside Latin-1 (181 and 255) stay
    fixed: their canonical form equals that of no other code below 256. *)
Definition canonicalize (c : ascii) : ascii :=
  let n := code c in
  if ((97 <=? n) && (n <=? 122))
     || ((224 <=? n) && (n <=? 254) && negb (n =? 247))
  then ascii_of_nat (n - 32) else c.

Definition same (ignoreCase : bool) (a c : ascii) : bool :=
  if ignoreCase then Ascii.eqb (canonicalize a) (canonicalize c)
  else Ascii.eqb a c.

End Char.

(** ** Strings *)

Module Str.

Definition CRLF : string := String Char.CR (String Char.LF "").
Definition NL : string := String Char.LF "".

Fixpoint toLowerCase (s : string) : string :=
  match s with
  | EmptyString => EmptyString
  | String c s' => String (Char.toLowerCase c) (toLowerCase s')
  end.

(** [s.lastIndexOf("@")], [None] standing for -1. *)
Fixpoint lastIndexOf (c : ascii) (s : string) : option nat :=
  match s with
  | EmptyString => None
  | String a s' =>
      match lastIndexOf c s' with
      | Some i => Some (S i)
      | None => if Ascii.eqb a c then Some 0 else None
      end
  end.

(** [s.slice(0, n)] and [s.slice(n)] for [0 <= n <= s.length]. *)
Definition take (n : nat) (s : string) : string := String.substring 0 n s.
Fixpoint drop (n : nat) (s : string) : string :=
  match n, s with
  | 0, _ => s
  | S n', String _ s' => drop n' s'
  | S _, EmptyString => EmptyString
  end.

Fixpoint dropWhile (p : ascii -> bool) (s : string) : string :=
  match s with
  | EmptyString => EmptyString
  | String c s' => if p c then dropWhile p s' else s
  end.

Fixpoint rev_onto (acc s : string) : string :=
  match s with
  | EmptyString => acc
  | String c s' => rev_onto (String c acc) s'
  end.
Definition rev (s : string) : string := rev_onto "" s.

(** [String.prototype.trim]. *)
Definition trim (s : string) : string :=
  rev (dropWhile Char.isWhiteSpace (rev (dropWhile Char.isWhiteSpace s))).

(** [arr.join(", ")]. *)
Fixpoint join (sep : string) (l : list string) : string :=
  match l with
  | [] => ""
  | [x] => x
  | x :: l' => x +:+ sep +:+ join sep l'
  end.

(** A template-literal hole [${x}] for a possibly undefined string. *)
Definition show (o : option string) : string :=
  match o with Some s => s | None => "undefined" end.

End Str.

(** ** Regular expressions *)

Module Regex.

Inductive regex : Type :=
| Eps                                  (* the empty pattern *)
| Chr (c : ascii)                      (* a literal character *)
| Cls (p : ascii -> bool)              (* a character class *)
| Bol                                  (* the assertion ^ *)
| Seq (r1 r2 : regex)
| Opt (r : regex)                      (* r? *)
| Star (greedy : bool) (r : regex)     (* r* and r*? *)
| Grp (n : nat) (r : regex).           (* the n-th capture group *)

Definition Plus (r : regex) : regex := Seq r (Star true r).   (* r+ *)

Fixpoint Lit (s : string) : regex :=
  match s with
  | EmptyString => Eps
  | String c s' => Seq (Chr c) (Lit s')
  end.

Record flags := { ignoreCase : bool; multiline : bool }.

(** The state of a match attempt: the character before the current
    position, the input from the current position on, the position, and
    the capture groups closed so far (latest first). *)
Record MState := mkState {
  prev : option ascii;
  rest : string;
  pos : nat;
  caps : list (nat * (nat * nat))
}.

Definition cont := MState -> option MState.

Definition advance (c : ascii) (s : string) (st : MState) : MState :=
  mkState (Some c) s (S (pos st)) (caps st).

Definition set_cap (n from to : nat) (st : MState) : MState :=
  mkState (prev st) (rest st) (pos st) ((n, (from, to)) :: caps st).

Definition at_line_start (fl : flags) (st : MState) : bool :=
  match prev st with
  | None => true
  | Some c => multiline fl && Char.isLineTerminator c
  end.

(** An iteration of a repetition with minimum 0 must consume input. *)
Definition progressed (st st' : MState) : bool :=
  String.length (rest st') <? String.length (rest st).

(** Backtracking: the second alternative is tried when the first fails. *)
Notation "a <|> b" := (match a with Some x => Some x | None => b end)
  (at level 60, right associativity, only parsing).

(** [RepeatMatcher] for [*] and [*?]. *)
Fixpoint star_loop (m : MState -> cont -> option MState) (greedy : bool)
    (fuel : nat) (st : MState) (k : cont) : option MState :=
  match fuel with
  | 0 => k st
  | S fuel' =>
      let again (_ : unit) :=
        m st (fun st' =>
                if progressed st st' then star_loop m greedy fuel' st' k
                else None) in
      if greedy then again tt <|> k st else k st <|> again tt
  end.

Fixpoint rmatch (fl : flags) (r : regex) (st : MState) (k : cont)
    {struct r} : option MState :=
  match r with
  | Eps => k st
  | Chr c =>
      match rest st with
      | String a s =>
          if Char.same (ignoreCase fl) a c then k (advance a s st) else None
      | EmptyString => None
      end
  | Cls p =>
      match rest st with
      | String a s => if p a then k (advance a s st) else None
      | EmptyString => None
      end
  | Bol => if at_line_start fl st then k st else None
  | Seq r1 r2 => rmatch fl r1 st (fun st' => rmatch fl r2 st' k)
  | Opt r' =>
      rmatch fl r' st (fun st' => if progressed st st' then k st' else None)
      <|> k st
  | Star greedy r' =>
      star_loop (rmatch fl r') greedy (S (String.length (rest st))) st k
  | Grp n r' =>
      rmatch fl r' st (fun st' => k (set_cap n (pos st) (pos st') st'))
  end.

(** [RegExpBuiltinExec]: the first position at or after the current one
    where the pattern matches; the result is the start index and the
    state at the end of the match. *)
Fixpoint exec_from (fl : flags) (r : regex) (p : option ascii) (s : string)
    (i : nat) : option (nat * MState) :=
  match rmatch fl r (mkState p s i []) Some with
  | Some res => Some (i, res)
  | None =>
      match s with
      | EmptyString => None
      | String c s' => exec_from fl r (Some c) s' (S i)
      end
  end.

Definition exec (fl : flags) (r : regex) (input : string)
  : option (nat * MState) :=
  exec_from fl r None input 0.

Fixpoint lookup_cap (n : nat) (l : list (nat * (nat * nat)))
  : option (nat * nat) :=
  match l with
  | [] => None
  | (m, se) :: l' => if n =? m then Some se else lookup_cap n l'
  end.

(** The text of the [n]-th capture group, [None] when it took no part. *)
Definition group (input : string) (res : MState) (n : nat) : option string :=
  match lookup_cap n (caps res) with
  | Some (from, to) => Some (String.substring from (to - from) input)
  | None => None
  end.

(** What a replacement sees of one match. *)
Record MatchInfo := {
  m_text : string;        (* the matched text, $& *)
  m_group1 : option string;   (* the first capture group *)
  m_before : string;      (* the input before the match *)
  m_after : string        (* the input after the match *)
}.

Definition info (input : string) (start : nat) (res : MState) : MatchInfo :=
  {| m_text := String.substring start (pos res - start) input;
     m_group1 := group input res 1;
     m_before := String.substring 0 start input;
     m_after := rest res |}.

(** [regex.test(s)]. *)
Definition test (fl : flags) (r : regex) (input : string) : bool :=
  match exec fl r input with Some _ => true | None => false end.

(** [s.match(regex)] without the [g] flag. *)
Definition jsmatch (fl : flags) (r : regex) (input : string)
  : option (nat * MState) := exec fl r input.

(** [s.replace(regex, f)] without the [g] flag. *)
Definition replace_first (fl : flags) (r : regex) (f : MatchInfo -> string)
    (input : string) : string :=
  match exec fl r input with
  | None => input
  | Some (start, res) =>
      String.substring 0 start input +:+ f (info input start res) +:+ rest res
  end.

(** [s.replace(regex, f)] with the [g] flag: the loop over [lastIndex];
    the arguments [p], [s], [i] describe the input from [lastIndex] on. *)
Fixpoint replace_loop (fl : flags) (r : regex) (f : MatchInfo -> string)
    (input : string) (fuel : nat) (p : option ascii) (s : string) (i : nat)
  : string :=
  match fuel with
  | 0 => s
  | S fuel' =>
      match exec_from fl r p s i with
      | None => s
      | Some (start, res) =>
          let out :=
            String.substring 0 (start - i) s +:+ f (info input start res) in
          if pos res =? start then
            match rest res with
            | EmptyString => out
            | String c s' =>
                out +:+ String c
                  (replace_loop fl r f input fuel' (Some c) s' (S (pos res)))
            end
          else
            out +:+ replace_loop fl r f input fuel' (prev res) (rest res)
                      (pos res)
      end
  end.

Definition replace_all (fl : flags) (r : regex) (f : MatchInfo -> string)
    (input : string) : string :=
  replace_loop fl r f input (S (String.length input)) None input 0.

(** The matcher, declaratively: [reach fl r st st'] when the pattern [r]
    can lead from the state [st] to the state [st']. *)
Inductive reach (fl : flags) : regex -> MState -> MState -> Prop :=
| reach_eps st : reach fl Eps st st
| reach_chr c a s st :
    rest st = String a s -> Char.same (ignoreCase fl) a c = true ->
    reach fl (Chr c) st (advance a s st)
| reach_cls p a s st :
    rest st = String a s -> p a = true ->
    reach fl (Cls p) st (advance a s st)
| reach_bol st : at_line_start fl st = true -> reach fl Bol st st
| reach_seq r1 r2 st st1 st2 :
    reach fl r1 st st1 -> reach fl r2 st1 st2 -> reach fl (Seq r1 r2) st st2
| reach_opt_skip r st : reach fl (Opt r) st st
| reach_opt_take r st st' : reach fl r st st' -> reach fl (Opt r) st st'
| reach_star_stop g r st : reach fl (Star g r) st st
| reach_star_step g r st st1 st2 :
    reach fl r st st1 -> reach fl (Star g r) st1 st2 ->
    reach fl (Star g r) st st2
| reach_grp n r st st' :
    reach fl r st st' ->
    reach fl (Grp n r) st (set_cap n (pos st) (pos st') st').

(** The text [r] is empty or starts with a character outside [p]. *)
Definition starts_outside (p : ascii -> bool) (r : string) : Prop :=
  r = "" ∨ ∃ a r', r = String a r' ∧ p a = false.

(** The state after the matcher has consumed the text [c]. *)
Fixpoint feed (c : string) (st : MState) : MState :=
  match c with
  | EmptyString => st
  | String a c' => feed c' (advance a (Str.drop 1 (rest st)) st)
  end.

End Regex.

(** ** The patterns of the source

    In the comments a blank is written between a star and a closing
    parenthesis of the pattern; it is not part of the pattern. *)

Module Patterns.
Import Regex.

Definition dot : regex := Cls Char.isDot.                   (* .      *)
Definition ws : regex := Cls Char.isWhiteSpace.             (* \s     *)
Definition tabsp : regex := Opt (Cls Char.isTabOrSpace).    (* [\t ]? *)
Definition eol : regex := Seq (Opt (Chr Char.CR)) (Chr Char.LF).   (* \r?\n *)
Definition any : regex := Star true dot.                    (* .*     *)

Definition no_flags : flags := {| ignoreCase := false; multiline := false |}.
Definition flag_m : flags := {| ignoreCase := false; multiline := true |}.
Definition flag_mi : flags := {| ignoreCase := true; multiline := true |}.

(** [.+\r?\n], a line that is not empty. *)
Definition line : regex := Seq (Plus dot) eol.

(** [.*\s+], a stretch of the body up to and including whitespace. *)
Definition body_part : regex := Seq any (Plus ws).

(** [/\+.*?@/] *)
Definition plus_tag : regex :=
  Seq (Chr "+") (Seq (Star false dot) (Chr "@")).

(** [/^((?:.+\r?\n)* )(\r?\n(?:.*\s+)* )/m] *)
Definition header_body : regex :=
  Seq Bol
    (Seq (Grp 1 (Star true line))
         (Grp 2 (Seq eol (Star true body_part)))).

(** [/^reply-to:[\t ]?/mi] *)
Definition reply_to : regex := Seq Bol (Seq (Lit "reply-to:") tabsp).

(** The folded value [.*(?:\r?\n\s+.* )*] of a header field. *)
Definition folded : regex :=
  Seq any (Star true (Seq eol (Seq (Plus ws) any))).

(** [/^from:[\t ]?(.*(?:\r?\n\s+.* )*\r?\n)/mi] *)
Definition from_line : regex :=
  Seq Bol (Seq (Lit "from:") (Seq tabsp (Grp 1 (Seq folded eol)))).

(** [/^from:[\t ]?(.*(?:\r?\n\s+.* )* )/mgi] *)
Definition from_value : regex :=
  Seq Bol (Seq (Lit "from:") (Seq tabsp (Grp 1 folded))).

(** [/<(.* )>/] *)
Definition angle : regex := Seq (Chr "<") (Seq (Grp 1 any) (Chr ">")).

(** [/^to:[\t ]?(.* )/mgi] *)
Definition to_value : regex :=
  Seq Bol (Seq (Lit "to:") (Seq tabsp (Grp 1 any))).

(** [/^<name>:[\t ]?(.* )\r?\n/mgi] for return-path, sender, message-id. *)
Definition whole_line (name : string) : regex :=
  Seq Bol (Seq (Lit name) (Seq tabsp (Seq (Grp 1 any) eol))).

(** [/^dkim-signature:[\t ]?.*\r?\n(\s+.*\r?\n)*/mgi] *)
Definition dkim : regex :=
  Seq Bol
    (Seq (Lit "dkim-signature:")
       (Seq tabsp
          (Seq any (Seq eol (Star true (Grp 1 (Seq (Plus ws) (Seq any eol)))))))).

End Patterns.

(** ** Replacement templates

    [GetSubstitution] for a replacement given as a string, against a
    pattern with one capture group and no named groups. *)

Module Template.
Import Regex.

Definition is_digit (c : ascii) : bool :=
  (48 <=? Char.code c) && (Char.code c <=? 57).

Definition group1 (mi : MatchInfo) : string :=
  match m_group1 mi with Some s => s | None => "" end.

Fixpoint expand (tpl : string) (mi : MatchInfo) : string :=
  match tpl with
  | EmptyString => ""
  | String "$" (String "$" t) => String "$" (expand t mi)
  | String "$" (String "&" t) => m_text mi +:+ expand t mi
  | String "$" (String "`" t) => m_before mi +:+ expand t mi
  | String "$" (String "'" t) => m_after mi +:+ expand t mi
  | String "$" (String "0" (String "1" t)) => group1 mi +:+ expand t mi
  | String "$" (String "1" t) => group1 mi +:+ expand t mi
  | String c t => String c (expand t mi)
  end.

End Template.

(** ** The pipeline *)

Module Forwarder.

(** *** Data *)

(** The mail metadata block [ses.mail]; only [messageId] is read. *)
Record Mail := { messageId : option string }.

(** The block [ses.receipt]; only [recipients] is read, and it may be
    missing. *)
Record Receipt := { receipt_recipients : option (list string) }.

(** The block [ses] of a record: [mail] and [receipt], either of which
    may be missing. *)
Record Ses := { mail : option Mail; receipt : option Receipt }.

(** One record of the notification: [eventSource], [eventVersion] and
    [ses].  The event is typed [any]: each of the three may be missing. *)
Record SesRecord := {
  eventSource : option string;
  eventVersion : option string;
  ses : option Ses
}.

(** [record.ses.mail] and [record.ses.receipt.recipients], where the
    blocks on the way are present. *)
Definition ses_mail (r : SesRecord) : option Mail := ses r ≫= mail.
Definition ses_recipients (r : SesRecord) : option (list string) :=
  (ses r ≫= receipt) ≫= receipt_recipients.

Record Event := { Records : option (list SesRecord) }.

(** The fields of [interface Data] that hold values; [toEmail] is
    [data.config.toEmail].  The fields [log], [callback], [ses], [s3] are
    the collaborators of [Env] below. *)
Record Data := mkData {
  event : option Event;
  toEmail : option string;
  email : option Mail;
  recipients : option (list string);
  originalRecipients : option (list string);
  originalRecipient : option string;
  emailData : option string
}.

Definition set_email (v : option Mail) (d : Data) : Data :=
  mkData (event d) (toEmail d) v (recipients d) (originalRecipients d)
    (originalRecipient d) (emailData d).
Definition set_recipients (v : option (list string)) (d : Data) : Data :=
  mkData (event d) (toEmail d) (email d) v (originalRecipients d)
    (originalRecipient d) (emailData d).
Definition set_originalRecipients (v : option (list string)) (d : Data)
  : Data :=
  mkData (event d) (toEmail d) (email d) (recipients d) v
    (originalRecipient d) (emailData d).
Definition set_originalRecipient (v : option string) (d : Data) : Data :=
  mkData (event d) (toEmail d) (email d) (recipients d)
    (originalRecipients d) v (emailData d).
Definition set_emailData (v : option string) (d : Data) : Data :=
  mkData (event d) (toEmail d) (email d) (recipients d)
    (originalRecipients d) (originalRecipient d) v.

(** A value passed from one step to the next. *)
Inductive JsVal := JUndefined | JObject (d : Data).

(** A thrown value: [new Error(message)], or a [TypeError] of the engine. *)
Inductive Thrown := Error (message : string) | TypeError (message : string).

Definition message_of (e : Thrown) : string :=
  match e with Error m => m | TypeError m => m end.

(** The error kinds of the specification are the messages of the source. *)
Definition InvalidEventError : Thrown :=
  Error "Error: Received invalid SES message.".
Definition ConfigurationError : Thrown :=
  Error "Error: Invalid FORWARD_MAPPING configuration.".
Definition FetchError : Thrown :=
  Error "Error: Failed to load message from S3.".
Definition SendError : Thrown := Error "Error: Email sending failed.".
Definition GenericFailure : string := "Error: Step returned error.".

(** V8's wording for a property read on [undefined] and for spreading a
    value that is not iterable. *)
Definition undefined_read (prop : string) : Thrown :=
  TypeError ("Cannot read properties of undefined (reading '" +:+ prop +:+ "')").
Definition not_iterable : Thrown :=
  TypeError "Spread syntax requires ...iterable[Symbol.iterator] to be a function".

(** What the invocation does to the outside, in order.  A log entry is
    kept as its [level] and [message]. *)
Inductive Effect :=
| Log (level message : string)
| Callback (error : option string)
| S3Get (bucket : option string) (key : string)
| SendRawEmail (destinations : option (list string)) (source : option string)
    (raw : string).

(** The outcome of [JSON.parse(process.env.FORWARD_MAPPING || '{}')]: a
    syntax error, or the table (typed [Record<string, string[]>]).  An
    unset or empty variable gives the empty table. *)
Inductive Mapping := Unparsable | Table (t : gmap string (list string)).

Inductive S3Reply := S3Failed | S3Body (body : option string).

(** The environment variables and the answers of the collaborators. *)
Record Env := {
  FORWARD_MAPPING : Mapping;
  BUCKET_NAME : option string;
  KEY_PREFIX : option string;
  DOMAIN : option string;
  s3_send : option string -> string -> S3Reply;
  ses_send : option (list string) -> option string -> string -> bool;
  callback_result : option string -> JsVal
}.

(** *** The monad of a stage: the context object, the effects so far, and
    a result or a thrown error. *)

Inductive Result (A : Type) := Ok (a : A) | Throw (e : Thrown).
Arguments Ok {A} a.
Arguments Throw {A} e.

Record St := mkSt { ctx : Data; trace : list Effect }.

Definition M (A : Type) : Type := St -> St * Result A.

Definition ret {A} (a : A) : M A := fun s => (s, Ok a).
Definition bind {A B} (m : M A) (f : A -> M B) : M B :=
  fun s => match m s with
           | (s', Ok a) => f a s'
           | (s', Throw e) => (s', Throw e)
           end.
Definition throw {A} (e : Thrown) : M A := fun s => (s, Throw e).
Definition get : M Data := fun s => (s, Ok (ctx s)).
Definition modify (f : Data -> Data) : M unit :=
  fun s => (mkSt (f (ctx s)) (trace s), Ok tt).
Definition emit (e : Effect) : M unit :=
  fun s => (mkSt (ctx s) (trace s ++ [e]), Ok tt).
Definition log (level message : string) : M unit := emit (Log level message).

Notation "x <- m ;; k" := (bind m (fun x => k))
  (at level 100, m at next level, right associativity).
Notation "m ;;; k" := (bind m (fun _ => k))
  (at level 100, right associativity).

(** [return data]. *)
Definition return_data : M JsVal := d <- get ;; ret (JObject d).

(** [data.callback(error)]: the completion signal, and what the caller's
    function returns. *)
Definition callback (env : Env) (error : option string) : M JsVal :=
  emit (Callback error) ;;; ret (callback_result env error).

(** *** parseEvent *)

(** [data.event?.Records?.length] and [data.event.Records[0]]. *)
Definition records_length (e : option Event) : option nat :=
  match e with
  | Some {| Records := Some rs |} => Some (length rs)
  | _ => None
  end.
Definition first_record (e : option Event) : option SesRecord :=
  match e with
  | Some {| Records := Some (r :: _) |} => Some r
  | _ => None
  end.

Definition invalid_event (e : option Event) : bool :=
  negb (bool_decide (records_length e = Some 1))
  || negb (bool_decide (first_record e ≫= eventSource = Some "aws:ses"))
  || negb (bool_decide (first_record e ≫= eventVersion = Some "1.0")).

Definition parseEvent : M JsVal :=
  data <- get ;;
  if invalid_event (event data) then
    log "error" "parseEvent() received invalid SES message:" ;;;
    throw InvalidEventError
  else
    match first_record (event data) with
    | Some r =>
        match ses r with
        | Some block =>
            modify (set_email (mail block)) ;;;
            match receipt block with
            | Some rc =>
                modify (set_recipients (receipt_recipients rc)) ;;;
                return_data
            | None => throw (undefined_read "recipients")
            end
        | None => throw (undefined_read "mail")
        end
    | None => throw (undefined_read "ses")
    end.

(** *** transformRecipients *)

(** [origEmail.toLowerCase().replace(/\+.*?@/, '@')] *)
Definition normalize (origEmail : string) : string :=
  Regex.replace_first Patterns.no_flags Patterns.plus_tag (fun _ => "@")
    (Str.toLowerCase origEmail).

(** The property names every object inherits from [Object.prototype]. *)
Definition Object_prototype : list string :=
  [ "constructor"; "__defineGetter__"; "__defineSetter__"; "hasOwnProperty";
    "__lookupGetter__"; "__lookupSetter__"; "isPrototypeOf";
    "propertyIsEnumerable"; "toString"; "valueOf"; "__proto__";
    "toLocaleString" ].

(** [key in forwardMapping]: own and inherited properties. *)
Definition has_property (key : string) (t : gmap string (list string))
  : bool :=
  bool_decide (is_Some (t !! key)) || bool_decide (key ∈ Object_prototype).

(** [newRecipients.push(...forwardMapping[key])] followed by
    [data.originalRecipient = origEmail]; an inherited property is not
    iterable. *)
Definition take_rule (t : gmap string (list string)) (key origEmail : string)
    (newRecipients : list string) : M (list string) :=
  match t !! key with
  | Some dests =>
      modify (set_originalRecipient (Some origEmail)) ;;;
      ret (newRecipients ++ dests)
  | None => throw not_iterable
  end.

Definition truthy (s : option string) : bool :=
  match s with Some (String _ _) => true | _ => false end.

Definition in_table (s : option string) (t : gmap string (list string))
  : bool :=
  match s with Some k => has_property k t | None => false end.

(** [JSON.parse] inside [try], with its [catch]. *)
Definition parse_mapping (env : Env) : M (gmap string (list string)) :=
  match FORWARD_MAPPING env with
  | Table t => ret t
  | Unparsable =>
      log "error" "Failed to parse FORWARD_MAPPING environment variable" ;;;
      throw ConfigurationError
  end.

(** The body of the loop for one [origEmail]. *)
Definition transform_one (env : Env) (origEmail : string)
    (newRecipients : list string) : M (list string) :=
  let origEmailKey := normalize origEmail in
  forwardMapping <- parse_mapping env ;;
  if has_property origEmailKey forwardMapping then
    take_rule forwardMapping origEmailKey origEmail newRecipients
  else
    let pos := Str.lastIndexOf "@" origEmailKey in
    let origEmailDomain :=
      match pos with
      | None => None
      | Some p => Some (Str.drop p origEmailKey)
      end in
    let origEmailUser :=
      match pos with
      | None => Some origEmailKey
      | Some p => Some (Str.take p origEmailKey)
      end in
    if truthy origEmailDomain && in_table origEmailDomain forwardMapping then
      take_rule forwardMapping (Str.show origEmailDomain) origEmail
        newRecipients
    else if truthy origEmailUser && in_table origEmailUser forwardMapping then
      take_rule forwardMapping (Str.show origEmailUser) origEmail
        newRecipients
    else if has_property "@" forwardMapping then
      take_rule forwardMapping "@" origEmail newRecipients
    else ret newRecipients.

(** [for (const origEmail of data.recipients || [])]. *)
Fixpoint transform_loop (env : Env) (rs : list string)
    (newRecipients : list string) : M (list string) :=
  match rs with
  | [] => ret newRecipients
  | origEmail :: rs' =>
      acc <- transform_one env origEmail newRecipients ;;
      transform_loop env rs' acc
  end.

Definition show_list (l : option (list string)) : string :=
  match l with Some l => Str.join ", " l | None => "undefined" end.

Definition transformRecipients (env : Env) : M JsVal :=
  data <- get ;;
  modify (set_originalRecipients (recipients data)) ;;;
  newRecipients <-
    transform_loop env (default [] (recipients data)) [] ;;
  match newRecipients with
  | [] =>
      data <- get ;;
      log "info"
        ("Finishing process. No new recipients found for original destinations: "
           +:+ show_list (originalRecipients data)) ;;;
      callback env None
  | _ =>
      modify (set_recipients (Some newRecipients)) ;;;
      return_data
  end.

(** *** fetchMessage *)

Definition fetchMessage (env : Env) : M JsVal :=
  data <- get ;;
  let bucketName := BUCKET_NAME env in
  let keyPrefix := KEY_PREFIX env in
  let key := Str.show keyPrefix +:+ Str.show (email data ≫= messageId) in
  log "info"
    ("Fetching email at s3://" +:+ Str.show bucketName +:+ "/" +:+ key) ;;;
  emit (S3Get bucketName key) ;;;
  match s3_send env bucketName key with
  | S3Body body =>
      modify (set_emailData body) ;;;
      return_data
  | S3Failed =>
      log "error" "Error occurred while fetching message:" ;;;
      throw FetchError
  end.

(** *** processMessage *)

Definition nonempty (s : option string) : option string :=
  match s with Some (String c s') => Some (String c s') | _ => None end.

(** Lines 137 to 139: the header and body segments. *)
Definition split_message (emailData : option string)
  : option string * string :=
  let match_ :=
    emailData ≫= fun s =>
      match Regex.jsmatch Patterns.flag_m Patterns.header_body s with
      | Some (_, res) => Some (Regex.group s res 1, Regex.group s res 2)
      | None => None
      end in
  let header :=
    match match_ ≫= fun m => nonempty (fst m) with
    | Some h => Some h
    | None => emailData
    end in
  let body := default "" (match_ ≫= fun m => nonempty (snd m)) in
  (header, body).

(** Lines 141 to 156: a [Reply-To:] line from the [From:] field. *)
Definition add_reply_to (header : option string) : M (option string) :=
  if negb (Regex.test Patterns.flag_mi Patterns.reply_to (default "" header))
  then
    let fromMatch :=
      header ≫= fun h =>
        match Regex.jsmatch Patterns.flag_mi Patterns.from_line h with
        | Some (_, res) => Some (Regex.group h res 1)
        | None => None
        end in
    let from := default "" (fromMatch ≫= nonempty) in
    match from with
    | String _ _ =>
        log "info" ("Added Reply-To address of: " +:+ from) ;;;
        ret (Some (Str.show header +:+ "Reply-To: " +:+ from))
    | EmptyString =>
        log "info"
          "Reply-To address not added because From address was not properly extracted." ;;;
        ret header
    end
  else ret header.

(** Lines 158 to 162: the replacement function of the [From:] rewrite. *)
Definition rewrite_from (fromEmail : string) (mi : Regex.MatchInfo)
  : string :=
  let from := Template.group1 mi in
  "From: "
    +:+ Str.trim
          (Regex.replace_first Patterns.no_flags Patterns.angle
             (fun _ => "") from)
    +:+ " <" +:+ fromEmail +:+ ">".

(** Lines 158 to 171: the rewrites of a header that is present. *)
Definition rewrite_header (env : Env) (toEmail : option string)
    (header : string) : string :=
  let fromEmail := "noreply@" +:+ Str.show (DOMAIN env) in
  let header :=
    Regex.replace_all Patterns.flag_mi Patterns.from_value
      (rewrite_from fromEmail) header in
  let header :=
    if truthy toEmail then
      Regex.replace_all Patterns.flag_mi Patterns.to_value
        (Template.expand ("To: " +:+ Str.show toEmail)) header
    else header in
  let header :=
    Regex.replace_all Patterns.flag_mi (Patterns.whole_line "return-path:")
      (fun _ => "") header in
  let header :=
    Regex.replace_all Patterns.flag_mi (Patterns.whole_line "sender:")
      (fun _ => "") header in
  let header :=
    Regex.replace_all Patterns.flag_mi (Patterns.whole_line "message-id:")
      (fun _ => "") header in
  Regex.replace_all Patterns.flag_mi Patterns.dkim (fun _ => "") header.

Definition processMessage (env : Env) : M JsVal :=
  data <- get ;;
  let '(header, body) := split_message (emailData data) in
  header <- add_reply_to header ;;
  let header := rewrite_header env (toEmail data) <$> header in
  modify (set_emailData (Some (Str.show header +:+ body))) ;;;
  return_data.

(** *** sendMessage *)

Definition sendMessage (env : Env) : M JsVal :=
  data <- get ;;
  let raw := default "" (emailData data) in
  log "info"
    ("sendMessage: Sending email via SES. Original recipients: "
       +:+ show_list (originalRecipients data)
       +:+ ". Transformed recipients: "
       +:+ show_list (recipients data) +:+ ".") ;;;
  emit (SendRawEmail (recipients data) (originalRecipient data) raw) ;;;
  if ses_send env (recipients data) (originalRecipient data) raw then
    log "info" "sendRawEmail() successful." ;;;
    return_data
  else
    log "error" "sendRawEmail() returned error." ;;;
    throw SendError.

(** *** handler *)

(** A step is called with the value the previous step returned; it emits
    effects and returns a value or throws. *)
Definition Step : Type := JsVal -> list Effect * Result JsVal.

(** A stage of the source as a step; [first_read] is the first property
    the stage reads from its argument. *)
Definition stage (first_read : string) (m : M JsVal) : Step :=
  fun v =>
    match v with
    | JUndefined => ([], Throw (undefined_read first_read))
    | JObject d =>
        let '(s, r) := m (mkSt d []) in (trace s, r)
    end.

Definition default_steps (env : Env) : list Step :=
  [ stage "event" parseEvent;
    stage "recipients" (transformRecipients env);
    stage "log" (fetchMessage env);
    stage "emailData" (processMessage env);
    stage "recipients" (sendMessage env) ].

(** [for (const step of steps) result = await step(result)]. *)
Fixpoint run_steps (steps : list Step) (result : JsVal)
  : list Effect * Result JsVal :=
  match steps with
  | [] => ([], Ok result)
  | step :: steps' =>
      match step result with
      | (es, Ok result') =>
          let '(es', r) := run_steps steps' result' in (es ++ es', r)
      | (es, Throw e) => (es, Throw e)
      end
  end.

Record Overrides := {
  o_steps : option (list Step);
  o_toEmail : option string       (* overrides.config.toEmail *)
}.

Definition no_overrides : Overrides :=
  {| o_steps := None; o_toEmail := None |}.

Definition initial_data (ev : option Event) (o : Overrides) : Data :=
  mkData ev (o_toEmail o) None None None None None.

(** The end of the [try] block and the [catch] block: what follows the
    steps, given their effects and outcome. *)
Definition finish (out : list Effect * Result JsVal) : list Effect :=
  match out with
  | (es, Ok _) =>
      es ++ [Log "info" "Process finished successfully."; Callback None]
  | (es, Throw err) =>
      es ++ [Log "error" ("Step returned error: " +:+ message_of err);
             Callback (Some GenericFailure)]
  end.

(** The effects of one invocation, in order. *)
Definition handler (env : Env) (ev : option Event) (o : Overrides)
  : list Effect :=
  let steps := default (default_steps env) (o_steps o) in
  let data := initial_data ev o in
  finish (run_steps steps (JObject data)).

End Forwarder.

(** ** The specification's notions

    Definitions that follow the words of the specification; the theorems
    below compare them with the code. *)

Module Spec.
Import Forwarder.

(** A notification with exactly one record, which declares the expected
    event source and schema version. *)
Definition valid_notification (ev : option Event) (r : SesRecord) : Prop :=
  ev = Some {| Records := Some [r] |}
  ∧ eventSource r = Some "aws:ses"
  ∧ eventVersion r = Some "1.0".

(** The record carries the [ses] block and, in it, the [receipt] block. *)
Definition has_receipt (r : SesRecord) : Prop :=
  is_Some (ses r ≫= receipt).

(** A stage has changed at most the raw message of the context: the
    other fields, among them the current recipients, the original
    recipients and the envelope sender, are as before. *)
Definition only_emailData_changed (before after : Data) : Prop :=
  after = set_emailData (emailData after) before
  ∧ recipients after = recipients before
  ∧ originalRecipients after = originalRecipients before
  ∧ originalRecipient after = originalRecipient before.

(** The address cut at its last [@]: the local-part before it and the
    domain portion from it, inclusive. *)
Fixpoint split_last_at (s : string) : option (string * string) :=
  match s with
  | EmptyString => None
  | String c s' =>
      match split_last_at s' with
      | Some (l, d) => Some (String c l, d)
      | None => if Ascii.eqb c "@" then Some ("", s) else None
      end
  end.

(** The keys of the four rules, in the order of the specification: the
    full address, the domain portion, the local-part, the catch-all.  An
    address without [@] is its own local-part and has no domain rule. *)
Definition rule_keys_claimed (key : string) : list string :=
  match split_last_at key with
  | Some (l, d) => [key; d; l; "@"]
  | None => [key; key; "@"]
  end.

(** The same with the local-part rule present only for a local-part that
    is not empty; for an address without [@] the local-part rule would
    repeat the first rule and is left out. *)
Definition rule_keys (key : string) : list string :=
  match split_last_at key with
  | Some ("", d) => [key; d; "@"]
  | Some (l, d) => [key; d; l; "@"]
  | None => [key; "@"]
  end.

(** The destinations of the first rule whose key is in the table. *)
Fixpoint first_rule (t : gmap string (list string)) (keys : list string)
  : option (list string) :=
  match keys with
  | [] => None
  | k :: keys' =>
      match t !! k with
      | Some dests => Some dests
      | None => first_rule t keys'
      end
  end.

(** What resolving one recipient does to the accumulated destinations and
    to the envelope sender, given the keys of the rules. *)
Definition resolved (keys : string -> list string)
    (t : gmap string (list string)) (origEmail : string)
    (newRecipients : list string) (s : St) : St * Result (list string) :=
  match first_rule t (keys (normalize origEmail)) with
  | Some dests =>
      (mkSt (set_originalRecipient (Some origEmail) (ctx s)) (trace s),
       Ok (newRecipients ++ dests))
  | None => (s, Ok newRecipients)
  end.

(** A recipient matches a forwarding rule. *)
Definition matches (t : gmap string (list string)) (origEmail : string)
  : bool :=
  bool_decide (is_Some (first_rule t (rule_keys (normalize origEmail)))).

(** The number of occurrences of a character. *)
Fixpoint count (c : ascii) (s : string) : nat :=
  match s with
  | EmptyString => 0
  | String a s' => (if Ascii.eqb a c then 1 else 0) + count c s'
  end.

Fixpoint all (p : ascii -> bool) (s : string) : bool :=
  match s with
  | EmptyString => true
  | String c s' => p c && all p s'
  end.

(** A line terminator: LF or CRLF. *)
Definition is_eol (e : string) : Prop := e = Str.NL ∨ e = Str.CRLF.

Definition empty (c : string) : bool :=
  match c with EmptyString => true | String _ _ => false end.

(** A run of complete lines none of which is blank. *)
Inductive lines (blank : string -> bool) : string -> Prop :=
| lines_nil : lines blank ""
| lines_cons c e h :
    all Char.isDot c = true -> blank c = false -> is_eol e ->
    lines blank h -> lines blank (c +:+ e +:+ h).


(** The text is empty or its last character is whitespace. *)
Fixpoint ends_in_whitespace (b : string) : bool :=
  match b with
  | EmptyString => true
  | String c EmptyString => Char.isWhiteSpace c
  | String _ b' => ends_in_whitespace b'
  end.



End Spec.

(** ** Claims of the specification that the code does not meet as stated *)

Module Claimed.
Import Forwarder.

(** Resolution tries the four rules of [Spec.rule_keys_claimed] in order,
    for every table and recipient. *)
Definition resolution_order (env : Env) (t : gmap string (list string))
    (origEmail : string) : Prop :=
  FORWARD_MAPPING env = Table t →
  ∀ acc s,
    transform_one env origEmail acc s
    = Spec.resolved Spec.rule_keys_claimed t origEmail acc s.

(** The parser succeeds exactly on the notifications with a single
    record of the expected source and version. *)
Definition parser_accepts_valid (s : St) : Prop :=
  (∃ v, snd (parseEvent s) = Ok v)
  ↔ ∃ r, Spec.valid_notification (event (ctx s)) r.

(** Normalization is idempotent at every address. *)
Definition normalize_idempotent (address : string) : Prop :=
  normalize (normalize address) = normalize address.

(** An unparsable table makes the transformer raise
    [ConfigurationError]. *)
Definition unparsable_raises (env : Env) (s : St) : Prop :=
  FORWARD_MAPPING env = Unparsable →
  snd (transformRecipients env s) = Throw ConfigurationError.


End Claimed.

(** ** Concrete inputs *)

Module Examples.
Import Forwarder.

Definition message : string :=
  "From: A <a@b.com>" +:+ Str.CRLF +:+ "To: x@y.com" +:+ Str.CRLF
    +:+ Str.CRLF +:+ "hello".

Definition env (m : Mapping) : Env :=
  {| FORWARD_MAPPING := m;
     BUCKET_NAME := Some "bucket";
     KEY_PREFIX := Some "inbound/";
     DOMAIN := Some "example.com";
     s3_send := fun _ _ => S3Body (Some message);
     ses_send := fun _ _ _ => true;
     callback_result := fun _ => JUndefined |}.

Definition record (rs : list string) : SesRecord :=
  {| eventSource := Some "aws:ses";
     eventVersion := Some "1.0";
     ses :=
       Some {| mail := Some {| messageId := Some "m1" |};
               receipt := Some {| receipt_recipients := Some rs |} |} |}.

(** A record of the expected source and version with the given [ses]. *)
Definition bare_record (b : option Ses) : SesRecord :=
  {| eventSource := Some "aws:ses"; eventVersion := Some "1.0"; ses := b |}.

Definition notification (rs : list string) : option Event :=
  Some {| Records := Some [record rs] |}.

Definition fresh : Data := initial_data None no_overrides.

Definition with_recipients (rs : list string) : St :=
  mkSt (set_recipients (Some rs) fresh) [].

Definition catch_all : gmap string (list string) :=
  {[ "@" := ["catchall@dest.com"] ]}.

Definition alice : gmap string (list string) :=
  {[ "alice@example.com" := ["a1@dest.com"; "a2@dest.com"];
     "@example.com" := ["domain@dest.com"] ]}.

Definition empty_local : gmap string (list string) :=
  {[ "" := ["local@dest.com"]; "@" := ["catchall@dest.com"] ]}.


End Examples.

(** ** Scanners

    Direct recursive descriptions used in the proofs: what the
    plus-addressing pattern computes (proved equal to the matcher's result
    below), the rule key the transformer takes, and the invariant under
    which the header pattern cannot match. *)

Module Scan.

(** After a [+]: the input that follows the first [@], provided no line
    terminator comes before it. *)
Fixpoint find_at (s : string) : option string :=
  match s with
  | EmptyString => None
  | String c s' =>
      if Ascii.eqb c "@" then Some s'
      else if Char.isDot c then find_at s' else None
  end.

(** [s.replace(/\+.*?@/, '@')]. *)
Fixpoint strip_tag (s : string) : string :=
  match s with
  | EmptyString => EmptyString
  | String c s' =>
      if Ascii.eqb c "+" then
        match find_at s' with
        | Some r => String "@" r
        | None => String c (strip_tag s')
        end
      else String c (strip_tag s')
  end.

(** The first of the given keys that is a property of the table object,
    own or inherited. *)
Fixpoint first_hit (t : gmap string (list string)) (keys : list string)
  : option string :=
  match keys with
  | [] => None
  | k :: keys' =>
      if Forwarder.has_property k t then Some k else first_hit t keys'
  end.



End Scan.

(** ** Further notions

    Used by the properties of the stages and of the driver that go beyond
    the claims of the specification. *)

Module Extra.
Import Forwarder.

(** The destinations of a list of recipients: for each recipient in order,
    the destinations of its first rule in the table, none when it has no
    rule; nothing is merged or removed. *)
Definition destinations (t : gmap string (list string)) (rs : list string)
  : list string :=
  flat_map
    (fun r => default [] (Spec.first_rule t (Spec.rule_keys (normalize r))))
    rs.

(** The number of mail transmissions and of storage reads in a trace. *)
Definition is_send (e : Effect) : bool :=
  match e with SendRawEmail _ _ _ => true | _ => false end.
Definition is_get (e : Effect) : bool :=
  match e with S3Get _ _ => true | _ => false end.
Definition sends (es : list Effect) : nat := length (List.filter is_send es).
Definition gets (es : list Effect) : nat := length (List.filter is_get es).

(** No character of the text is whitespace. *)
Definition no_whitespace (s : string) : bool :=
  Spec.all (fun c => negb (Char.isWhiteSpace c)) s.

(** The default step list, as an override would give it. *)
(** The text up to its last whitespace character, inclusive; empty when
    the text has no whitespace. *)
Fixpoint upto_last_whitespace (s : string) : string :=
  match s with
  | EmptyString => ""
  | String c s' =>
      match upto_last_whitespace s' with
      | EmptyString => if Char.isWhiteSpace c then String c "" else ""
      | String _ _ as r => String c r
      end
  end.

(** Effects among which there is no request to S3 and none to SES. *)
Definition quiet (es : list Effect) : Prop := sends es = 0 ∧ gets es = 0.

(** A computation that only appends to the trace, and what it appends
    satisfies [P]. *)
Definition appends {A} (m : M A) (P : list Effect → Prop) : Prop :=
  ∀ s, ∃ es, trace (fst (m s)) = trace s ++ es ∧ P es.

(** The message the processor makes of the stored message [msg] under the
    override [toEmail]. *)
Definition processed (env : Env) (toEmail msg : option string) : string :=
  default ""
    (emailData
       (ctx (fst (processMessage env
                    (mkSt (mkData None toEmail None None None None msg) []))))).

(** *** A header as a list of lines *)

(** A line: the text before the line terminator, and the terminator. *)
Definition Line : Type := (string * string)%type.

Definition line_text (l : Line) : string := fst l +:+ snd l.

Fixpoint unlines (ls : list Line) : string :=
  match ls with
  | [] => ""
  | l :: ls' => line_text l +:+ unlines ls'
  end.

(** A header line: its text holds no line terminator and is not empty,
    and it ends in LF or CRLF. *)
Definition header_line (l : Line) : bool :=
  Spec.all Char.isDot (fst l)
  && negb (Spec.empty (fst l))
  && (String.eqb (snd l) Str.NL || String.eqb (snd l) Str.CRLF).

Definition header (ls : list Line) : bool := forallb header_line ls.

(** A line that starts with whitespace continues the field before it. *)
Definition continuation (l : Line) : bool :=
  match fst l with
  | String a _ => Char.isWhiteSpace a
  | EmptyString => false
  end.

Definition starts_field (ls : list Line) : bool :=
  match ls with
  | l :: _ => negb (continuation l)
  | [] => true
  end.

(** What follows the field name [name] at the start of [s], letter case
    ignored; [None] when [s] does not start with it. *)
Fixpoint strip_prefix (name s : string) : option string :=
  match name with
  | EmptyString => Some s
  | String c name' =>
      match s with
      | String a s' =>
          if Char.same true a c then strip_prefix name' s' else None
      | EmptyString => None
      end
  end.

(** The text without one leading tab or space, as [[\t ]?] takes it. *)
Definition tabsp_part (v : string) : string :=
  match v with
  | String a _ => if Char.isTabOrSpace a then String a "" else ""
  | EmptyString => ""
  end.
Definition drop_tabsp (v : string) : string :=
  match v with
  | String a v' => if Char.isTabOrSpace a then v' else v
  | EmptyString => ""
  end.

(** The value of the field [name] on a line that starts with it. *)
Definition field (name : string) (l : Line) : option string :=
  drop_tabsp <$> strip_prefix name (fst l).

Definition is_field (name : string) (l : Line) : bool :=
  match strip_prefix name (fst l) with Some _ => true | None => false end.

(** The field [name] is not folded: no line that starts with this name
    is followed by a continuation line. *)
Fixpoint unfolded (name : string) (ls : list Line) : bool :=
  match ls with
  | [] => true
  | l :: ls' =>
      (negb (is_field name l) || starts_field ls') && unfolded name ls'
  end.

(** A continuation line that holds more than whitespace. *)
Definition solid_continuation (l : Line) : bool :=
  continuation l && negb (Spec.all Char.isWhiteSpace (fst l)).

(** Every continuation line of a field [name] holds more than
    whitespace; [inside] tells that the lines continue such a field. *)
Fixpoint solid (name : string) (inside : bool) (ls : list Line) : bool :=
  match ls with
  | [] => true
  | l :: ls' =>
      if is_field name l then solid name true ls'
      else if inside && continuation l then
        negb (Spec.all Char.isWhiteSpace (fst l)) && solid name true ls'
      else solid name false ls'
  end.

(** The header without the fields [name], their continuation lines
    included. *)
Fixpoint strip_folded (name : string) (inside : bool) (ls : list Line)
  : list Line :=
  match ls with
  | [] => []
  | l :: ls' =>
      if is_field name l then strip_folded name true ls'
      else if inside && continuation l then strip_folded name true ls'
      else l :: strip_folded name false ls'
  end.

(** The fields that the rewrites match together with what follows
    them are not folded. *)
Definition unfolded_fields (ls : list Line) : bool :=
  unfolded "from:" ls && unfolded "return-path:" ls && unfolded "sender:" ls
  && unfolded "message-id:" ls.

(** No character of the field name is a line terminator, also when
    letter case is ignored. *)
Definition field_name (name : string) : bool :=
  match name with
  | String _ _ =>
      Spec.all (fun c => negb (Char.same true Char.LF c)
                         && negb (Char.same true Char.CR c)) name
  | EmptyString => false
  end.

(** The character before the position reached after [x], when the
    character before [x] is [p]. *)
Fixpoint prev_after (p : option ascii) (x : string) : option ascii :=
  match x with
  | EmptyString => p
  | String a x' => prev_after (Some a) x'
  end.

(** A pattern [^name...] anchored at the start of a line. *)
Definition anchored (name : string) (R : Regex.regex) : Regex.regex :=
  Regex.Seq Regex.Bol (Regex.Seq (Regex.Lit name) R).

(** The text made of what [g] gives for each line. *)
Fixpoint map_lines (g : Line → string) (ls : list Line) : string :=
  match ls with
  | [] => ""
  | l :: ls' => g l +:+ map_lines g ls'
  end.

(** The [From:] line made of the value [v] of a [From:] field. *)
Definition from_field (env : Env) (v : string) : string :=
  rewrite_from ("noreply@" +:+ Str.show (DOMAIN env))
    {| Regex.m_text := ""; Regex.m_group1 := Some v;
       Regex.m_before := ""; Regex.m_after := "" |}.

(** The [From:] and [To:] rewrites as maps on lines. *)
Definition from_line_of (env : Env) (l : Line) : Line :=
  match field "from:" l with
  | Some v => (from_field env v, snd l)
  | None => l
  end.
Definition to_line_of (te : option string) (l : Line) : Line :=
  if truthy te && is_field "to:" l then ("To: " +:+ Str.show te, snd l)
  else l.

(** The six rewrites, each on one line. *)
Definition from_pass (env : Env) (l : Line) : list Line :=
  match field "from:" l with
  | Some v => [(from_field env v, snd l)]
  | None => [l]
  end.
Definition to_pass (te : option string) (l : Line) : list Line :=
  if truthy te && is_field "to:" l then [("To: " +:+ Str.show te, snd l)]
  else [l].
Definition strip_pass (name : string) (l : Line) : list Line :=
  if is_field name l then [] else [l].

(** What the rewrites of single lines make of one line. *)
Definition rewrite_line (env : Env) (te : option string) (l : Line)
  : list Line :=
  match field "from:" l with
  | Some v => [(from_field env v, snd l)]
  | None =>
      if truthy te && is_field "to:" l then
        [("To: " +:+ Str.show te, snd l)]
      else if is_field "return-path:" l || is_field "sender:" l
              || is_field "message-id:" l
      then []
      else [l]
  end.

(** The [Reply-To:] line the processor adds to a header. *)
Definition reply_to_lines (ls : list Line) : list Line :=
  if existsb (is_field "reply-to:") ls then []
  else
    match List.find (is_field "from:") ls with
    | Some l => [("Reply-To: " +:+ default "" (field "from:" l), snd l)]
    | None => []
    end.

Definition with_to (toEmail : option string) : Overrides :=
  {| o_steps := None; o_toEmail := toEmail |}.

(** The same environment with another value of [FORWARD_MAPPING]. *)
Definition with_mapping (m : Mapping) (env : Env) : Env :=
  {| FORWARD_MAPPING := m;
     BUCKET_NAME := BUCKET_NAME env;
     KEY_PREFIX := KEY_PREFIX env;
     DOMAIN := DOMAIN env;
     s3_send := s3_send env;
     ses_send := ses_send env;
     callback_result := callback_result env |}.

End Extra.

(** * Properties *)

Import Forwarder.

(** ** The event parser *)

Lemma invalid_event_false (ev : option Event) (r : SesRecord) :
  Spec.valid_notification ev r → invalid_event ev = false.
Proof.
  intros (-> & Hs & Hv). unfold invalid_event. cbn.
  rewrite Hs, Hv. reflexivity.
Qed.

Lemma invalid_event_false_inv (ev : option Event) :
  invalid_event ev = false → ∃ r, Spec.valid_notification ev r.
Proof.
  intros E. unfold invalid_event in E.
  apply orb_false_elim in E as [E Hv]. apply orb_false_elim in E as [Hl Hs].
  apply negb_false_iff, bool_decide_eq_true in Hl, Hs, Hv.
  destruct ev as [[[[|r [|r' rs]]|]]|]; cbn in Hl; try discriminate.
  exists r. repeat split; assumption.
Qed.

Lemma invalid_event_true (ev : option Event) :
  (¬ ∃ r, Spec.valid_notification ev r) → invalid_event ev = true.
Proof.
  intros Hno. destruct (invalid_event ev) eqn:E; [reflexivity|].
  destruct (Hno (invalid_event_false_inv _ E)).
Qed.

Lemma has_receipt_blocks (r : SesRecord) :
  Spec.has_receipt r →
  ∃ rc, ses r = Some {| mail := ses_mail r; receipt := Some rc |}
        ∧ receipt_recipients rc = ses_recipients r.
Proof.
  unfold Spec.has_receipt, ses_mail, ses_recipients.
  destruct (ses r) as [[m [rc|]]|]; cbn; intros [x Hx]; try discriminate Hx.
  exists rc. split; reflexivity.
Qed.

Lemma parseEvent_valid (s : St) (r : SesRecord) :
  Spec.valid_notification (event (ctx s)) r →
  Spec.has_receipt r →
  let d := set_recipients (ses_recipients r)
             (set_email (ses_mail r) (ctx s)) in
  parseEvent s = (mkSt d (trace s), Ok (JObject d)).
Proof.
  intros Hv Hb d. unfold parseEvent, bind, get.
  rewrite (invalid_event_false _ _ Hv).
  destruct (has_receipt_blocks r Hb) as (rc & Hses & Hrc).
  subst d. rewrite <- Hrc.
  destruct Hv as (-> & _ & _). cbn [first_record]. rewrite Hses.
  reflexivity.
Qed.

(** A record of the expected source and version that lacks the [ses]
    block, or the [receipt] block in it: reading through the missing block
    raises a [TypeError], in the second case after [data.email] was set. *)
Lemma parseEvent_missing (s : St) (r : SesRecord) :
  Spec.valid_notification (event (ctx s)) r →
  ¬ Spec.has_receipt r →
  parseEvent s
  = match ses r with
    | None => (s, Throw (undefined_read "mail"))
    | Some block =>
        (mkSt (set_email (mail block) (ctx s)) (trace s),
         Throw (undefined_read "recipients"))
    end.
Proof.
  intros Hv Hb. unfold parseEvent, bind, get.
  rewrite (invalid_event_false _ _ Hv).
  destruct Hv as (Hev & _ & _). rewrite Hev. cbn [first_record].
  unfold Spec.has_receipt in Hb.
  destruct (ses r) as [[m [rc|]]|]; cbn in Hb.
  - destruct Hb. eexists. reflexivity.
  - reflexivity.
  - destruct s. reflexivity.
Qed.

Lemma parseEvent_invalid (s : St) :
  (¬ ∃ r, Spec.valid_notification (event (ctx s)) r) →
  parseEvent s
  = (mkSt (ctx s)
       (trace s ++ [Log "error" "parseEvent() received invalid SES message:"]),
     Throw InvalidEventError).
Proof.
  intros Hno. unfold parseEvent, bind, get.
  rewrite (invalid_event_true _ Hno). reflexivity.
Qed.

(** A single record of the expected source and version is not enough: the
    parser reads [ses.mail] and [ses.receipt.recipients] as they come, and
    a record without the [ses] block makes it raise a [TypeError]. *)
Lemma parser_accepts_valid_counterexample :
  ¬ Claimed.parser_accepts_valid
      (mkSt (initial_data (Some {| Records := Some [Examples.bare_record None] |})
               no_overrides) []).
Proof.
  unfold Claimed.parser_accepts_valid. intros [_ H].
  destruct H as [v Hv].
  - exists (Examples.bare_record None). repeat split; reflexivity.
  - vm_compute in Hv. discriminate Hv.
Qed.

(** C6 (amended). The event parser succeeds exactly on a notification with
    a single record of the expected source and version that carries the
    [ses] block with its [receipt] block: it then stores that record's mail
    metadata (with the message identifier) and its recipient list as they
    are; on every notification that is not a single record of the expected
    source and version it logs, raises [InvalidEventError] and leaves the
    context untouched. *)
Theorem parseEvent_valid_or_rejected (s : St) :
  ((∃ v, snd (parseEvent s) = Ok v)
   ↔ ∃ r, Spec.valid_notification (event (ctx s)) r ∧ Spec.has_receipt r)
  ∧ (∀ r, Spec.valid_notification (event (ctx s)) r →
       Spec.has_receipt r →
       let d := set_recipients (ses_recipients r)
                  (set_email (ses_mail r) (ctx s)) in
       parseEvent s = (mkSt d (trace s), Ok (JObject d)))
  ∧ ((¬ ∃ r, Spec.valid_notification (event (ctx s)) r) →
     parseEvent s
     = (mkSt (ctx s)
          (trace s ++ [Log "error" "parseEvent() received invalid SES message:"]),
        Throw InvalidEventError)).
Proof.
  split; [|split; [apply parseEvent_valid | apply parseEvent_invalid]].
  split.
  - intros [v Hv]. destruct (invalid_event (event (ctx s))) eqn:E.
    + unfold parseEvent, bind, get in Hv. rewrite E in Hv. discriminate Hv.
    + destruct (invalid_event_false_inv _ E) as [r Hr]. exists r.
      split; [exact Hr|].
      destruct (ses r ≫= receipt) as [rc|] eqn:Hb;
        [unfold Spec.has_receipt; rewrite Hb; eauto|].
      rewrite (parseEvent_missing s r Hr) in Hv
        by (unfold Spec.has_receipt; rewrite Hb; intros [? ?]; discriminate).
      destruct (ses r); discriminate Hv.
  - intros [r [Hr Hb]]. rewrite (parseEvent_valid s r Hr Hb). eauto.
Qed.

Lemma parseEvent_valid_or_rejected_witness :
  (let s := mkSt (initial_data (Examples.notification ["a@b.com"]) no_overrides) [] in
   recipients (ctx (fst (parseEvent s))) = Some ["a@b.com"]
   ∧ email (ctx (fst (parseEvent s))) = Some {| messageId := Some "m1" |})
  ∧ (let s := mkSt (initial_data (Some {| Records := Some [] |}) no_overrides) [] in
     snd (parseEvent s) = Throw InvalidEventError
     ∧ ctx (fst (parseEvent s)) = ctx s).
Proof.
  split.
  - cbv zeta.
    rewrite (proj1 (proj2 (parseEvent_valid_or_rejected _))
               (Examples.record ["a@b.com"])).
    + split; reflexivity.
    + repeat split; reflexivity.
    + unfold Spec.has_receipt. cbn. eauto.
  - cbv zeta.
    rewrite (proj2 (proj2 (parseEvent_valid_or_rejected _))).
    + split; reflexivity.
    + intros [r (H & _)]. discriminate H.
Defined.

(** ** The pipeline driver *)

Lemma run_steps_app (pre post : list Step) (v : JsVal) :
  run_steps (pre ++ post) v
  = match run_steps pre v with
    | (es, Ok v') => let '(es', r) := run_steps post v' in (es ++ es', r)
    | (es, Throw e) => (es, Throw e)
    end.
Proof.
  revert v. induction pre as [|step pre IH]; intros v; cbn.
  - destruct (run_steps post v) as [es r]. reflexivity.
  - destruct (step v) as [es [v'|e]]; [|reflexivity].
    rewrite IH. destruct (run_steps pre v') as [es1 [v1|e1]].
    + destruct (run_steps post v1) as [es2 r2]. rewrite app_assoc. reflexivity.
    + reflexivity.
Qed.

Lemma run_steps_throw (pre post : list Step) (step : Step) (v0 v : JsVal)
    (es0 es : list Effect) (e : Thrown) :
  run_steps pre v0 = (es0, Ok v) →
  step v = (es, Throw e) →
  run_steps (pre ++ step :: post) v0 = (es0 ++ es, Throw e).
Proof.
  intros Hpre Hstep. rewrite run_steps_app, Hpre. cbn. rewrite Hstep.
  reflexivity.
Qed.

(** C7. Whatever the sequence of steps, when a step raises after the steps
    before it have returned, no later step runs (the effects are those of
    the steps up to the failing one) and the invocation completes with one
    error log entry and the completion callback called with the fixed
    error [GenericFailure], whatever was raised. *)
Theorem handler_step_failure (env : Env) (ev : option Event) (o : Overrides)
    (pre post : list Step) (step : Step) (v : JsVal) (es0 es : list Effect)
    (e : Thrown) :
  default (default_steps env) (o_steps o) = pre ++ step :: post →
  run_steps pre (JObject (initial_data ev o)) = (es0, Ok v) →
  step v = (es, Throw e) →
  handler env ev o
  = es0 ++ es
      ++ [Log "error" ("Step returned error: " +:+ message_of e);
          Callback (Some GenericFailure)].
Proof.
  intros Hsteps Hpre Hstep. unfold handler. rewrite Hsteps.
  rewrite (run_steps_throw _ _ _ _ _ _ _ _ Hpre Hstep).
  unfold finish. rewrite <- app_assoc. reflexivity.
Qed.

Lemma handler_step_failure_witness :
  handler (Examples.env (Table ∅)) (Some {| Records := None |}) no_overrides
  = [Log "error" "parseEvent() received invalid SES message:";
     Log "error" "Step returned error: Error: Received invalid SES message.";
     Callback (Some GenericFailure)].
Proof.
  apply (handler_step_failure (Examples.env (Table ∅))
           (Some {| Records := None |}) no_overrides []
           (tl (default_steps (Examples.env (Table ∅))))
           (stage "event" parseEvent)
           (JObject (initial_data (Some {| Records := None |}) no_overrides))
           [] [Log "error" "parseEvent() received invalid SES message:"]
           InvalidEventError); reflexivity.
Defined.

(** ** Frame of the fetcher and the processor *)

Lemma only_emailData_changed_intro (before after : Data) :
  after = set_emailData (emailData after) before →
  Spec.only_emailData_changed before after.
Proof.
  intros H. split; [exact H|]. rewrite H. repeat split; reflexivity.
Qed.

(** C10. In every context and whatever the outcome, [fetchMessage] and
    [processMessage] change no field of the context other than the raw
    message [emailData]: the current recipients, the original recipients
    and the envelope sender are the same before and after. *)
Theorem fetch_process_frame (env : Env) (s : St) :
  Spec.only_emailData_changed (ctx s) (ctx (fst (fetchMessage env s)))
  ∧ Spec.only_emailData_changed (ctx s) (ctx (fst (processMessage env s))).
Proof.
  destruct s as [[ev te em rs ors ore ed] tr].
  split; apply only_emailData_changed_intro.
  - unfold fetchMessage, bind, get, log, emit, modify, return_data; cbn.
    destruct (s3_send env _ _); reflexivity.
  - unfold processMessage, bind, get, modify, return_data; cbn.
    destruct (split_message ed) as [header body].
    unfold add_reply_to.
    destruct (negb _); [|reflexivity].
    destruct (default "" _); reflexivity.
Qed.

(** ** The recipient transformer: an unparsable table *)

(** With no recipient at all the table is never parsed. *)
Lemma unparsable_raises_counterexample :
  ¬ Claimed.unparsable_raises (Examples.env Unparsable)
      (Examples.with_recipients []).
Proof.
  unfold Claimed.unparsable_raises. intros H.
  specialize (H eq_refl). discriminate H.
Qed.

(** C9 (amended). When the table fails to parse and there is at least one
    recipient, the transformer logs the failure and raises
    [ConfigurationError] while handling the first recipient: nothing else
    is emitted, and the context keeps its recipients and envelope sender
    (only [originalRecipients] has been set). *)
Theorem unparsable_raises_at_first_recipient (env : Env) (s : St)
    (r : string) (rs : list string) :
  FORWARD_MAPPING env = Unparsable →
  recipients (ctx s) = Some (r :: rs) →
  transformRecipients env s
  = (mkSt (set_originalRecipients (Some (r :: rs)) (ctx s))
       (trace s
          ++ [Log "error" "Failed to parse FORWARD_MAPPING environment variable"]),
     Throw ConfigurationError).
Proof.
  intros Hm Hr. unfold transformRecipients, bind, get, modify.
  rewrite Hr. cbn. unfold transform_one, bind, parse_mapping.
  rewrite Hm. reflexivity.
Qed.

Lemma unparsable_raises_at_first_recipient_witness :
  snd (transformRecipients (Examples.env Unparsable)
         (Examples.with_recipients ["a@b.com"; "c@d.com"]))
  = Throw ConfigurationError.
Proof.
  rewrite (unparsable_raises_at_first_recipient (Examples.env Unparsable)
             (Examples.with_recipients ["a@b.com"; "c@d.com"])
             "a@b.com" ["c@d.com"]); reflexivity.
Defined.

(** ** The empty destination list *)

Lemma transformRecipients_empty (env : Env) (s s' : St) :
  transform_loop env (default [] (recipients (ctx s))) []
    (mkSt (set_originalRecipients (recipients (ctx s)) (ctx s)) (trace s))
  = (s', Ok []) →
  transformRecipients env s
  = (mkSt (ctx s')
       (trace s'
          ++ [Log "info"
                ("Finishing process. No new recipients found for original destinations: "
                   +:+ show_list (originalRecipients (ctx s')))]
          ++ [Callback None]),
     Ok (callback_result env None)).
Proof.
  intros Hloop. unfold transformRecipients, bind, get, modify.
  cbn [ctx trace]. rewrite Hloop.
  unfold log, emit, callback, bind, emit, ret. cbn [ctx trace].
  rewrite <- app_assoc. reflexivity.
Qed.

Lemma transformRecipients_nonempty (env : Env) (s s' : St) (x : string)
    (l : list string) :
  transform_loop env (default [] (recipients (ctx s))) []
    (mkSt (set_originalRecipients (recipients (ctx s)) (ctx s)) (trace s))
  = (s', Ok (x :: l)) →
  transformRecipients env s
  = (mkSt (set_recipients (Some (x :: l)) (ctx s')) (trace s'),
     Ok (JObject (set_recipients (Some (x :: l)) (ctx s')))).
Proof.
  intros Hloop. unfold transformRecipients, bind, get, modify.
  cbn [ctx trace]. rewrite Hloop. reflexivity.
Qed.

Lemma transformRecipients_throw (env : Env) (s s' : St) (e : Thrown) :
  transform_loop env (default [] (recipients (ctx s))) []
    (mkSt (set_originalRecipients (recipients (ctx s)) (ctx s)) (trace s))
  = (s', Throw e) →
  transformRecipients env s = (s', Throw e).
Proof.
  intros Hloop. unfold transformRecipients, bind, get, modify.
  cbn [ctx trace]. rewrite Hloop. reflexivity.
Qed.

(** C1 (the code departs from it). When the destination list is empty
    after every recipient, the transformer logs and signals success, but
    the driver goes on: it runs the Message Fetcher, the Message Processor
    and the Message Sender on what the callback returned, and ends the
    invocation a second time.  With a callback that returns nothing the
    fetcher raises at once, and the invocation ends with an error log
    entry and the generic failure as second completion signal. *)
Theorem empty_destinations_driver_continues (env : Env) (ev : option Event)
    (r : SesRecord) (s' : St) :
  Spec.valid_notification ev r →
  Spec.has_receipt r →
  transform_loop env (default [] (ses_recipients r)) []
    (mkSt (set_originalRecipients (ses_recipients r)
             (set_recipients (ses_recipients r)
                (set_email (ses_mail r)
                   (initial_data ev no_overrides)))) [])
  = (s', Ok []) →
  let early_exit :=
    trace s'
      ++ [Log "info"
            ("Finishing process. No new recipients found for original destinations: "
               +:+ show_list (originalRecipients (ctx s')));
          Callback None] in
  handler env ev no_overrides
  = early_exit
      ++ finish (run_steps [stage "log" (fetchMessage env);
                            stage "emailData" (processMessage env);
                            stage "recipients" (sendMessage env)]
                   (callback_result env None))
  ∧ (callback_result env None = JUndefined →
     handler env ev no_overrides
     = early_exit
         ++ [Log "error"
               "Step returned error: Cannot read properties of undefined (reading 'log')";
             Callback (Some GenericFailure)]).
Proof.
  intros Hv Hb Hloop early_exit.
  assert (H : handler env ev no_overrides
              = early_exit
                  ++ finish (run_steps [stage "log" (fetchMessage env);
                                        stage "emailData" (processMessage env);
                                        stage "recipients" (sendMessage env)]
                               (callback_result env None))).
  { unfold handler. cbn [default o_steps no_overrides].
    unfold default_steps.
    set (later := [stage "log" (fetchMessage env);
                   stage "emailData" (processMessage env);
                   stage "recipients" (sendMessage env)]).
    change (run_steps (?a :: ?b :: later) ?v)
      with (run_steps ([a; b] ++ later) v).
    rewrite run_steps_app. cbn [run_steps]. unfold stage at 1.
    rewrite (parseEvent_valid (mkSt (initial_data ev no_overrides) []) r Hv Hb).
    cbv zeta. cbn [trace ctx]. unfold stage at 1.
    rewrite (transformRecipients_empty env
               (mkSt (set_recipients (ses_recipients r)
                        (set_email (ses_mail r)
                           (initial_data ev no_overrides))) []) s' Hloop).
    cbn [trace app]. rewrite app_nil_r.
    destruct (run_steps later (callback_result env None)) as [es [v|e]];
      unfold finish, early_exit; rewrite <- !app_assoc; reflexivity. }
  split; [exact H|]. intros Hcb. rewrite H, Hcb. reflexivity.
Qed.

Lemma empty_destinations_driver_continues_witness :
  handler (Examples.env (Table ∅)) (Examples.notification ["a@b.com"])
    no_overrides
  = [Log "info"
       "Finishing process. No new recipients found for original destinations: a@b.com";
     Callback None;
     Log "error"
       "Step returned error: Cannot read properties of undefined (reading 'log')";
     Callback (Some GenericFailure)].
Proof.
  apply (empty_destinations_driver_continues (Examples.env (Table ∅))
           (Examples.notification ["a@b.com"]) (Examples.record ["a@b.com"])
           (mkSt (set_originalRecipients (Some ["a@b.com"])
                    (set_recipients (Some ["a@b.com"])
                       (set_email (Some {| messageId := Some "m1" |})
                          (initial_data (Examples.notification ["a@b.com"])
                             no_overrides)))) [])).
  - repeat split; reflexivity.
  - unfold Spec.has_receipt. cbn. eauto.
  - vm_compute. reflexivity.
  - reflexivity.
Defined.

(** ** The message processor on the specification's example *)

(** C5 (the code departs from it). On the message
    [From: A <a@b.com>\r\nTo: x@y.com\r\n\r\nhello], without an override
    [To:] and with the sending domain [example.com], the processor
    rewrites [From:] to end in [<noreply@example.com>] and appends the
    line [Reply-To: A <a@b.com>], but the body segment it keeps is the
    empty line alone: the text [hello], which no whitespace follows, is
    not part of the rewritten message. *)
Theorem processMessage_example_loses_body (env : Env) (s : St) :
  DOMAIN env = Some "example.com" →
  emailData (ctx s) = Some Examples.message →
  toEmail (ctx s) = None →
  split_message (Some Examples.message)
  = (Some ("From: A <a@b.com>" +:+ Str.CRLF +:+ "To: x@y.com" +:+ Str.CRLF),
     Str.CRLF)
  ∧ emailData (ctx (fst (processMessage env s)))
    = Some ("From: A <noreply@example.com>" +:+ Str.CRLF
              +:+ "To: x@y.com" +:+ Str.CRLF
              +:+ "Reply-To: A <a@b.com>" +:+ Str.CRLF
              +:+ Str.CRLF).
Proof.
  intros Hd He Ht. split; [vm_compute; reflexivity|].
  destruct s as [[ev te em rs ors ore ed] tr]. cbn in He, Ht. subst ed te.
  unfold processMessage, bind, get.
  cbn [ctx emailData toEmail].
  replace (split_message (Some Examples.message))
    with (Some ("From: A <a@b.com>" +:+ Str.CRLF +:+ "To: x@y.com" +:+ Str.CRLF),
          Str.CRLF) by (vm_compute; reflexivity).
  unfold add_reply_to.
  match goal with
  | |- context [negb ?b] =>
      replace b with false by (vm_compute; reflexivity)
  end.
  cbn [negb].
  match goal with
  | |- context [default "" ?x] =>
      replace x with (Some ("A <a@b.com>" +:+ Str.CRLF))
        by (vm_compute; reflexivity)
  end.
  cbn. unfold rewrite_header. rewrite Hd. vm_compute. reflexivity.
Qed.

Lemma processMessage_example_loses_body_witness :
  emailData
    (ctx (fst (processMessage (Examples.env (Table ∅))
                 (mkSt (set_emailData (Some Examples.message) Examples.fresh) []))))
  = Some ("From: A <noreply@example.com>" +:+ Str.CRLF
            +:+ "To: x@y.com" +:+ Str.CRLF
            +:+ "Reply-To: A <a@b.com>" +:+ Str.CRLF
            +:+ Str.CRLF).
Proof.
  apply (processMessage_example_loses_body (Examples.env (Table ∅))
           (mkSt (set_emailData (Some Examples.message) Examples.fresh) []));
    reflexivity.
Defined.

(** ** Address normalization *)

Section Normalization.
Import Regex Patterns Scan.

Lemma lazy_dot_until_at (s : string) :
  ∀ (fuel : nat) (st : MState),
    rest st = s → String.length s < fuel →
    rest <$> star_loop (rmatch no_flags dot) false fuel st
               (fun st' => rmatch no_flags (Chr "@") st' Some)
    = find_at s.
Proof.
  induction s as [|a s IH]; intros fuel st Hrest Hfuel;
    (destruct fuel as [|fuel]; [cbn in Hfuel; lia|]).
  - cbn. rewrite Hrest. reflexivity.
  - cbn [star_loop]. cbn [rmatch dot]. rewrite Hrest. cbn [ignoreCase no_flags Char.same].
    cbn [find_at]. destruct (Ascii.eqb a "@") eqn:Ea; [reflexivity|].
    destruct (Char.isDot a) eqn:Ed; [|reflexivity].
    unfold progressed. rewrite Hrest. cbn [rest advance String.length].
    rewrite (proj2 (Nat.ltb_lt _ _)) by lia.
    apply IH; [reflexivity | cbn in Hfuel; lia].
Qed.

Lemma exec_plus_tag (s : string) :
  ∀ (p : option ascii) (i : nat),
    match exec_from no_flags plus_tag p s i with
    | Some (start, res) =>
        i ≤ start
        ∧ String.substring 0 (start - i) s +:+ "@" +:+ rest res
          = strip_tag s
    | None => strip_tag s = s
    end.
Proof.
  induction s as [|a s IH]; intros p i.
  - reflexivity.
  - cbn [exec_from]. unfold plus_tag at 1. cbn [rmatch rest].
    cbn [ignoreCase no_flags Char.same strip_tag].
    destruct (Ascii.eqb a "+") eqn:Ea.
    + pose proof (lazy_dot_until_at s (S (String.length s))
                    (advance a s (mkState p (String a s) i []))
                    eq_refl (Nat.lt_succ_diag_r _)) as H.
      cbn [rest advance] in *.
      destruct (star_loop _ _ _ _ _) as [res|].
      * cbn in H. rewrite <- H. split; [lia|].
        rewrite Nat.sub_diag. reflexivity.
      * cbn in H. rewrite <- H.
        specialize (IH (Some a) (S i)).
        destruct (exec_from _ _ _ _ _) as [[start res]|].
        -- destruct IH as [Hle IH]. split; [lia|].
           replace (start - i) with (S (start - S i)) by lia.
           cbn. rewrite <- IH. reflexivity.
        -- rewrite IH. reflexivity.
    + specialize (IH (Some a) (S i)).
      destruct (exec_from _ _ _ _ _) as [[start res]|].
      * destruct IH as [Hle IH]. split; [lia|].
        replace (start - i) with (S (start - S i)) by lia.
        cbn. rewrite <- IH. reflexivity.
      * rewrite IH. reflexivity.
Qed.

(** The pattern of the source computes [strip_tag]. *)
Lemma normalize_strip_tag (address : string) :
  normalize address = strip_tag (Str.toLowerCase address).
Proof.
  unfold normalize, replace_first, exec.
  pose proof (exec_plus_tag (Str.toLowerCase address) None 0) as H.
  destruct (exec_from _ _ _ _ _) as [[start res]|].
  - destruct H as [_ H]. rewrite Nat.sub_0_r in H. exact H.
  - symmetry. exact H.
Qed.

End Normalization.

Section Idempotence.
Import Scan.

Lemma lower_char_idem (c : ascii) :
  Char.toLowerCase (Char.toLowerCase c) = Char.toLowerCase c.
Proof. destruct c as [[] [] [] [] [] [] [] []]; reflexivity. Qed.

Lemma lower_char_at (c : ascii) :
  Ascii.eqb (Char.toLowerCase c) "@" = Ascii.eqb c "@".
Proof. destruct c as [[] [] [] [] [] [] [] []]; reflexivity. Qed.

Lemma lower_idem (s : string) :
  Str.toLowerCase (Str.toLowerCase s) = Str.toLowerCase s.
Proof.
  induction s as [|c s IH]; cbn; [reflexivity|].
  rewrite lower_char_idem, IH. reflexivity.
Qed.

Lemma count_at_lower (s : string) :
  Spec.count "@" (Str.toLowerCase s) = Spec.count "@" s.
Proof.
  induction s as [|c s IH]; cbn; [reflexivity|].
  rewrite lower_char_at, IH. reflexivity.
Qed.

Lemma lower_cons (c : ascii) (s : string) :
  Str.toLowerCase (String c s) = String c s →
  Char.toLowerCase c = c ∧ Str.toLowerCase s = s.
Proof. cbn. intros H. injection H as Hc Hs. split; assumption. Qed.

Lemma find_at_lower (s r : string) :
  find_at s = Some r → Str.toLowerCase s = s → Str.toLowerCase r = r.
Proof.
  induction s as [|c s IH]; cbn [find_at]; [discriminate|].
  intros Hf Hl. apply lower_cons in Hl as [_ Hl].
  destruct (Ascii.eqb c "@").
  - injection Hf as <-. exact Hl.
  - destruct (Char.isDot c); [auto | discriminate].
Qed.

Lemma strip_tag_lower (s : string) :
  Str.toLowerCase s = s → Str.toLowerCase (strip_tag s) = strip_tag s.
Proof.
  induction s as [|c s IH]; [reflexivity|].
  intros Hl. pose proof (lower_cons _ _ Hl) as [Hc Hs].
  cbn [strip_tag]. destruct (Ascii.eqb c "+").
  - destruct (find_at s) as [r|] eqn:Hf.
    + cbn. rewrite (find_at_lower _ _ Hf Hs). reflexivity.
    + cbn. rewrite Hc, (IH Hs). reflexivity.
  - cbn. rewrite Hc, (IH Hs). reflexivity.
Qed.

Lemma find_at_count (s r : string) :
  find_at s = Some r → Spec.count "@" s = S (Spec.count "@" r).
Proof.
  induction s as [|c s IH]; cbn [find_at Spec.count]; [discriminate|].
  destruct (Ascii.eqb c "@").
  - intros [= <-]. reflexivity.
  - destruct (Char.isDot c); [auto | discriminate].
Qed.

Lemma strip_tag_no_at (s : string) :
  Spec.count "@" s = 0 → strip_tag s = s.
Proof.
  induction s as [|c s IH]; [reflexivity|].
  cbn [Spec.count strip_tag]. intros Hc.
  assert (Hs : Spec.count "@" s = 0) by lia.
  destruct (find_at s) as [r|] eqn:Hf.
  - apply find_at_count in Hf. lia.
  - rewrite (IH Hs). destruct (Ascii.eqb c "+"); reflexivity.
Qed.

Lemma find_at_strip_tag_none (s : string) :
  find_at s = None → find_at (strip_tag s) = None.
Proof.
  induction s as [|c s IH]; [reflexivity|].
  cbn [find_at strip_tag].
  destruct (Ascii.eqb c "@") eqn:Ea; [discriminate|].
  destruct (Char.isDot c) eqn:Ed.
  - intros Hf. rewrite Hf.
    assert (find_at (String c (strip_tag s)) = None) as Hn.
    { cbn [find_at]. rewrite Ea, Ed. auto. }
    destruct (Ascii.eqb c "+"); exact Hn.
  - intros _.
    assert (∀ x, find_at (String c x) = None) as Hn.
    { intros x. cbn [find_at]. rewrite Ea, Ed. reflexivity. }
    destruct (Ascii.eqb_spec c "+") as [->|_]; [discriminate Ed | apply Hn].
Qed.

Lemma strip_tag_idem (s : string) :
  Spec.count "@" s ≤ 1 → strip_tag (strip_tag s) = strip_tag s.
Proof.
  induction s as [|c s IH]; [reflexivity|].
  cbn [Spec.count]. intros Hc.
  assert (Hs : Spec.count "@" s ≤ 1) by lia.
  cbn [strip_tag]. destruct (Ascii.eqb c "+") eqn:Ep.
  - destruct (find_at s) as [r|] eqn:Hf.
    + apply find_at_count in Hf.
      cbn [strip_tag]. change (Ascii.eqb "@" "+") with false. cbv iota.
      rewrite strip_tag_no_at by lia. reflexivity.
    + cbn [strip_tag]. rewrite Ep, (find_at_strip_tag_none _ Hf), (IH Hs).
      reflexivity.
  - cbn [strip_tag]. rewrite Ep, (IH Hs). reflexivity.
Qed.

End Idempotence.

(** The second normalization strips a second tag. *)
Lemma normalize_idempotent_counterexample :
  ¬ Claimed.normalize_idempotent "a+b@+c@d".
Proof. unfold Claimed.normalize_idempotent. vm_compute. discriminate. Qed.

(** C3 (amended). Normalization (lower-casing, then removing the text from
    the first [+] up to the [@] that follows it) is idempotent on every
    address with at most one [@], and it sends [User+Tag@Example.com] to
    [user@example.com]. *)
Theorem normalize_idempotent_single_at (address : string) :
  Spec.count "@" address ≤ 1 →
  normalize (normalize address) = normalize address
  ∧ normalize "User+Tag@Example.com" = "user@example.com".
Proof.
  intros Hc. split; [|vm_compute; reflexivity].
  rewrite !normalize_strip_tag.
  rewrite strip_tag_lower by apply lower_idem.
  apply strip_tag_idem. rewrite count_at_lower. exact Hc.
Qed.

Lemma normalize_idempotent_single_at_witness :
  normalize (normalize "User+Tag@Example.com") = normalize "User+Tag@Example.com"
  ∧ normalize "User+Tag@Example.com" = "user@example.com".
Proof.
  apply (normalize_idempotent_single_at "User+Tag@Example.com").
  vm_compute. lia.
Defined.

(** ** Resolution of one recipient *)

Section Resolution.
Import Scan.

Lemma split_last_at_index (s : string) :
  Spec.split_last_at s
  = match Str.lastIndexOf "@" s with
    | Some p => Some (Str.take p s, Str.drop p s)
    | None => None
    end.
Proof.
  induction s as [|c s IH]; [reflexivity|].
  cbn [Spec.split_last_at Str.lastIndexOf]. rewrite IH.
  destruct (Str.lastIndexOf "@" s) as [i|]; [reflexivity|].
  destruct (Ascii.eqb c "@"); reflexivity.
Qed.

(** [split_last_at] cuts at the last [@]. *)
Lemma split_last_at_spec (s l d : string) :
  Spec.split_last_at s = Some (l, d) →
  s = l +:+ d ∧ ∃ d', d = String "@" d' ∧ Spec.count "@" d' = 0.
Proof.
  revert l d. induction s as [|c s IH]; intros l d; cbn; [discriminate|].
  destruct (Spec.split_last_at s) as [[l' d']|] eqn:E.
  - intros [= <- <-]. destruct (IH _ _ eq_refl) as (-> & Hd).
    split; [reflexivity | exact Hd].
  - destruct (Ascii.eqb_spec c "@") as [->|_]; [|discriminate].
    intros [= <- <-]. split; [reflexivity|]. exists s. split; [reflexivity|].
    clear IH. induction s as [|a s IHs]; [reflexivity|].
    cbn in E |- *. destruct (Spec.split_last_at s) as [[? ?]|]; [discriminate|].
    destruct (Ascii.eqb a "@"); [discriminate|]. auto.
Qed.

Lemma split_last_at_none_no_at (s : string) :
  Spec.split_last_at s = None → Spec.count "@" s = 0.
Proof.
  induction s as [|a s IHs]; [reflexivity|]. cbn.
  destruct (Spec.split_last_at s) as [[? ?]|]; [discriminate|].
  destruct (Ascii.eqb a "@"); [discriminate|]. auto.
Qed.

(** One recipient: the code takes the first rule key that is a property
    of the table. *)
Lemma transform_one_first_hit (env : Env) (t : gmap string (list string))
    (origEmail : string) (acc : list string) (s : St) :
  FORWARD_MAPPING env = Table t →
  transform_one env origEmail acc s
  = match first_hit t (Spec.rule_keys (normalize origEmail)) with
    | Some k => take_rule t k origEmail acc s
    | None => (s, Ok acc)
    end.
Proof.
  intros Hm. unfold transform_one, bind, parse_mapping. rewrite Hm.
  unfold ret at 1. cbv beta iota.
  unfold Spec.rule_keys. rewrite split_last_at_index.
  set (key := normalize origEmail).
  destruct (Str.lastIndexOf "@" key) as [p|] eqn:Hp.
  - pose proof (split_last_at_index key) as Hs. rewrite Hp in Hs.
    apply split_last_at_spec in Hs as (_ & d' & Hd & _).
    rewrite Hd. cbn [truthy andb in_table Str.show].
    destruct (Str.take p key) as [|a l] eqn:Hl; cbn [first_hit truthy andb in_table Str.show];
      destruct (has_property key t); try reflexivity;
      destruct (has_property (String "@" d') t); try reflexivity.
    + destruct (has_property "@" t); reflexivity.
    + destruct (has_property (String a l) t); [reflexivity|].
      destruct (has_property "@" t); reflexivity.
  - cbn [truthy andb in_table Str.show first_hit].
    destruct (has_property key t) eqn:Hk; [reflexivity|].
    rewrite andb_false_r.
    destruct (has_property "@" t); reflexivity.
Qed.

Lemma has_property_own (t : gmap string (list string)) (k : string) :
  (k ∈ Object_prototype → is_Some (t !! k)) →
  has_property k t = bool_decide (is_Some (t !! k)).
Proof.
  intros H. unfold has_property.
  destruct (bool_decide (is_Some (t !! k))) eqn:E1; [reflexivity|].
  apply bool_decide_eq_false in E1.
  cbn [orb]. apply bool_decide_eq_false. intros Hin. auto.
Qed.

(** When no key tried is merely inherited, the first hit is the first
    key of the table. *)
Lemma first_hit_own (t : gmap string (list string)) (keys : list string)
    (origEmail : string) (acc : list string) (s : St) :
  (∀ k, k ∈ keys → k ∈ Object_prototype → is_Some (t !! k)) →
  match first_hit t keys with
  | Some k => take_rule t k origEmail acc s
  | None => (s, Ok acc)
  end
  = match Spec.first_rule t keys with
    | Some dests =>
        (mkSt (set_originalRecipient (Some origEmail) (ctx s)) (trace s),
         Ok (acc ++ dests))
    | None => (s, Ok acc)
    end.
Proof.
  induction keys as [|k keys IH]; intros Hown; [reflexivity|].
  cbn [first_hit Spec.first_rule].
  rewrite has_property_own by (apply Hown; left).
  destruct (t !! k) as [dests|] eqn:Hk.
  - rewrite bool_decide_eq_true_2 by eauto.
    unfold take_rule. rewrite Hk. reflexivity.
  - rewrite bool_decide_eq_false_2 by (intros [? ?]; discriminate).
    apply IH. intros k' Hin. apply Hown. right. exact Hin.
Qed.

(** When the code returns for a recipient, it has done what the first
    rule of the table says. *)
Lemma first_hit_ok (t : gmap string (list string)) (keys : list string)
    (origEmail : string) (acc acc' : list string) (s s' : St) :
  match first_hit t keys with
  | Some k => take_rule t k origEmail acc s
  | None => (s, Ok acc)
  end = (s', Ok acc') →
  (s', Ok acc')
  = match Spec.first_rule t keys with
    | Some dests =>
        (mkSt (set_originalRecipient (Some origEmail) (ctx s)) (trace s),
         Ok (acc ++ dests))
    | None => (s, Ok acc)
    end.
Proof.
  induction keys as [|k keys IH]; cbn [first_hit Spec.first_rule].
  - intros [= <- <-]. reflexivity.
  - unfold has_property. destruct (t !! k) as [dests|] eqn:Hk.
    + rewrite bool_decide_eq_true_2 by eauto. cbn [orb].
      unfold take_rule. rewrite Hk. intros <-. reflexivity.
    + rewrite bool_decide_eq_false_2 by (intros [? ?]; discriminate).
      cbn [orb]. destruct (bool_decide (k ∈ Object_prototype)).
      * unfold take_rule. rewrite Hk. discriminate.
      * exact IH.
Qed.

End Resolution.

(** An empty local-part is not looked up: the catch-all answers although
    the table has an entry for the empty key. *)
Lemma resolution_order_counterexample :
  ¬ Claimed.resolution_order (Examples.env (Table Examples.empty_local))
      Examples.empty_local "@x.com".
Proof.
  unfold Claimed.resolution_order. intros H.
  specialize (H eq_refl [] (Examples.with_recipients [])).
  vm_compute in H. discriminate H.
Qed.

(** C2 (amended). For every recipient, provided no key tried is a name
    that the table object merely inherits from [Object.prototype], the
    transformer takes the first rule in the table among: the full normalized
    address, the domain portion from the last [@], the local-part before
    the last [@] when it is not empty, and the catch-all ["@"]; it appends
    that rule's destinations and records the recipient as envelope sender,
    or changes nothing when no rule is in the table.  With the table
    [{"alice@example.com": ["a1@dest.com","a2@dest.com"],
      "@example.com": ["domain@dest.com"]}] the recipient
    [alice@example.com] resolves to exactly [a1@dest.com; a2@dest.com]. *)
Theorem resolution_order_nonempty_local (env : Env)
    (t : gmap string (list string)) (origEmail : string) (acc : list string)
    (s : St) :
  FORWARD_MAPPING env = Table t →
  (∀ k, k ∈ Spec.rule_keys (normalize origEmail) →
        k ∈ Object_prototype → is_Some (t !! k)) →
  transform_one env origEmail acc s
  = Spec.resolved Spec.rule_keys t origEmail acc s
  ∧ transform_one (Examples.env (Table Examples.alice)) "alice@example.com" [] s
    = (mkSt (set_originalRecipient (Some "alice@example.com") (ctx s)) (trace s),
       Ok ["a1@dest.com"; "a2@dest.com"]).
Proof.
  intros Hm Hown. split.
  - rewrite (transform_one_first_hit env t _ _ _ Hm).
    unfold Spec.resolved. apply first_hit_own. exact Hown.
  - rewrite (transform_one_first_hit (Examples.env (Table Examples.alice))
               Examples.alice _ _ _ eq_refl).
    replace (Scan.first_hit Examples.alice
               (Spec.rule_keys (normalize "alice@example.com")))
      with (Some "alice@example.com") by (vm_compute; reflexivity).
    unfold take_rule.
    replace (Examples.alice !! "alice@example.com")
      with (Some ["a1@dest.com"; "a2@dest.com"]) by (vm_compute; reflexivity).
    reflexivity.
Qed.

Lemma resolution_order_nonempty_local_witness :
  transform_one (Examples.env (Table Examples.alice)) "alice@example.com" []
    (Examples.with_recipients ["alice@example.com"])
  = (mkSt (set_originalRecipient (Some "alice@example.com")
             (ctx (Examples.with_recipients ["alice@example.com"]))) [],
     Ok ["a1@dest.com"; "a2@dest.com"]).
Proof.
  destruct (resolution_order_nonempty_local (Examples.env (Table Examples.alice))
              Examples.alice "alice@example.com" []
              (Examples.with_recipients ["alice@example.com"]) eq_refl)
    as [H _].
  - intros k Hk Hp. exfalso. revert Hp. vm_compute in Hk.
    repeat (apply elem_of_cons in Hk as [->|Hk]; [vm_compute; intros Hp;
      repeat (apply elem_of_cons in Hp as [Hp|Hp]; [discriminate Hp|]);
      apply elem_of_nil in Hp; exact Hp|]).
    apply elem_of_nil in Hk. destruct Hk.
  - rewrite H. vm_compute. reflexivity.
Defined.

(** ** The envelope sender *)

Lemma resolved_matches (t : gmap string (list string)) (r : string)
    (acc : list string) (s : St) :
  ∃ acc',
    Spec.resolved Spec.rule_keys t r acc s
    = (if Spec.matches t r
       then mkSt (set_originalRecipient (Some r) (ctx s)) (trace s)
       else s,
       Ok acc').
Proof.
  unfold Spec.resolved, Spec.matches.
  destruct (Spec.first_rule t _) as [dests|].
  - rewrite bool_decide_eq_true_2 by eauto. eauto.
  - rewrite bool_decide_eq_false_2 by (intros [? ?]; discriminate). eauto.
Qed.

(** The loop, when it completes, leaves the last matching recipient as
    envelope sender. *)
Lemma transform_loop_last_match (env : Env) (t : gmap string (list string))
    (rs : list string) :
  FORWARD_MAPPING env = Table t →
  ∀ (acc acc' : list string) (s s' : St),
    transform_loop env rs acc s = (s', Ok acc') →
    originalRecipient (ctx s')
    = match last (List.filter (Spec.matches t) rs) with
      | Some r => Some r
      | None => originalRecipient (ctx s)
      end.
Proof.
  intros Hm. induction rs as [|r rs IH]; intros acc acc' s s' Hloop.
  - cbn in Hloop. injection Hloop as <- _. reflexivity.
  - cbn [transform_loop] in Hloop. unfold bind in Hloop.
    destruct (transform_one env r acc s) as [s1 [acc1|e]] eqn:H1;
      [|discriminate].
    rewrite (transform_one_first_hit env t _ _ _ Hm) in H1.
    apply first_hit_ok in H1.
    fold (Spec.resolved Spec.rule_keys t r acc s) in H1.
    destruct (resolved_matches t r acc s) as [a Hr]. rewrite Hr in H1.
    injection H1 as -> _.
    rewrite (IH _ _ _ _ Hloop). cbn [List.filter].
    destruct (Spec.matches t r).
    + rewrite last_cons. destruct (last _); reflexivity.
    + reflexivity.
Qed.

(** C8. When the transformer completes, the envelope sender it has
    recorded is the last original recipient, in iteration order, that
    matches a forwarding rule, and that is the source the sender stage
    submits; with the table [{"@": ["catchall@dest.com"]}] and the recipient
    [anyone@domain.com] the destinations are [catchall@dest.com] and the
    envelope sender is [anyone@domain.com]. *)
Theorem envelope_sender_last_match (env : Env) (t : gmap string (list string))
    (s s' : St) (v : JsVal) (r : string) :
  FORWARD_MAPPING env = Table t →
  transformRecipients env s = (s', Ok v) →
  last (List.filter (Spec.matches t) (default [] (recipients (ctx s))))
  = Some r →
  originalRecipient (ctx s') = Some r
  ∧ (∀ s2, originalRecipient (ctx s2) = originalRecipient (ctx s') →
       SendRawEmail (recipients (ctx s2)) (Some r)
         (default "" (emailData (ctx s2)))
       ∈ trace (fst (sendMessage env s2)))
  ∧ (let s0 := fst (transformRecipients (Examples.env (Table Examples.catch_all))
                      (Examples.with_recipients ["anyone@domain.com"])) in
     recipients (ctx s0) = Some ["catchall@dest.com"]
     ∧ originalRecipient (ctx s0) = Some "anyone@domain.com").
Proof.
  intros Hm Hrun Hlast.
  assert (Hr : originalRecipient (ctx s') = Some r).
  { destruct (transform_loop env (default [] (recipients (ctx s))) []
                (mkSt (set_originalRecipients (recipients (ctx s)) (ctx s))
                   (trace s))) as [s1 [[|x l]|e]] eqn:Hloop.
    - rewrite (transformRecipients_empty _ _ _ Hloop) in Hrun.
      injection Hrun as <- _. cbn [ctx].
      rewrite (transform_loop_last_match env t _ Hm _ _ _ _ Hloop), Hlast.
      reflexivity.
    - rewrite (transformRecipients_nonempty _ _ _ _ _ Hloop) in Hrun.
      injection Hrun as <- _. cbn [ctx].
      change (originalRecipient (set_recipients _ (ctx s1)))
        with (originalRecipient (ctx s1)).
      rewrite (transform_loop_last_match env t _ Hm _ _ _ _ Hloop), Hlast.
      reflexivity.
    - rewrite (transformRecipients_throw _ _ _ _ Hloop) in Hrun.
      discriminate Hrun. }
  split; [exact Hr|]. split; [|vm_compute; split; reflexivity].
  intros s2 H2. rewrite Hr in H2.
  unfold sendMessage, bind, get, log, emit. cbn [ctx trace].
  rewrite H2.
  destruct (ses_send env _ _ _); cbn; set_solver.
Qed.

Lemma envelope_sender_last_match_witness :
  originalRecipient
    (ctx (fst (transformRecipients (Examples.env (Table Examples.catch_all))
                 (Examples.with_recipients ["one@domain.com"; "two@domain.com"]))))
  = Some "two@domain.com".
Proof.
  apply (envelope_sender_last_match (Examples.env (Table Examples.catch_all))
           Examples.catch_all
           (Examples.with_recipients ["one@domain.com"; "two@domain.com"])
           _ (JObject
                (ctx (fst (transformRecipients
                             (Examples.env (Table Examples.catch_all))
                             (Examples.with_recipients
                                ["one@domain.com"; "two@domain.com"])))))
           "two@domain.com").
  - reflexivity.
  - vm_compute. reflexivity.
  - vm_compute. reflexivity.
Defined.

(** ** The header and body segments *)


Section Strings.

Lemma append_cons (x : ascii) (a b : string) :
  String x a +:+ b = String x (a +:+ b).
Proof. reflexivity. Qed.

Lemma append_nil_l (b : string) : "" +:+ b = b.
Proof. reflexivity. Qed.

Lemma append_assoc (a b c : string) : (a +:+ b) +:+ c = a +:+ (b +:+ c).
Proof.
  induction a as [|x a IH]; [reflexivity|].
  rewrite !append_cons, IH. reflexivity.
Qed.

Lemma append_nil_r (a : string) : a +:+ "" = a.
Proof.
  induction a as [|x a IH]; [reflexivity|].
  rewrite append_cons, IH. reflexivity.
Qed.

Lemma length_append (a b : string) :
  String.length (a +:+ b) = String.length a + String.length b.
Proof.
  induction a as [|x a IH]; [reflexivity|].
  rewrite append_cons. cbn [String.length]. rewrite IH. reflexivity.
Qed.

Lemma substring_prefix (a b : string) :
  String.substring 0 (String.length a) (a +:+ b) = a.
Proof.
  induction a as [|x a IH].
  - rewrite append_nil_l. destruct b; reflexivity.
  - rewrite append_cons. cbn [String.length String.substring].
    rewrite IH. reflexivity.
Qed.

Lemma substring_skip (a b : string) (n : nat) :
  String.substring (String.length a) n (a +:+ b) = String.substring 0 n b.
Proof.
  induction a as [|x a IH]; [reflexivity|].
  rewrite append_cons. cbn [String.length String.substring]. exact IH.
Qed.


End Strings.

Section Matcher.
Import Regex.
Variable fl : flags.

Lemma feed_app (c1 c2 : string) (st : MState) :
  feed (c1 +:+ c2) st = feed c2 (feed c1 st).
Proof.
  revert st. induction c1 as [|a c1 IH]; intros st; [reflexivity|].
  rewrite append_cons. cbn [feed]. apply IH.
Qed.

Lemma feed_rest (c r : string) (st : MState) :
  rest st = c +:+ r → rest (feed c st) = r.
Proof.
  revert st. induction c as [|a c IH]; intros st H; [exact H|].
  cbn [feed]. apply IH. cbn [rest advance]. rewrite H. reflexivity.
Qed.

Lemma feed_pos (c : string) (st : MState) :
  pos (feed c st) = pos st + String.length c.
Proof.
  revert st. induction c as [|a c IH]; intros st; cbn; [lia|].
  rewrite IH. cbn. lia.
Qed.

Lemma feed_caps (c : string) (st : MState) : caps (feed c st) = caps st.
Proof.
  revert st. induction c as [|a c IH]; intros st; cbn; [reflexivity|].
  rewrite IH. reflexivity.
Qed.

Lemma feed_one (a : ascii) (s : string) (st : MState) :
  rest st = String a s → advance a s st = feed (String a "") st.
Proof. intros H. cbn. rewrite H. reflexivity. Qed.

Lemma feed_cons (a : ascii) (c s : string) (st : MState) :
  rest st = String a s → feed (String a c) st = feed c (advance a s st).
Proof. intros H. cbn. rewrite H. reflexivity. Qed.

Lemma progressed_feed (c r : string) (st : MState) :
  rest st = c +:+ r → c ≠ "" → progressed st (feed c st) = true.
Proof.
  intros H Hc. unfold progressed. rewrite (feed_rest _ _ _ H), H.
  rewrite length_append. apply Nat.ltb_lt.
  destruct c; [congruence | cbn; lia].
Qed.

Lemma exec_from_here (r : regex) (p : option ascii) (s : string) (i : nat)
    (res : MState) :
  rmatch fl r (mkState p s i []) Some = Some res →
  exec_from fl r p s i = Some (i, res).
Proof. intros H. destruct s; cbn [exec_from]; rewrite H; reflexivity. Qed.

Lemma exec_from_next (r : regex) (p : option ascii) (c : ascii) (s : string)
    (i : nat) :
  rmatch fl r (mkState p (String c s) i []) Some = None →
  exec_from fl r p (String c s) i = exec_from fl r (Some c) s (S i).
Proof. intros H. cbn [exec_from]. rewrite H. reflexivity. Qed.

Lemma rmatch_chr (c a : ascii) (s : string) (st : MState) (k : cont) :
  rest st = String a s →
  rmatch fl (Chr c) st k
  = if Char.same (ignoreCase fl) a c then k (advance a s st) else None.
Proof. intros H. cbn. rewrite H. reflexivity. Qed.

Lemma rmatch_cls (p : ascii → bool) (a : ascii) (s : string) (st : MState)
    (k : cont) :
  rest st = String a s →
  rmatch fl (Cls p) st k = if p a then k (advance a s st) else None.
Proof. intros H. cbn. rewrite H. reflexivity. Qed.

Lemma rmatch_cls_nil (p : ascii → bool) (st : MState) (k : cont) :
  rest st = "" → rmatch fl (Cls p) st k = None.
Proof. intros H. cbn. rewrite H. reflexivity. Qed.

(** One step of a greedy repetition of a character class. *)
Lemma star_cls_step (p : ascii → bool) (a : ascii) (s : string)
    (fuel : nat) (st : MState) (k : cont) :
  rest st = String a s →
  star_loop (rmatch fl (Cls p)) true (S fuel) st k
  = if p a then
      match star_loop (rmatch fl (Cls p)) true fuel (advance a s st) k with
      | Some x => Some x
      | None => k st
      end
    else k st.
Proof.
  intros H. cbn [star_loop]. rewrite (rmatch_cls _ _ _ _ _ H).
  destruct (p a); [|reflexivity].
  unfold progressed. rewrite H. cbn [rest advance String.length].
  rewrite (proj2 (Nat.ltb_lt _ _)) by lia. reflexivity.
Qed.

Lemma star_cls_nil (p : ascii → bool) (fuel : nat) (st : MState) (k : cont) :
  rest st = "" → star_loop (rmatch fl (Cls p)) true fuel st k = k st.
Proof.
  intros H. destruct fuel; [reflexivity|]. cbn [star_loop].
  rewrite (rmatch_cls_nil _ _ _ H). reflexivity.
Qed.

(** A greedy repetition of a class over a run of the class that nothing
    of the class follows: when the continuation fails wherever a
    character of the class comes next, the whole run is taken. *)
Lemma star_cls_run (p : ascii → bool) (c : string) :
  ∀ (r : string) (fuel : nat) (st : MState) (k : cont),
    Spec.all p c = true →
    rest st = c +:+ r →
    (r = "" ∨ ∃ a r', r = String a r' ∧ p a = false) →
    String.length (rest st) < fuel →
    (∀ st' a s, rest st' = String a s → p a = true → k st' = None) →
    star_loop (rmatch fl (Cls p)) true fuel st k = k (feed c st).
Proof.
  induction c as [|a c IH]; intros r fuel st k Hall Hrest Hr Hfuel Hk.
  - rewrite append_nil_l in Hrest. cbn [feed].
    destruct fuel as [|fuel]; [reflexivity|].
    destruct Hr as [->|(a & r' & -> & Ha)].
    + apply star_cls_nil. exact Hrest.
    + rewrite (star_cls_step _ _ _ _ _ _ Hrest), Ha. reflexivity.
  - cbn in Hall. apply andb_prop in Hall as [Ha Hall].
    destruct fuel as [|fuel]; [lia|].
    rewrite append_cons in Hrest.
    rewrite (star_cls_step _ _ _ _ _ _ Hrest), Ha.
    rewrite (feed_cons _ _ _ _ Hrest).
    rewrite (IH r fuel (advance a (c +:+ r) st) k Hall eq_refl Hr);
      [|rewrite Hrest in Hfuel; cbn in Hfuel |- *; lia | exact Hk].
    rewrite (Hk st a _ Hrest Ha).
    destruct (k _); reflexivity.
Qed.

(** The same when the continuation succeeds at the end of the run. *)
Lemma star_cls_greedy (p : ascii → bool) (c : string) :
  ∀ (r : string) (fuel : nat) (st : MState) (k : cont) (x : MState),
    Spec.all p c = true →
    rest st = c +:+ r →
    (r = "" ∨ ∃ a r', r = String a r' ∧ p a = false) →
    String.length (rest st) < fuel →
    k (feed c st) = Some x →
    star_loop (rmatch fl (Cls p)) true fuel st k = Some x.
Proof.
  induction c as [|a c IH]; intros r fuel st k x Hall Hrest Hr Hfuel Hk.
  - rewrite append_nil_l in Hrest. cbn [feed] in Hk.
    destruct fuel as [|fuel]; [exact Hk|].
    destruct Hr as [->|(a & r' & -> & Ha)].
    + rewrite star_cls_nil by exact Hrest. exact Hk.
    + rewrite (star_cls_step _ _ _ _ _ _ Hrest), Ha. exact Hk.
  - cbn in Hall. apply andb_prop in Hall as [Ha Hall].
    destruct fuel as [|fuel]; [lia|].
    rewrite append_cons in Hrest.
    rewrite (star_cls_step _ _ _ _ _ _ Hrest), Ha.
    rewrite (feed_cons _ _ _ _ Hrest) in Hk.
    rewrite (IH r fuel (advance a (c +:+ r) st) k x Hall eq_refl Hr);
      [reflexivity | rewrite Hrest in Hfuel; cbn in Hfuel |- *; lia | exact Hk].
Qed.

(** Soundness of the matcher for [reach]. *)
Lemma star_loop_sound (m : MState → cont → option MState) (r : regex)
    (g : bool) :
  (∀ st k res, m st k = Some res →
               ∃ st', reach fl r st st' ∧ k st' = Some res) →
  ∀ fuel st k res,
    star_loop m g fuel st k = Some res →
    ∃ st', reach fl (Star g r) st st' ∧ k st' = Some res.
Proof.
  intros Hm. induction fuel as [|fuel IH]; intros st k res H.
  - exists st. split; [constructor | exact H].
  - cbn [star_loop] in H.
    assert (Hagain :
      ∀ res',
        m st (fun st' => if progressed st st'
                         then star_loop m g fuel st' k else None)
        = Some res' →
        ∃ st', reach fl (Star g r) st st' ∧ k st' = Some res').
    { intros res' E. apply Hm in E as (st1 & R1 & E).
      destruct (progressed st st1); [|discriminate].
      apply IH in E as (st2 & R2 & E).
      exists st2. split; [|exact E]. eapply reach_star_step; eassumption. }
    destruct g.
    + destruct (m st _) as [x|] eqn:E.
      * injection H as ->. apply Hagain. reflexivity.
      * exists st. split; [constructor | exact H].
    + destruct (k st) as [x|] eqn:E.
      * injection H as ->. exists st. split; [constructor | exact E].
      * apply Hagain. exact H.
Qed.

Lemma rmatch_sound (r : regex) :
  ∀ st k res,
    rmatch fl r st k = Some res →
    ∃ st', reach fl r st st' ∧ k st' = Some res.
Proof.
  induction r as [|c|p| |r1 IH1 r2 IH2|r IH|g r IH|n r IH];
    intros st k res H; cbn [rmatch] in H.
  - exists st. split; [constructor | exact H].
  - destruct (rest st) as [|a s] eqn:E; [discriminate|].
    destruct (Char.same _ a c) eqn:Es; [|discriminate].
    exists (advance a s st). split; [constructor; assumption | exact H].
  - destruct (rest st) as [|a s] eqn:E; [discriminate|].
    destruct (p a) eqn:Ep; [|discriminate].
    exists (advance a s st). split; [constructor; assumption | exact H].
  - destruct (at_line_start fl st) eqn:E; [|discriminate].
    exists st. split; [constructor; assumption | exact H].
  - apply IH1 in H as (st1 & R1 & H). apply IH2 in H as (st2 & R2 & H).
    exists st2. split; [econstructor; eassumption | exact H].
  - destruct (rmatch fl r st _) as [x|] eqn:E.
    + injection H as ->. apply IH in E as (st1 & R1 & E).
      destruct (progressed st st1); [|discriminate].
      exists st1. split; [apply reach_opt_take; assumption | exact E].
    + exists st. split; [constructor | exact H].
  - apply (star_loop_sound _ r g IH) in H. exact H.
  - apply IH in H as (st1 & R1 & H).
    eexists. split; [constructor; eassumption | exact H].
Qed.

End Matcher.

Section HeaderBody.
Import Regex Patterns.

Lemma eol_starts_outside (e r : string) :
  Spec.is_eol e → starts_outside Char.isDot (e +:+ r).
Proof. intros [->| ->]; right; eexists _, _; split; reflexivity. Qed.

Lemma eol_take (e r : string) (st : MState) (k : cont) :
  Spec.is_eol e → rest st = e +:+ r →
  rmatch flag_m eol st k = k (feed e st).
Proof.
  intros [->| ->] Hrest; unfold Str.NL, Str.CRLF in *;
    rewrite ?append_cons, ?append_nil_l in Hrest;
    unfold eol; cbn [rmatch]; rewrite Hrest;
    rewrite (feed_cons _ _ _ _ Hrest).
  - reflexivity.
  - cbn [Char.same ignoreCase flag_m]. unfold progressed. rewrite Hrest.
    cbn [rest advance String.length feed].
    rewrite (proj2 (Nat.ltb_lt _ _)) by lia.
    change (Ascii.eqb Char.CR Char.CR) with true.
    change (Ascii.eqb Char.LF Char.LF) with true.
    change (Ascii.eqb Char.CR Char.LF) with false.
    cbn. destruct (k _); reflexivity.
Qed.

Lemma eol_fail (st : MState) (k : cont) :
  (rest st = "" ∨ ∃ a s, rest st = String a s ∧ Char.isDot a = true) →
  rmatch flag_m eol st k = None.
Proof.
  intros [H|(a & s & H & Ha)]; unfold eol; cbn [rmatch]; rewrite H;
    [reflexivity|].
  cbn [Char.same ignoreCase flag_m].
  unfold Char.isDot, Char.isLineTerminator in Ha.
  apply negb_true_iff, orb_false_elim in Ha as [Hlf Hcr].
  change Char.CR with "013"%char in *. change Char.LF with "010"%char in *.
  rewrite Hcr, Hlf. reflexivity.
Qed.

Lemma line_take (c e r : string) (st : MState) (k : cont) :
  c ≠ "" → Spec.all Char.isDot c = true → Spec.is_eol e →
  rest st = c +:+ e +:+ r →
  rmatch flag_m line st k = k (feed (c +:+ e) st).
Proof.
  intros Hc Hall He Hrest. destruct c as [|a c]; [congruence|].
  cbn in Hall. apply andb_prop in Hall as [Ha Hall].
  rewrite append_cons in Hrest.
  unfold line, Plus. cbn [rmatch]. fold (rmatch flag_m eol).
  unfold dot at 1. rewrite (rmatch_cls flag_m _ _ _ _ _ Hrest), Ha.
  unfold dot.
  rewrite (star_cls_run flag_m Char.isDot c (e +:+ r)); try assumption.
  - rewrite (eol_take e r) by
      (try assumption; apply feed_rest; reflexivity).
    rewrite append_cons, (feed_cons _ _ _ _ Hrest), feed_app. reflexivity.
  - reflexivity.
  - apply eol_starts_outside. exact He.
  - lia.
  - intros st' a' s' Hr' Ha'. apply eol_fail. right. eauto.
Qed.

Lemma line_fail (st : MState) (k : cont) :
  starts_outside Char.isDot (rest st) → rmatch flag_m line st k = None.
Proof.
  intros [H|(a & s & H & Ha)]; unfold line, Plus; cbn [rmatch];
    unfold dot at 1.
  - apply rmatch_cls_nil. exact H.
  - rewrite (rmatch_cls flag_m _ _ _ _ _ H), Ha. reflexivity.
Qed.

Lemma lines_nonempty_head (c e h : string) :
  Spec.is_eol e → c +:+ e +:+ h ≠ "".
Proof. intros [->| ->]; destruct c; discriminate. Qed.

(** The greedy repetition of [line] takes a whole run of lines when the
    continuation accepts after it. *)
Lemma lines_star (h : string) :
  Spec.lines Spec.empty h →
  ∀ (r : string) (fuel : nat) (st : MState) (k : cont) (x : MState),
    rest st = h +:+ r →
    starts_outside Char.isDot r →
    String.length (rest st) < fuel →
    k (feed h st) = Some x →
    star_loop (rmatch flag_m line) true fuel st k = Some x.
Proof.
  induction 1 as [|c e h Hall Hc He Hl IH];
    intros r fuel st k x Hrest Hr Hfuel Hk.
  - rewrite append_nil_l in Hrest. cbn [feed] in Hk.
    destruct fuel as [|fuel]; [exact Hk|]. cbn [star_loop].
    rewrite line_fail by (rewrite Hrest; exact Hr). exact Hk.
  - destruct fuel as [|fuel]; [lia|].
    assert (Hne : c ≠ "") by (destruct c; [discriminate Hc | discriminate]).
    rewrite !append_assoc in Hrest.
    cbn [star_loop].
    rewrite (line_take c e (h +:+ r) st _ Hne Hall He Hrest).
    rewrite <- append_assoc in Hrest.
    rewrite (progressed_feed _ _ _ Hrest)
      by (destruct c; [congruence | discriminate]).
    rewrite (IH r fuel (feed (c +:+ e) st) k x); [reflexivity | | exact Hr | |].
    + apply feed_rest. exact Hrest.
    + rewrite (feed_rest _ _ _ Hrest). rewrite Hrest in Hfuel.
      rewrite !length_append in *.
      destruct c; [congruence|]. cbn [String.length] in Hfuel. lia.
    + rewrite <- feed_app, append_assoc. exact Hk.
Qed.

Lemma span (p : ascii → bool) (b : string) :
  ∃ u r, b = u +:+ r ∧ Spec.all p u = true ∧ starts_outside p r.
Proof.
  induction b as [|a b (u & r & -> & Hu & Hr)].
  - exists "", "". repeat split. left. reflexivity.
  - destruct (p a) eqn:Ha.
    + exists (String a u), r. repeat split; [|exact Hr].
      cbn. rewrite Ha, Hu. reflexivity.
    + exists "", (String a (u +:+ r)). repeat split.
      right. eauto.
Qed.

Lemma all_app (p : ascii → bool) (a b : string) :
  Spec.all p (a +:+ b) = Spec.all p a && Spec.all p b.
Proof.
  induction a as [|x a IH]; [reflexivity|].
  rewrite append_cons. cbn [Spec.all]. rewrite IH, andb_assoc. reflexivity.
Qed.

Lemma ends_in_whitespace_suffix (a b : string) :
  Spec.ends_in_whitespace (a +:+ b) = true →
  Spec.ends_in_whitespace b = true.
Proof.
  induction a as [|x a IH]; [auto|].
  rewrite append_cons. destruct b as [|y b]; [reflexivity|].
  intros H. apply IH. cbn [Spec.ends_in_whitespace] in H.
  destruct (a +:+ String y b) eqn:E; [|exact H].
  destruct a; discriminate E.
Qed.

Lemma ends_in_whitespace_last (u : string) :
  u ≠ "" → Spec.ends_in_whitespace u = true →
  ∃ u0 w0, u = u0 +:+ String w0 "" ∧ Char.isWhiteSpace w0 = true.
Proof.
  induction u as [|a u IH]; [congruence|]. intros _ H.
  destruct u as [|a' u].
  - exists "", a. split; [reflexivity | exact H].
  - destruct IH as (u0 & w0 & E & Hw); [discriminate | exact H |].
    exists (String a u0), w0. rewrite append_cons, <- E. auto.
Qed.

Lemma line_terminator_whitespace (t : ascii) :
  Char.isDot t = false → Char.isWhiteSpace t = true.
Proof. destruct t as [[] [] [] [] [] [] [] []]; vm_compute; congruence. Qed.

Lemma ws_plus_take (w r : string) (st : MState) (k : cont) (x : MState) :
  w ≠ "" → Spec.all Char.isWhiteSpace w = true →
  rest st = w +:+ r → starts_outside Char.isWhiteSpace r →
  k (feed w st) = Some x →
  rmatch flag_m (Plus ws) st k = Some x.
Proof.
  intros Hw Hall Hrest Hr Hk. destruct w as [|a w]; [congruence|].
  cbn in Hall. apply andb_prop in Hall as [Ha Hall].
  rewrite append_cons in Hrest.
  unfold Plus. cbn [rmatch]. unfold ws at 1.
  rewrite (rmatch_cls flag_m _ _ _ _ _ Hrest), Ha. unfold ws.
  apply (star_cls_greedy flag_m Char.isWhiteSpace w r); try assumption.
  - reflexivity.
  - lia.
  - rewrite <- (feed_cons _ _ _ _ Hrest). exact Hk.
Qed.

Lemma ws_plus_fail (st : MState) (k : cont) :
  starts_outside Char.isWhiteSpace (rest st) →
  rmatch flag_m (Plus ws) st k = None.
Proof.
  intros [H|(a & s & H & Ha)]; unfold Plus; cbn [rmatch]; unfold ws at 1.
  - apply rmatch_cls_nil. exact H.
  - rewrite (rmatch_cls flag_m _ _ _ _ _ H), Ha. reflexivity.
Qed.

(** One stretch [.*\s+] that ends a line: the run up to the line
    terminator, then all the whitespace that follows. *)
Lemma body_part_line (u w r : string) (st : MState) (k : cont) (x : MState) :
  Spec.all Char.isDot u = true →
  starts_outside Char.isDot w → w ≠ "" →
  Spec.all Char.isWhiteSpace w = true →
  starts_outside Char.isWhiteSpace r →
  rest st = u +:+ w +:+ r →
  k (feed (u +:+ w) st) = Some x →
  rmatch flag_m body_part st k = Some x.
Proof.
  intros Hu Hw0 Hw Hall Hr Hrest Hk.
  unfold body_part, any. cbn [rmatch]. fold (rmatch flag_m (Plus ws)).
  unfold dot.
  apply (star_cls_greedy flag_m Char.isDot u (w +:+ r)); try assumption.
  - destruct Hw0 as [->|(a & w' & -> & Ha)]; [congruence|].
    right. rewrite append_cons. eauto.
  - lia.
  - apply (ws_plus_take w r); try assumption.
    + apply feed_rest. exact Hrest.
    + rewrite <- feed_app. exact Hk.
Qed.





Lemma is_eol_nonempty (e : string) : Spec.is_eol e → e ≠ "".
Proof. intros [->| ->]; discriminate. Qed.


End HeaderBody.

Section NoBoundary.
Import Regex Patterns Scan.

Lemma count_cons_zero (c a : ascii) (s : string) :
  Spec.count c (String a s) = 0 → a ≠ c ∧ Spec.count c s = 0.
Proof.
  cbn. destruct (Ascii.eqb_spec a c) as [->|Hne]; [discriminate|].
  intros H. split; [exact Hne | exact H].
Qed.



Lemma reach_chr_inv (fl : flags) (c : ascii) (st st' : MState) :
  reach fl (Chr c) st st' →
  ∃ a s, rest st = String a s ∧ Char.same (ignoreCase fl) a c = true
         ∧ st' = advance a s st.
Proof. inversion 1; subst. eauto. Qed.






End NoBoundary.




(** ** The fuel of the loops is enough

    The repetition and the global replacement recurse on a counter that
    starts above the length of the remaining input; any larger counter
    gives the same result, so the counter never runs out. *)

Section Fuel.
Import Regex.
Variable fl : flags.

Lemma star_loop_ext (m : MState → cont → option MState) (g : bool) :
  (∀ st k1 k2, (∀ st', k1 st' = k2 st') → m st k1 = m st k2) →
  ∀ fuel st k1 k2,
    (∀ st', k1 st' = k2 st') →
    star_loop m g fuel st k1 = star_loop m g fuel st k2.
Proof.
  intros Hm. induction fuel as [|fuel IH]; intros st k1 k2 Hk; cbn [star_loop].
  - apply Hk.
  - rewrite (Hk st).
    rewrite (Hm st _ (fun st' => if progressed st st'
                                 then star_loop m g fuel st' k2 else None)).
    + reflexivity.
    + intros st'. destruct (progressed st st'); [apply IH; exact Hk | reflexivity].
Qed.

Lemma rmatch_ext (r : regex) :
  ∀ st k1 k2, (∀ st', k1 st' = k2 st') → rmatch fl r st k1 = rmatch fl r st k2.
Proof.
  induction r as [|c|p| |r1 IH1 r2 IH2|r IH|g r IH|n r IH];
    intros st k1 k2 Hk; cbn [rmatch].
  - apply Hk.
  - destruct (rest st); [reflexivity|]. rewrite Hk. reflexivity.
  - destruct (rest st); [reflexivity|]. rewrite Hk. reflexivity.
  - rewrite Hk. reflexivity.
  - apply IH1. intros st'. apply IH2. exact Hk.
  - rewrite (Hk st).
    rewrite (IH st _ (fun st' => if progressed st st' then k2 st' else None)).
    + reflexivity.
    + intros st'. rewrite Hk. reflexivity.
  - apply star_loop_ext; assumption.
  - apply IH. intros st'. apply Hk.
Qed.

Lemma star_loop_fuel (r : regex) (g : bool) (f1 : nat) :
  ∀ (f2 : nat) (st : MState) (k : cont),
    String.length (rest st) < f1 → String.length (rest st) < f2 →
    star_loop (rmatch fl r) g f1 st k = star_loop (rmatch fl r) g f2 st k.
Proof.
  induction f1 as [|f1 IH]; intros f2 st k H1 H2; [lia|].
  destruct f2 as [|f2]; [lia|]. cbn [star_loop].
  rewrite (rmatch_ext r st _
             (fun st' => if progressed st st'
                         then star_loop (rmatch fl r) g f2 st' k else None)).
  - reflexivity.
  - intros st'. unfold progressed.
    destruct (Nat.ltb_spec (String.length (rest st')) (String.length (rest st)));
      [apply IH; lia | reflexivity].
Qed.

(** Any counter above the length of the input runs the repetition as the
    matcher does. *)
Lemma star_fuel_enough (r : regex) (g : bool) (fuel : nat) (st : MState)
    (k : cont) :
  String.length (rest st) < fuel →
  star_loop (rmatch fl r) g fuel st k = rmatch fl (Star g r) st k.
Proof. intros H. cbn [rmatch]. apply star_loop_fuel; lia. Qed.

Lemma reach_length (r : regex) (st st' : MState) :
  reach fl r st st' →
  pos st' + String.length (rest st') = pos st + String.length (rest st)
  ∧ String.length (rest st') ≤ String.length (rest st).
Proof.
  induction 1 as [ | ? a s st Hr _ | ? a s st Hr _ | | | | | | | ];
    try (split; [reflexivity | lia]); try lia;
    try (rewrite Hr; cbn [pos rest advance String.length]; lia).
  - cbn [pos rest set_cap]. assumption.
Qed.

Lemma exec_from_shrinks (r : regex) (s : string) :
  ∀ (p : option ascii) (i start : nat) (res : MState),
    exec_from fl r p s i = Some (start, res) →
    String.length (rest res) ≤ String.length s
    ∧ (pos res ≠ start → String.length (rest res) < String.length s).
Proof.
  induction s as [|c s IH]; intros p i start res H; cbn [exec_from] in H;
    destruct (rmatch fl r _ Some) as [res'|] eqn:E.
  - injection H as <- <-. apply rmatch_sound in E as (st' & R & [= <-]).
    apply reach_length in R. cbn [pos rest] in R. lia.
  - discriminate.
  - injection H as <- <-. apply rmatch_sound in E as (st' & R & [= <-]).
    apply reach_length in R. cbn [pos rest] in R. lia.
  - apply IH in H. cbn [String.length]. lia.
Qed.

(** Any counter above the length of the input runs the global replacement
    to its end. *)
Lemma replace_loop_fuel (r : regex) (f : MatchInfo → string) (input : string)
    (f1 : nat) :
  ∀ (f2 : nat) (p : option ascii) (s : string) (i : nat),
    String.length s < f1 → String.length s < f2 →
    replace_loop fl r f input f1 p s i = replace_loop fl r f input f2 p s i.
Proof.
  induction f1 as [|f1 IH]; intros f2 p s i H1 H2; [lia|].
  destruct f2 as [|f2]; [lia|]. cbn [replace_loop].
  destruct (exec_from fl r p s i) as [[start res]|] eqn:E; [|reflexivity].
  apply exec_from_shrinks in E as [Hle Hlt].
  destruct (Nat.eqb_spec (pos res) start) as [Heq|Hne].
  - destruct (rest res) as [|c s'] eqn:Er; [reflexivity|].
    cbn [String.length] in Hle. rewrite (IH f2) by lia. reflexivity.
  - specialize (Hlt Hne). rewrite (IH f2) by lia. reflexivity.
Qed.

End Fuel.

(** * Further properties of the stages *)

(** ** The recipient transformer *)

Section Transformer.
Import Scan.

Lemma transform_one_ok (env : Env) (t : gmap string (list string))
    (r : string) (acc acc1 : list string) (s s1 : St) :
  FORWARD_MAPPING env = Table t →
  transform_one env r acc s = (s1, Ok acc1) →
  acc1 = acc ++ default [] (Spec.first_rule t (Spec.rule_keys (normalize r)))
  ∧ trace s1 = trace s.
Proof.
  intros Hm H1. rewrite (transform_one_first_hit env t _ _ _ Hm) in H1.
  apply first_hit_ok in H1.
  destruct (Spec.first_rule t _) as [dests|]; injection H1 as -> ->.
  - split; reflexivity.
  - cbn. rewrite app_nil_r. split; reflexivity.
Qed.

Lemma transform_loop_destinations (env : Env) (t : gmap string (list string))
    (rs : list string) :
  FORWARD_MAPPING env = Table t →
  ∀ (acc acc' : list string) (s s' : St),
    transform_loop env rs acc s = (s', Ok acc') →
    acc' = acc ++ Extra.destinations t rs ∧ trace s' = trace s.
Proof.
  intros Hm. induction rs as [|r rs IH]; intros acc acc' s s' Hloop.
  - cbn in Hloop. injection Hloop as <- <-. cbn. rewrite app_nil_r.
    split; reflexivity.
  - cbn [transform_loop] in Hloop. unfold bind in Hloop.
    destruct (transform_one env r acc s) as [s1 [acc1|e]] eqn:H1;
      [|discriminate].
    apply (transform_one_ok env t _ _ _ _ _ Hm) in H1 as [-> Ht1].
    apply IH in Hloop as [-> Ht]. split; [|congruence].
    unfold Extra.destinations. cbn [flat_map]. rewrite app_assoc.
    reflexivity.
Qed.

Lemma transform_one_frame (env : Env) (r : string) (acc : list string)
    (s : St) :
  ∃ o, ctx (fst (transform_one env r acc s)) = set_originalRecipient o (ctx s).
Proof.
  assert (Hid : ∃ o, ctx s = set_originalRecipient o (ctx s))
    by (exists (originalRecipient (ctx s)); destruct (ctx s); reflexivity).
  destruct (FORWARD_MAPPING env) as [|t] eqn:Hm.
  - unfold transform_one, bind, parse_mapping. rewrite Hm. exact Hid.
  - rewrite (transform_one_first_hit env t _ _ _ Hm).
    destruct (first_hit t _) as [k|]; [|exact Hid].
    unfold take_rule. destruct (t !! k); [|exact Hid].
    eexists. reflexivity.
Qed.

(** What the loop leaves of the context: only the envelope sender may
    have changed. *)
Lemma transform_loop_frame (env : Env) (rs : list string) :
  ∀ (acc : list string) (s : St),
    ∃ o, ctx (fst (transform_loop env rs acc s))
         = set_originalRecipient o (ctx s).
Proof.
  induction rs as [|r rs IH]; intros acc s.
  - cbn [transform_loop]. unfold ret. cbn [fst].
    exists (originalRecipient (ctx s)). destruct (ctx s). reflexivity.
  - cbn [transform_loop]. unfold bind.
    destruct (transform_one_frame env r acc s) as [o1 H1].
    destruct (transform_one env r acc s) as [s1 [acc1|e]]; cbn [fst] in H1.
    + destruct (IH acc1 s1) as [o2 H2]. exists o2. rewrite H2, H1.
      reflexivity.
    + exists o1. exact H1.
Qed.

End Transformer.

(** X1. When the transformer returns with a parsed table, the destinations
    are, for each original recipient in order, those of its first rule,
    duplicates included.  If there is at least one, they become the
    current recipients and the stage returns the context; if there is none,
    the current recipients stay, the stage logs, signals success and
    returns what the callback returned. *)
Theorem transformRecipients_destinations (env : Env)
    (t : gmap string (list string)) (s s' : St) (v : JsVal) :
  FORWARD_MAPPING env = Table t →
  transformRecipients env s = (s', Ok v) →
  let dests := Extra.destinations t (default [] (recipients (ctx s))) in
  match dests with
  | [] =>
      recipients (ctx s') = recipients (ctx s)
      ∧ v = callback_result env None
      ∧ trace s'
        = trace s
            ++ [Log "info"
                  ("Finishing process. No new recipients found for original destinations: "
                     +:+ show_list (recipients (ctx s)));
                Callback None]
  | _ :: _ =>
      recipients (ctx s') = Some dests
      ∧ v = JObject (ctx s')
      ∧ trace s' = trace s
  end.
Proof.
  intros Hm Hrun dests.
  destruct (transform_loop env (default [] (recipients (ctx s))) []
              (mkSt (set_originalRecipients (recipients (ctx s)) (ctx s))
                 (trace s))) as [s1 [acc|e]] eqn:Hloop.
  - pose proof (transform_loop_destinations env t _ Hm _ _ _ _ Hloop)
      as [Hacc Htr].
    cbn [app] in Hacc. fold dests in Hacc. subst acc.
    destruct (transform_loop_frame env (default [] (recipients (ctx s))) []
                (mkSt (set_originalRecipients (recipients (ctx s)) (ctx s))
                   (trace s))) as [o Hf].
    rewrite Hloop in Hf. cbn [fst ctx] in Hf.
    destruct dests as [|x l].
    + rewrite (transformRecipients_empty _ _ _ Hloop) in Hrun.
      injection Hrun as <- <-. cbn [ctx trace]. rewrite Hf, Htr.
      cbn [trace]. repeat split; reflexivity.
    + rewrite (transformRecipients_nonempty _ _ _ _ _ Hloop) in Hrun.
      injection Hrun as <- <-. cbn [ctx trace]. rewrite Htr.
      repeat split; reflexivity.
  - rewrite (transformRecipients_throw _ _ _ _ Hloop) in Hrun.
    discriminate Hrun.
Qed.

Lemma transformRecipients_destinations_witness :
  recipients
    (ctx (fst (transformRecipients (Examples.env (Table Examples.alice))
                 (Examples.with_recipients
                    ["bob@example.com"; "Alice+x@example.com"; "bob@example.com"]))))
  = Some ["domain@dest.com"; "a1@dest.com"; "a2@dest.com"; "domain@dest.com"].
Proof.
  pose proof (transformRecipients_destinations
                (Examples.env (Table Examples.alice)) Examples.alice
                (Examples.with_recipients
                   ["bob@example.com"; "Alice+x@example.com"; "bob@example.com"])
                (fst (transformRecipients (Examples.env (Table Examples.alice))
                        (Examples.with_recipients
                           ["bob@example.com"; "Alice+x@example.com";
                            "bob@example.com"])))
                (JObject
                   (ctx (fst (transformRecipients
                                (Examples.env (Table Examples.alice))
                                (Examples.with_recipients
                                   ["bob@example.com"; "Alice+x@example.com";
                                    "bob@example.com"])))))
                eq_refl) as H.
  vm_compute in H. vm_compute. exact (proj1 (H eq_refl)).
Defined.

(** X2. Whatever the outcome of the transformer, the original recipients
    recorded in the context are the recipients it was called with, and the
    notification, the override address, the mail metadata and the raw
    message are untouched; when it raises, the current recipients are
    untouched as well. *)
Theorem transformRecipients_frame (env : Env) (s : St) :
  let s' := fst (transformRecipients env s) in
  originalRecipients (ctx s') = recipients (ctx s)
  ∧ event (ctx s') = event (ctx s)
  ∧ toEmail (ctx s') = toEmail (ctx s)
  ∧ email (ctx s') = email (ctx s)
  ∧ emailData (ctx s') = emailData (ctx s)
  ∧ (∀ e, snd (transformRecipients env s) = Throw e →
          recipients (ctx s') = recipients (ctx s)).
Proof.
  intros s'. subst s'.
  destruct (transform_loop_frame env (default [] (recipients (ctx s))) []
              (mkSt (set_originalRecipients (recipients (ctx s)) (ctx s))
                 (trace s))) as [o Hf].
  destruct (transform_loop env (default [] (recipients (ctx s))) []
              (mkSt (set_originalRecipients (recipients (ctx s)) (ctx s))
                 (trace s))) as [s1 [[|x l]|e]] eqn:Hloop; cbn [fst] in Hf.
  - rewrite (transformRecipients_empty _ _ _ Hloop). cbn [fst snd ctx].
    rewrite Hf. repeat split; reflexivity.
  - rewrite (transformRecipients_nonempty _ _ _ _ _ Hloop). cbn [fst snd ctx].
    rewrite Hf. repeat split; try reflexivity. discriminate.
  - rewrite (transformRecipients_throw _ _ _ _ Hloop). cbn [fst snd ctx].
    rewrite Hf. repeat split; reflexivity.
Qed.

Lemma transformRecipients_frame_witness :
  let s := Examples.with_recipients ["constructor@x.com"] in
  recipients (ctx (fst (transformRecipients
                          (Examples.env (Table Examples.catch_all)) s)))
  = Some ["constructor@x.com"].
Proof.
  intros s.
  apply (proj2 (proj2 (proj2 (proj2 (proj2
           (transformRecipients_frame
              (Examples.env (Table Examples.catch_all)) s)))))
           not_iterable).
  vm_compute. reflexivity.
Defined.

Section Inherited.

Lemma count_app (c : ascii) (a b : string) :
  Spec.count c (a +:+ b) = Spec.count c a + Spec.count c b.
Proof.
  induction a as [|x a IH]; [reflexivity|].
  rewrite append_cons. cbn [Spec.count]. rewrite IH. lia.
Qed.

Lemma prototype_name_plain (k : string) :
  k ∈ Object_prototype → Spec.count "@" k = 0 ∧ k ≠ "".
Proof.
  unfold Object_prototype. intros H.
  repeat (apply elem_of_cons in H as [->|H];
          [split; [reflexivity | discriminate]|]).
  apply elem_of_nil in H. destruct H.
Qed.

Lemma has_property_none (t : gmap string (list string)) (k : string) :
  t !! k = None → 0 < Spec.count "@" k → has_property k t = false.
Proof.
  intros Hk Hc. unfold has_property.
  rewrite bool_decide_eq_false_2 by (rewrite Hk; intros [? ?]; discriminate).
  rewrite bool_decide_eq_false_2; [reflexivity|].
  intros Hin. apply prototype_name_plain in Hin as [H0 _]. lia.
Qed.

Lemma has_property_inherited (t : gmap string (list string)) (k : string) :
  k ∈ Object_prototype → has_property k t = true.
Proof.
  intros Hin. unfold has_property.
  rewrite (bool_decide_eq_true_2 (k ∈ Object_prototype)) by exact Hin.
  apply orb_true_r.
Qed.

Lemma lower_split (a b : string) :
  Str.toLowerCase (a +:+ b) = a +:+ b →
  Str.toLowerCase a = a ∧ Str.toLowerCase b = b.
Proof.
  induction a as [|x a IH]; [intros H; split; [reflexivity | exact H]|].
  rewrite append_cons. intros H. apply lower_cons in H as [Hx H].
  destruct (IH H) as [Ha Hb]. split; [|exact Hb].
  cbn [Str.toLowerCase]. rewrite Hx, Ha. reflexivity.
Qed.

Lemma normalize_lower_case (address : string) :
  Str.toLowerCase (normalize address) = normalize address.
Proof. rewrite normalize_strip_tag. apply strip_tag_lower, lower_idem. Qed.

(** Of the inherited names only two are in lower case. *)
Lemma prototype_name_lower (k : string) :
  k ∈ Object_prototype → Str.toLowerCase k = k →
  k = "constructor" ∨ k = "__proto__".
Proof.
  unfold Object_prototype. intros H Hlow.
  repeat (apply elem_of_cons in H as [->|H];
          [first [left; reflexivity | right; reflexivity
                 | vm_compute in Hlow; discriminate Hlow]|]).
  apply elem_of_nil in H. destruct H.
Qed.

End Inherited.

(** X3. The lookup key is in lower case, so of the property names that
    every object inherits only [constructor] and [__proto__] can be the
    local-part the rules try (a name with a capital, such as [toString],
    is looked up as [tostring] and is not inherited).  A recipient whose
    local-part is one of the two and for which the table has neither the
    full address, nor the domain, nor that local-part as a key, makes the
    transformer raise a [TypeError] at that recipient, with the context
    and the destinations so far left as they were; a catch-all entry is
    not consulted. *)
Theorem inherited_local_part_raises (env : Env) (t : gmap string (list string))
    (origEmail l d : string) (acc : list string) (s : St) :
  FORWARD_MAPPING env = Table t →
  Spec.split_last_at (normalize origEmail) = Some (l, d) →
  l ∈ Object_prototype →
  t !! normalize origEmail = None →
  t !! d = None →
  t !! l = None →
  (l = "constructor" ∨ l = "__proto__")
  ∧ transform_one env origEmail acc s = (s, Throw not_iterable).
Proof.
  intros Hm Hsplit Hl Hkey Hd Hlo.
  pose proof (split_last_at_spec _ _ _ Hsplit) as (Hk & d' & Hd' & _).
  split.
  { apply prototype_name_lower; [exact Hl|].
    pose proof (normalize_lower_case origEmail) as Hlow.
    rewrite Hk in Hlow. apply lower_split in Hlow as [Hlow _]. exact Hlow. }
  rewrite (transform_one_first_hit env t _ _ _ Hm).
  unfold Spec.rule_keys. rewrite Hsplit.
  pose proof (prototype_name_plain _ Hl) as [_ Hne].
  assert (Hcd : 0 < Spec.count "@" d) by (rewrite Hd'; cbn; lia).
  assert (Hck : 0 < Spec.count "@" (normalize origEmail))
    by (rewrite Hk, count_app; lia).
  destruct l as [|a l]; [congruence|].
  cbn [Scan.first_hit].
  rewrite (has_property_none _ _ Hkey Hck), (has_property_none _ _ Hd Hcd).
  rewrite (has_property_inherited _ _ Hl).
  unfold take_rule. rewrite Hlo. reflexivity.
Qed.

Lemma inherited_local_part_raises_witness :
  (("constructor" = "constructor" ∨ "constructor" = "__proto__")
   ∧ transform_one (Examples.env (Table Examples.catch_all))
       "Constructor@x.com" ["kept@dest.com"] (Examples.with_recipients [])
     = (Examples.with_recipients [], Throw not_iterable))
  ∧ snd (transform_one (Examples.env (Table Examples.catch_all))
           "toString@x.com" ["kept@dest.com"] (Examples.with_recipients []))
    = Ok ["kept@dest.com"; "catchall@dest.com"].
Proof.
  split; [|vm_compute; reflexivity].
  apply (inherited_local_part_raises (Examples.env (Table Examples.catch_all))
           Examples.catch_all "Constructor@x.com" "constructor" "@x.com").
  - reflexivity.
  - vm_compute. reflexivity.
  - unfold Object_prototype. apply elem_of_cons. left. reflexivity.
  - vm_compute. reflexivity.
  - vm_compute. reflexivity.
  - vm_compute. reflexivity.
Defined.

(** ** Normalization and plus-addressing *)

Section PlusAddress.
Import Scan.

Lemma lower_char_plus (c : ascii) :
  Ascii.eqb (Char.toLowerCase c) "+" = Ascii.eqb c "+".
Proof. destruct c as [[] [] [] [] [] [] [] []]; reflexivity. Qed.

Lemma lower_char_dot (c : ascii) :
  Char.isDot (Char.toLowerCase c) = Char.isDot c.
Proof. destruct c as [[] [] [] [] [] [] [] []]; reflexivity. Qed.

Lemma lower_app (a b : string) :
  Str.toLowerCase (a +:+ b) = Str.toLowerCase a +:+ Str.toLowerCase b.
Proof.
  induction a as [|x a IH]; [reflexivity|].
  rewrite append_cons. cbn [Str.toLowerCase]. rewrite IH, append_cons.
  reflexivity.
Qed.

Lemma count_plus_lower (s : string) :
  Spec.count "+" (Str.toLowerCase s) = Spec.count "+" s.
Proof.
  induction s as [|c s IH]; cbn; [reflexivity|].
  rewrite lower_char_plus, IH. reflexivity.
Qed.

Lemma all_dot_lower (s : string) :
  Spec.all Char.isDot (Str.toLowerCase s) = Spec.all Char.isDot s.
Proof.
  induction s as [|c s IH]; cbn; [reflexivity|].
  rewrite lower_char_dot, IH. reflexivity.
Qed.

Lemma strip_tag_skip (a b : string) :
  Spec.count "+" a = 0 → strip_tag (a +:+ b) = a +:+ strip_tag b.
Proof.
  induction a as [|x a IH]; [reflexivity|]. intros H.
  apply count_cons_zero in H as [Hx Ha].
  rewrite !append_cons. cbn [strip_tag].
  rewrite (proj2 (Ascii.eqb_neq _ _) Hx), (IH Ha). reflexivity.
Qed.

Lemma find_at_tag (tag d : string) :
  Spec.all Char.isDot tag = true → Spec.count "@" tag = 0 →
  find_at (tag +:+ String "@" d) = Some d.
Proof.
  induction tag as [|x tag IH]; intros Hd Hc.
  - reflexivity.
  - cbn in Hd. apply andb_prop in Hd as [Hx Hd].
    apply count_cons_zero in Hc as [Hne Hc].
    rewrite append_cons. cbn [find_at].
    rewrite (proj2 (Ascii.eqb_neq _ _) Hne), Hx. auto.
Qed.

Lemma normalize_tagged (l tag d : string) :
  Spec.count "+" l = 0 →
  Spec.all Char.isDot tag = true → Spec.count "@" tag = 0 →
  normalize (l +:+ "+" +:+ tag +:+ "@" +:+ d)
  = Str.toLowerCase l +:+ "@" +:+ Str.toLowerCase d.
Proof.
  intros Hl Hd Hc. rewrite normalize_strip_tag, !lower_app.
  rewrite strip_tag_skip by (rewrite count_plus_lower; exact Hl).
  change (Str.toLowerCase "+") with "+". change (Str.toLowerCase "@") with "@".
  rewrite !append_cons, !append_nil_l. cbn [strip_tag].
  change (Ascii.eqb "+" "+") with true. cbv iota.
  rewrite find_at_tag;
    [reflexivity | rewrite all_dot_lower; exact Hd
     | rewrite count_at_lower; exact Hc].
Qed.

Lemma normalize_plain (l d : string) :
  Spec.count "+" l = 0 → Spec.count "@" d = 0 →
  normalize (l +:+ "@" +:+ d)
  = Str.toLowerCase l +:+ "@" +:+ Str.toLowerCase d.
Proof.
  intros Hl Hd. rewrite normalize_strip_tag, !lower_app.
  rewrite strip_tag_skip by (rewrite count_plus_lower; exact Hl).
  change (Str.toLowerCase "@") with "@".
  rewrite !append_cons, !append_nil_l. cbn [strip_tag].
  change (Ascii.eqb "@" "+") with false. cbv iota.
  rewrite strip_tag_no_at by (rewrite count_at_lower; exact Hd).
  reflexivity.
Qed.

(** Recipients with the same normalized address resolve alike. *)
Lemma transform_one_same_key (env : Env) (a b : string) (acc : list string)
    (s : St) :
  normalize a = normalize b →
  snd (transform_one env a acc s) = snd (transform_one env b acc s)
  ∧ trace (fst (transform_one env a acc s))
    = trace (fst (transform_one env b acc s)).
Proof.
  intros H. destruct (FORWARD_MAPPING env) as [|t] eqn:Hm.
  - unfold transform_one, bind, parse_mapping. rewrite Hm. split; reflexivity.
  - rewrite !(transform_one_first_hit env t _ _ _ Hm), H.
    destruct (first_hit t _) as [k|]; [|split; reflexivity].
    unfold take_rule. destruct (t !! k); split; reflexivity.
Qed.

End PlusAddress.

(** X4. For an address whose part before the first [+] holds no [+], whose
    tag (the text between that [+] and the next [@]) holds no [@] and no
    line terminator, normalization removes the tag and lower-cases the
    rest; an address without any [+] is only lower-cased. *)
Theorem normalize_removes_tag (l tag d : string) :
  Spec.count "+" l = 0 →
  Spec.all Char.isDot tag = true →
  Spec.count "@" tag = 0 →
  normalize (l +:+ "+" +:+ tag +:+ "@" +:+ d)
  = Str.toLowerCase l +:+ "@" +:+ Str.toLowerCase d
  ∧ normalize l = Str.toLowerCase l.
Proof.
  intros Hl Hd Hc. split; [apply normalize_tagged; assumption|].
  rewrite normalize_strip_tag.
  rewrite <- (append_nil_r (Str.toLowerCase l)) at 1.
  rewrite strip_tag_skip by (rewrite count_plus_lower; exact Hl).
  apply append_nil_r.
Qed.

Lemma normalize_removes_tag_witness :
  normalize ("Sales.Team" +:+ "+" +:+ "Q3 offers" +:+ "@" +:+ "Example.COM")
  = "sales.team@example.com".
Proof.
  apply (normalize_removes_tag "Sales.Team" "Q3 offers" "Example.COM");
    reflexivity.
Defined.

Section DeadKeys.
Import Scan.

Lemma rule_keys_lower (key k : string) :
  Str.toLowerCase key = key → k ∈ Spec.rule_keys key →
  Str.toLowerCase k = k.
Proof.
  intros Hkey. unfold Spec.rule_keys.
  destruct (Spec.split_last_at key) as [[l d]|] eqn:Hs.
  - apply split_last_at_spec in Hs as [Hk _].
    pose proof Hkey as Hsplit. rewrite Hk in Hsplit.
    apply lower_split in Hsplit as [Hl Hd].
    destruct l as [|a l]; intros Hin;
      repeat (apply elem_of_cons in Hin as [->|Hin]; [assumption || reflexivity|]);
      apply elem_of_nil in Hin; destruct Hin.
  - intros Hin.
    repeat (apply elem_of_cons in Hin as [->|Hin]; [assumption || reflexivity|]).
    apply elem_of_nil in Hin. destruct Hin.
Qed.

Lemma has_property_insert_ne (t : gmap string (list string)) (k k' : string)
    (v : list string) :
  k ≠ k' → has_property k' (<[k:=v]> t) = has_property k' t.
Proof.
  intros H. unfold has_property. rewrite lookup_insert_ne by exact H.
  reflexivity.
Qed.

Lemma first_hit_insert (t : gmap string (list string)) (k : string)
    (v : list string) (keys : list string) :
  (∀ k', k' ∈ keys → k ≠ k') →
  first_hit (<[k:=v]> t) keys = first_hit t keys.
Proof.
  induction keys as [|k' keys IH]; intros H; [reflexivity|].
  cbn [first_hit].
  rewrite has_property_insert_ne by (apply H, list_elem_of_here).
  rewrite IH by (intros k'' Hin; apply H, list_elem_of_further, Hin).
  reflexivity.
Qed.

Lemma first_hit_in (t : gmap string (list string)) (keys : list string)
    (k : string) :
  first_hit t keys = Some k → k ∈ keys.
Proof.
  induction keys as [|k' keys IH]; cbn [first_hit]; [discriminate|].
  destruct (has_property k' t).
  - intros [= ->]. apply list_elem_of_here.
  - intros H. apply list_elem_of_further, IH, H.
Qed.

(** An entry under a key that is not in lower case is never looked up. *)
Lemma transform_one_dead_key (env env' : Env) (t : gmap string (list string))
    (k : string) (v : list string) (origEmail : string) (acc : list string)
    (s : St) :
  FORWARD_MAPPING env = Table t →
  FORWARD_MAPPING env' = Table (<[k:=v]> t) →
  Str.toLowerCase k ≠ k →
  transform_one env' origEmail acc s = transform_one env origEmail acc s.
Proof.
  intros Hm Hm' Hk.
  rewrite (transform_one_first_hit env' _ _ _ _ Hm').
  rewrite (transform_one_first_hit env t _ _ _ Hm).
  assert (Hne : ∀ k', k' ∈ Spec.rule_keys (normalize origEmail) → k ≠ k').
  { intros k' Hin ->. apply Hk.
    apply (rule_keys_lower _ _ (normalize_lower_case origEmail) Hin). }
  rewrite first_hit_insert by exact Hne.
  destruct (first_hit t _) as [k'|] eqn:Hf; [|reflexivity].
  unfold take_rule.
  rewrite lookup_insert_ne by (apply Hne, (first_hit_in _ _ _ Hf)).
  reflexivity.
Qed.

Lemma transform_loop_dead_key (env env' : Env) (t : gmap string (list string))
    (k : string) (v : list string) (rs : list string) (acc : list string)
    (s : St) :
  FORWARD_MAPPING env = Table t →
  FORWARD_MAPPING env' = Table (<[k:=v]> t) →
  Str.toLowerCase k ≠ k →
  transform_loop env' rs acc s = transform_loop env rs acc s.
Proof.
  intros Hm Hm' Hk. revert acc s.
  induction rs as [|r rs IH]; intros acc s; [reflexivity|].
  cbn [transform_loop]. unfold bind.
  rewrite (transform_one_dead_key env env' t k v r acc s Hm Hm' Hk).
  destruct (transform_one env r acc s) as [s' [a|e]]; [apply IH | reflexivity].
Qed.

End DeadKeys.

(** X5. The lookup key is in lower case: lower-casing it again changes
    nothing.  So are the domain portion and the local-part cut from it,
    and a table entry under a key that is not in lower case is never
    looked up: with that entry added, changed or absent, the transformer
    does the same for every context. *)
Theorem normalize_lower (env : Env) (t : gmap string (list string))
    (k : string) (dests : list string) (s : St) :
  FORWARD_MAPPING env = Table t →
  Str.toLowerCase k ≠ k →
  (∀ origEmail,
     Str.toLowerCase (normalize origEmail) = normalize origEmail
     ∧ ∀ key, key ∈ Spec.rule_keys (normalize origEmail) →
              Str.toLowerCase key = key)
  ∧ transformRecipients (Extra.with_mapping (Table (<[k:=dests]> t)) env) s
    = transformRecipients env s.
Proof.
  intros Hm Hk. split.
  { intros origEmail. split; [apply normalize_lower_case|].
    intros key. apply rule_keys_lower, normalize_lower_case. }
  unfold transformRecipients, bind, get, modify. cbn [ctx trace].
  rewrite (transform_loop_dead_key env
             (Extra.with_mapping (Table (<[k:=dests]> t)) env) t k dests
             _ _ _ Hm eq_refl Hk).
  destruct (transform_loop env _ _ _) as [s' [[|x l]|e]]; reflexivity.
Qed.

Lemma normalize_lower_witness :
  (∀ origEmail,
     Str.toLowerCase (normalize origEmail) = normalize origEmail
     ∧ ∀ key, key ∈ Spec.rule_keys (normalize origEmail) →
              Str.toLowerCase key = key)
  ∧ transformRecipients
      (Extra.with_mapping
         (Table (<["Alice@Example.com" := ["a@dest.com"]]> Examples.catch_all))
         (Examples.env (Table Examples.catch_all)))
      (Examples.with_recipients ["Alice@Example.com"])
    = transformRecipients (Examples.env (Table Examples.catch_all))
        (Examples.with_recipients ["Alice@Example.com"]).
Proof.
  apply (normalize_lower (Examples.env (Table Examples.catch_all))
           Examples.catch_all "Alice@Example.com" ["a@dest.com"]).
  - reflexivity.
  - vm_compute. discriminate.
Defined.

(** X6. A plus-addressed recipient resolves as the plain recipient does:
    with the same table (or the same parse failure), [local+tag@domain] and
    [local@domain] yield the same destinations or the same error and emit
    the same log entries, provided [local] holds no [+], the tag no [@]
    and no line terminator, and the domain no [@]. *)
Theorem plus_address_resolves_alike (env : Env) (l tag d : string)
    (acc : list string) (s : St) :
  Spec.count "+" l = 0 →
  Spec.all Char.isDot tag = true →
  Spec.count "@" tag = 0 →
  Spec.count "@" d = 0 →
  snd (transform_one env (l +:+ "+" +:+ tag +:+ "@" +:+ d) acc s)
  = snd (transform_one env (l +:+ "@" +:+ d) acc s)
  ∧ trace (fst (transform_one env (l +:+ "+" +:+ tag +:+ "@" +:+ d) acc s))
    = trace (fst (transform_one env (l +:+ "@" +:+ d) acc s)).
Proof.
  intros Hl Hd Hc Hdom. apply transform_one_same_key.
  rewrite normalize_tagged, normalize_plain by assumption. reflexivity.
Qed.

Lemma plus_address_resolves_alike_witness :
  snd (transform_one (Examples.env (Table Examples.alice))
         ("alice" +:+ "+" +:+ "news" +:+ "@" +:+ "example.com") []
         (Examples.with_recipients []))
  = Ok ["a1@dest.com"; "a2@dest.com"].
Proof.
  rewrite (proj1 (plus_address_resolves_alike
                    (Examples.env (Table Examples.alice))
                    "alice" "news" "example.com" []
                    (Examples.with_recipients [])
                    eq_refl eq_refl eq_refl eq_refl)).
  vm_compute. reflexivity.
Defined.

(** ** More on the header and body segments *)

Section Backtracking.
Import Regex Patterns.
Variable fl : flags.

(** A greedy repetition of a class gives up the whole run when the
    continuation fails after every non-empty part of it. *)
Lemma star_cls_all_fail (p : ascii → bool) (c : string) :
  ∀ (r : string) (fuel : nat) (st : MState) (k : cont),
    Spec.all p c = true →
    rest st = c +:+ r →
    starts_outside p r →
    String.length (rest st) < fuel →
    (∀ c1 c2, c = c1 +:+ c2 → c1 ≠ "" → k (feed c1 st) = None) →
    star_loop (rmatch fl (Cls p)) true fuel st k = k st.
Proof.
  induction c as [|a c IH]; intros r fuel st k Hall Hrest Hr Hfuel Hk;
    (destruct fuel as [|fuel]; [lia|]).
  - rewrite append_nil_l in Hrest.
    destruct Hr as [->|(a & r' & -> & Ha)].
    + apply star_cls_nil. exact Hrest.
    + rewrite (star_cls_step fl _ _ _ _ _ _ Hrest), Ha. reflexivity.
  - cbn in Hall. apply andb_prop in Hall as [Ha Hall].
    rewrite append_cons in Hrest.
    rewrite (star_cls_step fl _ _ _ _ _ _ Hrest), Ha.
    rewrite (IH r fuel (advance a (c +:+ r) st) k Hall eq_refl Hr).
    + pose proof (Hk (String a "") c eq_refl ltac:(discriminate)) as H1.
      rewrite (feed_cons _ _ _ _ Hrest) in H1. cbn [feed] in H1.
      rewrite H1. reflexivity.
    + rewrite Hrest in Hfuel. cbn [String.length rest advance] in *. lia.
    + intros c1 c2 -> Hc1.
      rewrite <- (feed_cons _ _ _ _ Hrest).
      apply (Hk (String a c1) c2); [reflexivity | discriminate].
Qed.

(** It stops at the longest part of the run after which the continuation
    succeeds. *)
Lemma star_cls_last (p : ascii → bool) (c1 : string) :
  ∀ (c2 r : string) (fuel : nat) (st : MState) (k : cont) (x : MState),
    Spec.all p (c1 +:+ c2) = true →
    rest st = (c1 +:+ c2) +:+ r →
    starts_outside p r →
    String.length (rest st) < fuel →
    k (feed c1 st) = Some x →
    (∀ a b, c2 = a +:+ b → a ≠ "" → k (feed (c1 +:+ a) st) = None) →
    star_loop (rmatch fl (Cls p)) true fuel st k = Some x.
Proof.
  induction c1 as [|a c1 IH]; intros c2 r fuel st k x Hall Hrest Hr Hfuel Hx Hk.
  - rewrite append_nil_l in Hall, Hrest. cbn [feed] in Hx.
    rewrite (star_cls_all_fail p c2 r fuel st k Hall Hrest Hr Hfuel).
    + exact Hx.
    + intros a b E Ha. apply (Hk a b E Ha).
  - destruct fuel as [|fuel]; [lia|].
    assert (Hrest' : rest st = String a ((c1 +:+ c2) +:+ r))
      by (rewrite Hrest, !append_cons; reflexivity).
    clear Hrest. rename Hrest' into Hrest.
    rewrite append_cons in Hall.
    cbn [Spec.all] in Hall. apply andb_prop in Hall as [Ha Hall].
    rewrite (star_cls_step fl _ _ _ _ _ _ Hrest), Ha.
    rewrite (feed_cons _ _ _ _ Hrest) in Hx.
    rewrite (IH c2 r fuel (advance a ((c1 +:+ c2) +:+ r) st) k x Hall eq_refl Hr).
    + reflexivity.
    + rewrite Hrest in Hfuel. cbn [String.length rest advance] in *. lia.
    + exact Hx.
    + intros a' b E Ha'. rewrite <- (feed_cons _ _ _ _ Hrest).
      rewrite <- append_cons. apply (Hk a' b E Ha').
Qed.

End Backtracking.

Section BodyTail.
Import Regex Patterns.

Lemma non_whitespace_dot (c : ascii) :
  Char.isWhiteSpace c = false → Char.isDot c = true.
Proof.
  destruct (Char.isDot c) eqn:E; [reflexivity|].
  rewrite (line_terminator_whitespace _ E). discriminate.
Qed.

Lemma no_whitespace_dot (s : string) :
  Extra.no_whitespace s = true → Spec.all Char.isDot s = true.
Proof.
  induction s as [|c s IH]; [reflexivity|]. unfold Extra.no_whitespace.
  cbn [Spec.all]. intros H. apply andb_prop in H as [Hc Hs].
  apply negb_true_iff in Hc. rewrite (non_whitespace_dot _ Hc). cbn.
  apply IH. exact Hs.
Qed.

Lemma no_whitespace_starts (s : string) :
  Extra.no_whitespace s = true → starts_outside Char.isWhiteSpace s.
Proof.
  destruct s as [|c s]; [left; reflexivity|]. unfold Extra.no_whitespace.
  cbn [Spec.all]. intros H. apply andb_prop in H as [Hc _].
  apply negb_true_iff in Hc. right. eauto.
Qed.

Lemma no_whitespace_suffix (a b : string) :
  Extra.no_whitespace (a +:+ b) = true → Extra.no_whitespace b = true.
Proof.
  unfold Extra.no_whitespace. rewrite all_app. intros H.
  apply andb_prop in H as [_ H]. exact H.
Qed.

Lemma starts_outside_app (p : ascii → bool) (a b : string) :
  starts_outside p a → starts_outside p b → starts_outside p (a +:+ b).
Proof.
  intros [->|(c & a' & -> & Hc)] Hb; [exact Hb|].
  right. rewrite append_cons. eauto.
Qed.

Lemma cons_app_inv (w : ascii) (t a b : string) :
  String w t = a +:+ b → a ≠ "" → ∃ a', a = String w a' ∧ t = a' +:+ b.
Proof.
  intros E Ha. destruct a as [|x a]; [congruence|].
  rewrite append_cons in E. injection E as -> ->. eauto.
Qed.

(** Without whitespace ahead, [.*\\s+] does not match. *)
Lemma body_part_no_whitespace (tail : string) (st : MState) (k : cont) :
  Extra.no_whitespace tail = true → rest st = tail →
  rmatch flag_m body_part st k = None.
Proof.
  intros Ht Hrest.
  unfold body_part, any. cbn [rmatch]. fold (rmatch flag_m (Plus ws)).
  unfold dot.
  rewrite (star_cls_all_fail flag_m Char.isDot tail "").
  - apply ws_plus_fail. rewrite Hrest. apply no_whitespace_starts. exact Ht.
  - apply no_whitespace_dot. exact Ht.
  - rewrite append_nil_r. exact Hrest.
  - left. reflexivity.
  - lia.
  - intros c1 c2 -> _. apply ws_plus_fail.
    rewrite (feed_rest c1 c2 st Hrest).
    apply no_whitespace_starts. apply (no_whitespace_suffix c1). exact Ht.
Qed.

(** The greedy repetition of [.*\\s+] takes the text up to its last
    whitespace character and leaves what follows. *)
Lemma body_star_tail (tail : string) (n : nat) :
  Extra.no_whitespace tail = true →
  ∀ (b : string) (fuel : nat) (st : MState) (k : cont),
    String.length b ≤ n →
    Spec.ends_in_whitespace b = true →
    rest st = b +:+ tail → String.length (rest st) < fuel →
    (∀ st', is_Some (k st')) →
    star_loop (rmatch flag_m body_part) true fuel st k = k (feed b st).
Proof.
  intros Ht. induction n as [|n IH]; intros b fuel st k Hn Hb Hrest Hfuel Hk.
  - destruct b; [|cbn in Hn; lia]. rewrite append_nil_l in Hrest.
    destruct fuel as [|fuel]; [reflexivity|]. cbn [star_loop feed].
    rewrite (body_part_no_whitespace tail st _ Ht Hrest). reflexivity.
  - destruct b as [|c0 b0] eqn:Eb.
    { rewrite append_nil_l in Hrest.
      destruct fuel as [|fuel]; [reflexivity|]. cbn [star_loop feed].
      rewrite (body_part_no_whitespace tail st _ Ht Hrest). reflexivity. }
    rewrite <- Eb in *.
    assert (Hne : b ≠ "") by (rewrite Eb; discriminate).
    destruct fuel as [|fuel]; [lia|].
    destruct (Hk (feed b st)) as [x Hx].
    destruct (span Char.isDot b) as (u & r & Hur & Hu & Hr).
    cbn [star_loop].
    assert (Hone :
      rmatch flag_m body_part st
        (fun st' => if progressed st st'
                    then star_loop (rmatch flag_m body_part) true fuel st' k
                    else None) = Some x);
      [|rewrite Hone, Hx; reflexivity].
    destruct Hr as [->|(t & r' & -> & Hdt)].
    + rewrite append_nil_r in Hur. subst u.
      destruct (ends_in_whitespace_last b Hne Hb) as (u0 & w0 & E & Hw).
      assert (Hrest' : rest st = (u0 +:+ String w0 tail) +:+ "").
      { rewrite append_nil_r, Hrest, E, append_assoc. reflexivity. }
      assert (Hall : Spec.all Char.isDot (u0 +:+ String w0 tail) = true).
      { rewrite E, all_app in Hu. apply andb_prop in Hu as [Hu0 Hw0].
        rewrite all_app, Hu0. cbn [Spec.all] in Hw0 |- *.
        apply andb_prop in Hw0 as [-> _]. cbn.
        apply no_whitespace_dot. exact Ht. }
      unfold body_part, any. cbn [rmatch]. fold (rmatch flag_m (Plus ws)).
      unfold dot.
      apply (star_cls_last flag_m Char.isDot u0 (String w0 tail) "");
        try assumption.
      * left. reflexivity.
      * lia.
      * apply (ws_plus_take (String w0 "") tail).
        -- discriminate.
        -- cbn. rewrite Hw. reflexivity.
        -- apply feed_rest. rewrite append_nil_r in Hrest'. exact Hrest'.
        -- apply no_whitespace_starts. exact Ht.
        -- rewrite <- feed_app, <- E.
           rewrite (progressed_feed b tail st Hrest Hne).
           change (star_loop (rmatch flag_m body_part) true fuel (feed b st) k
                   = Some x).
           rewrite (IH "" fuel (feed b st) k); [exact Hx | cbn; lia | reflexivity | | | exact Hk].
           ++ apply feed_rest. exact Hrest.
           ++ rewrite (feed_rest b tail st Hrest).
              rewrite Hrest, length_append in Hfuel.
              destruct b; [congruence|]. cbn [String.length] in Hfuel.
              lia.
      * intros a b' E' Ha.
        destruct (cons_app_inv _ _ _ _ E' Ha) as (a' & -> & Etail).
        apply ws_plus_fail.
        rewrite (feed_rest (u0 +:+ String w0 a') b' st).
        -- apply no_whitespace_starts. apply (no_whitespace_suffix a').
           rewrite <- Etail. exact Ht.
        -- rewrite append_nil_r in Hrest'. rewrite Hrest', Etail.
           rewrite !append_assoc, append_cons. reflexivity.
    + destruct (span Char.isWhiteSpace (String t r'))
        as (w & r2 & Hwr & Hw & Hr2).
      assert (Hw0 : ∃ w', w = String t w').
      { destruct w as [|t' w'].
        - rewrite append_nil_l in Hwr. subst r2.
          destruct Hr2 as [?|(a & s' & [= <- <-] & Ha)]; [discriminate|].
          rewrite (line_terminator_whitespace _ Hdt) in Ha. discriminate.
        - rewrite append_cons in Hwr. injection Hwr as <- _. eauto. }
      destruct Hw0 as [w' ->].
      rewrite Hwr in Hur.
      assert (Hrest' : rest st = (u +:+ String t w') +:+ (r2 +:+ tail)).
      { rewrite Hrest, Hur, !append_assoc. reflexivity. }
      apply (body_part_line u (String t w') (r2 +:+ tail)); try assumption.
      * right. eauto.
      * discriminate.
      * apply starts_outside_app; [exact Hr2|].
        apply no_whitespace_starts. exact Ht.
      * rewrite Hrest', append_assoc. reflexivity.
      * rewrite (progressed_feed _ _ _ Hrest')
          by (destruct u; discriminate).
        rewrite (IH r2 fuel (feed (u +:+ String t w') st) k).
        -- rewrite <- feed_app, append_assoc, <- Hur. exact Hx.
        -- rewrite Hur, !length_append in Hn. cbn [String.length] in Hn. lia.
        -- apply (ends_in_whitespace_suffix (u +:+ String t w')).
           rewrite append_assoc, <- Hur. exact Hb.
        -- apply feed_rest. exact Hrest'.
        -- rewrite (feed_rest _ _ _ Hrest').
           rewrite Hrest', !length_append in Hfuel.
           cbn [String.length] in Hfuel. rewrite length_append. lia.
        -- exact Hk.
Qed.

(** The pattern on a message made of header lines (possibly none), an
    empty line, a text that ends in whitespace, and a rest without
    whitespace. *)
Lemma header_body_match_tail (h e b tail : string) :
  Spec.lines Spec.empty h → Spec.is_eol e →
  Spec.ends_in_whitespace b = true →
  Extra.no_whitespace tail = true →
  ∃ res,
    exec flag_m header_body (h +:+ e +:+ b +:+ tail) = Some (0, res)
    ∧ group (h +:+ e +:+ b +:+ tail) res 1 = Some h
    ∧ group (h +:+ e +:+ b +:+ tail) res 2 = Some (e +:+ b).
Proof.
  intros Hl He Hb Ht.
  set (input := h +:+ e +:+ b +:+ tail).
  set (st0 := mkState None input 0 []).
  set (st1 := set_cap 1 0 (pos (feed h st0)) (feed h st0)).
  set (st2 := feed b (feed e st1)).
  set (res := set_cap 2 (pos st1) (pos st2) st2).
  assert (Hr1 : rest st1 = e +:+ b +:+ tail)
    by (apply (feed_rest h); reflexivity).
  assert (Hm : rmatch flag_m header_body st0 Some = Some res).
  { unfold header_body. cbn [rmatch at_line_start prev st0].
    apply (lines_star h Hl (e +:+ b +:+ tail)).
    - reflexivity.
    - apply eol_starts_outside. exact He.
    - lia.
    - fold st0. change (set_cap 1 (pos st0) (pos (feed h st0)) (feed h st0))
        with st1.
      fold (rmatch flag_m eol).
      rewrite (eol_take e (b +:+ tail) st1 _ He Hr1).
      rewrite (body_star_tail tail (String.length b) Ht b _ (feed e st1) _
                 (Nat.le_refl _) Hb).
      + reflexivity.
      + apply (feed_rest e). exact Hr1.
      + lia.
      + intros st'. eauto. }
  exists res. unfold exec. repeat split.
  - apply exec_from_here. exact Hm.
  - unfold group, res. cbn [caps set_cap lookup_cap Nat.eqb].
    unfold st2. rewrite !feed_caps. cbn [caps st1 set_cap lookup_cap Nat.eqb].
    rewrite feed_pos. cbn [pos st0]. rewrite Nat.sub_0_r.
    cbn [Nat.add]. unfold input. rewrite substring_prefix. reflexivity.
  - unfold group, res. cbn [caps set_cap lookup_cap Nat.eqb].
    unfold st2. rewrite !feed_pos. cbn [pos st1 set_cap].
    rewrite feed_pos. cbn [pos st0 Nat.add].
    replace (String.length h + String.length e + String.length b
             - String.length h)
      with (String.length (e +:+ b)) by (rewrite length_append; lia).
    unfold input. rewrite substring_skip.
    rewrite <- (append_assoc e b tail), substring_prefix. reflexivity.
Qed.

End BodyTail.

Section Segments.
Import Regex Patterns Forwarder.

Lemma upto_last_whitespace_spec (s : string) :
  ∃ tail,
    s = Extra.upto_last_whitespace s +:+ tail
    ∧ Spec.ends_in_whitespace (Extra.upto_last_whitespace s) = true
    ∧ Extra.no_whitespace tail = true.
Proof.
  induction s as [|c s (tail & E & Hw & Ht)].
  - exists "". repeat split.
  - cbn [Extra.upto_last_whitespace].
    destruct (Extra.upto_last_whitespace s) as [|x u] eqn:Eu.
    + rewrite append_nil_l in E. subst tail.
      destruct (Char.isWhiteSpace c) eqn:Ec.
      * exists s. repeat split; [cbn; exact Ec | exact Ht].
      * exists (String c s). repeat split.
        unfold Extra.no_whitespace in *. cbn [Spec.all].
        rewrite Ec, Ht. reflexivity.
    + exists tail. repeat split; [|exact Hw | exact Ht].
      rewrite append_cons, <- E. reflexivity.
Qed.

Lemma add_reply_to_ok (header : option string) (s : St) :
  ∃ h', snd (add_reply_to header s) = Ok h'.
Proof.
  unfold add_reply_to. destruct (negb _); [|eexists; reflexivity].
  destruct (default "" _); eexists; reflexivity.
Qed.

(** The rewritten message is the rewritten header segment followed by
    the body segment. *)
Lemma processMessage_of_split (env : Env) (s : St) (msg : option string)
    (h : option string) (b : string) :
  emailData (ctx s) = msg → split_message msg = (h, b) →
  ∃ h',
    snd (add_reply_to h s) = Ok h'
    ∧ emailData (ctx (fst (processMessage env s)))
      = Some (Str.show (rewrite_header env (toEmail (ctx s)) <$> h') +:+ b).
Proof.
  intros Hmsg Hsplit. destruct (add_reply_to_ok h s) as [h' Hh].
  exists h'. split; [exact Hh|].
  unfold processMessage, bind, get. rewrite Hmsg, Hsplit.
  destruct (add_reply_to h s) as [s1 r]. cbn [snd] in Hh. subst r.
  reflexivity.
Qed.

Lemma split_message_cut (h e body : string) :
  Spec.lines Spec.empty h → Spec.is_eol e →
  split_message (Some (h +:+ e +:+ body))
  = (Some (if Spec.empty h then h +:+ e +:+ body else h),
     e +:+ Extra.upto_last_whitespace body).
Proof.
  intros Hl He.
  destruct (upto_last_whitespace_spec body) as (tail & E & Hw & Ht).
  rewrite E at 1.
  unfold split_message; cbn [mbind option_bind]; unfold Regex.jsmatch.
  destruct (header_body_match_tail h e _ tail Hl He Hw Ht)
    as (res & -> & -> & ->).
  cbn [fst snd nonempty default].
  pose proof (is_eol_nonempty e He) as Hne.
  destruct e as [|y e]; [congruence|]. rewrite append_cons.
  cbn [nonempty default mbind option_bind].
  destruct h as [|x h]; cbn [nonempty Spec.empty]; [|reflexivity].
  rewrite <- E. reflexivity.
Qed.

Lemma reach_no_lf (fl : flags) (r : regex) (st st' : MState) :
  reach fl r st st' →
  Spec.count Char.LF (rest st) = 0 → Spec.count Char.LF (rest st') = 0.
Proof.
  induction 1 as [|c a s st Hr _|p a s st Hr _| | | | | | |]; intros Hc; auto.
  - rewrite Hr in Hc. apply count_cons_zero in Hc as [_ Hc]. exact Hc.
  - rewrite Hr in Hc. apply count_cons_zero in Hc as [_ Hc]. exact Hc.
Qed.

(** The pattern of the split needs a LF. *)
Lemma header_body_needs_lf (st st' : MState) :
  Spec.count Char.LF (rest st) = 0 → ¬ reach flag_m header_body st st'.
Proof.
  intros Hc H. unfold header_body in H.
  inversion H as [| | | |? ? ? sta ? Hb H12| | | | |]; subst. clear H.
  inversion Hb as [| | |? Hstart| | | | | |]; subst. clear Hb.
  inversion H12 as [| | | |? ? ? st1 ? H1 H2| | | | |]; subst. clear H12.
  pose proof (reach_no_lf _ _ _ _ H1 Hc) as Hc1.
  inversion H2 as [| | | | | | | | |? ? ? st2' Hb2]; subst. clear H2.
  inversion Hb2 as [| | | |? ? ? st3 ? He _| | | | |]; subst. clear Hb2.
  unfold eol in He.
  inversion He as [| | | |? ? ? stm ? Ho Hlf| | | | |]; subst. clear He.
  pose proof (reach_no_lf _ _ _ _ Ho Hc1) as Hcm.
  apply reach_chr_inv in Hlf as (a & s & Hrest & Ha & _).
  cbn in Ha. apply Ascii.eqb_eq in Ha as ->.
  rewrite Hrest in Hcm. cbn in Hcm. discriminate.
Qed.

Lemma header_body_no_match_lf (s : string) :
  ∀ (p : option ascii) (i : nat),
    Spec.count Char.LF s = 0 →
    exec_from flag_m header_body p s i = None.
Proof.
  induction s as [|c s IH]; intros p i Hc.
  - cbn [exec_from].
    destruct (rmatch _ _ _ _) as [res|] eqn:E; [|reflexivity].
    apply rmatch_sound in E as (st' & R & _).
    destruct (header_body_needs_lf (mkState p "" i []) st' Hc R).
  - rewrite exec_from_next.
    + apply IH. apply count_cons_zero in Hc as [_ Hc]. exact Hc.
    + destruct (rmatch _ _ _ _) as [res|] eqn:E; [|reflexivity].
      apply rmatch_sound in E as (st' & R & _).
      destruct (header_body_needs_lf (mkState p (String c s) i []) st' Hc R).
Qed.

End Segments.



(** X8. A message that starts with an empty line has no header lines for
    the pattern to capture, so the header segment falls back to the whole
    message while the body segment is still cut out of it: the rewritten
    message is the whole message with the header rewrites applied,
    followed once more by the empty line and the text up to its last
    whitespace character. *)
Theorem leading_empty_line_repeats_body (e body : string) (env : Env)
    (s : St) :
  Spec.is_eol e →
  emailData (ctx s) = Some (e +:+ body) →
  split_message (Some (e +:+ body))
  = (Some (e +:+ body), e +:+ Extra.upto_last_whitespace body)
  ∧ ∃ h',
      snd (add_reply_to (Some (e +:+ body)) s) = Ok h'
      ∧ emailData (ctx (fst (processMessage env s)))
        = Some (Str.show (rewrite_header env (toEmail (ctx s)) <$> h')
                  +:+ e +:+ Extra.upto_last_whitespace body).
Proof.
  intros He Hmsg.
  pose proof (split_message_cut "" e body (Spec.lines_nil _) He) as Hsplit.
  rewrite !append_nil_l in Hsplit. cbn [Spec.empty] in Hsplit.
  split; [exact Hsplit|].
  apply (processMessage_of_split env s _ _ _ Hmsg Hsplit).
Qed.

Lemma leading_empty_line_repeats_body_witness :
  emailData
    (ctx (fst (processMessage (Examples.env (Table ∅))
                 (mkSt (set_emailData (Some (Str.NL +:+ "hello" +:+ Str.NL))
                          Examples.fresh) []))))
  = Some (Str.NL +:+ "hello" +:+ Str.NL +:+ Str.NL +:+ "hello" +:+ Str.NL).
Proof.
  destruct (leading_empty_line_repeats_body Str.NL ("hello" +:+ Str.NL)
              (Examples.env (Table ∅))
              (mkSt (set_emailData (Some (Str.NL +:+ "hello" +:+ Str.NL))
                       Examples.fresh) []))
    as (_ & h' & Hh & ->).
  - left. reflexivity.
  - reflexivity.
  - vm_compute in Hh. injection Hh as <-. vm_compute. reflexivity.
Defined.

(** X9. A message without any LF has no line end for the pattern of the
    split to stand on: the whole message is the header segment and the
    body segment is empty, whatever else the message holds. *)
Theorem split_message_without_lf (msg : string) :
  Spec.count Char.LF msg = 0 →
  split_message (Some msg) = (Some msg, "").
Proof.
  intros Hc. unfold split_message; cbn [mbind option_bind].
  unfold Regex.jsmatch, Regex.exec.
  rewrite (header_body_no_match_lf msg None 0 Hc). reflexivity.
Qed.

Lemma split_message_without_lf_witness :
  split_message (Some ("A: b" +:+ String Char.CR "" +:+ String Char.CR "" +:+ "text"))
  = (Some ("A: b" +:+ String Char.CR "" +:+ String Char.CR "" +:+ "text"), "").
Proof.
  apply (split_message_without_lf
           ("A: b" +:+ String Char.CR "" +:+ String Char.CR "" +:+ "text")).
  reflexivity.
Defined.

(** ** The invocation as a whole *)

Section Effects.
Import Forwarder Extra Scan.

Lemma sends_app (a b : list Effect) : sends (a ++ b) = sends a + sends b.
Proof. unfold sends. rewrite List.filter_app, List.length_app. reflexivity. Qed.

Lemma gets_app (a b : list Effect) : gets (a ++ b) = gets a + gets b.
Proof. unfold gets. rewrite List.filter_app, List.length_app. reflexivity. Qed.

Lemma quiet_nil : quiet [].
Proof. split; reflexivity. Qed.

Lemma quiet_log (level message : string) : quiet [Log level message].
Proof. split; reflexivity. Qed.

Lemma quiet_app (a b : list Effect) : quiet a → quiet b → quiet (a ++ b).
Proof.
  intros [Ha1 Ha2] [Hb1 Hb2]. split; [rewrite sends_app | rewrite gets_app]; lia.
Qed.


Lemma transform_one_quiet (env : Env) (r : string) (acc : list string) :
  appends (transform_one env r acc) quiet.
Proof.
  intros s. destruct (FORWARD_MAPPING env) as [|t] eqn:Hm.
  - unfold transform_one, bind, parse_mapping. rewrite Hm.
    eexists. split; [reflexivity | apply quiet_log].
  - exists []. rewrite app_nil_r. split; [|apply quiet_nil].
    rewrite (transform_one_first_hit env t _ _ _ Hm).
    destruct (first_hit t _) as [k|]; [|reflexivity].
    unfold take_rule. destruct (t !! k); reflexivity.
Qed.

Lemma transform_loop_quiet (env : Env) (rs : list string) :
  ∀ acc, appends (transform_loop env rs acc) quiet.
Proof.
  induction rs as [|r rs IH]; intros acc s.
  - exists []. rewrite app_nil_r. split; [reflexivity | apply quiet_nil].
  - cbn [transform_loop]. unfold bind.
    destruct (transform_one_quiet env r acc s) as (es1 & H1 & Q1).
    destruct (transform_one env r acc s) as [s1 [acc1|e]]; cbn [fst] in H1.
    + destruct (IH acc1 s1) as (es2 & H2 & Q2).
      exists (es1 ++ es2). rewrite H2, H1, app_assoc.
      split; [reflexivity | apply quiet_app; assumption].
    + exists es1. split; assumption.
Qed.

Lemma parseEvent_quiet : appends parseEvent quiet.
Proof.
  intros s. unfold parseEvent, bind, get.
  destruct (invalid_event _).
  - eexists. split; [reflexivity | apply quiet_log].
  - exists []. rewrite app_nil_r. split; [|apply quiet_nil].
    destruct (first_record _) as [r|]; [|reflexivity].
    destruct (ses r) as [[m [rc|]]|]; reflexivity.
Qed.

Lemma transformRecipients_quiet (env : Env) :
  appends (transformRecipients env) quiet.
Proof.
  intros s.
  destruct (transform_loop_quiet env (default [] (recipients (ctx s))) []
              (mkSt (set_originalRecipients (recipients (ctx s)) (ctx s))
                 (trace s))) as (es & H & Q).
  destruct (transform_loop env _ [] _) as [s1 [[|x l]|e]] eqn:Hloop;
    cbn [fst trace] in H.
  - rewrite (transformRecipients_empty _ _ _ Hloop). cbn [fst trace].
    rewrite H, <- app_assoc. eexists. split; [reflexivity|].
    apply quiet_app; [exact Q | split; reflexivity].
  - rewrite (transformRecipients_nonempty _ _ _ _ _ Hloop). cbn [fst trace].
    exists es. split; assumption.
  - rewrite (transformRecipients_throw _ _ _ _ Hloop). cbn [fst].
    exists es. split; assumption.
Qed.

(** The fetcher, run. *)
Lemma fetchMessage_run (env : Env) (s : St) :
  let key := Str.show (KEY_PREFIX env)
               +:+ Str.show (email (ctx s) ≫= messageId) in
  let asked :=
    trace s
      ++ [Log "info"
            ("Fetching email at s3://" +:+ Str.show (BUCKET_NAME env)
               +:+ "/" +:+ key);
          S3Get (BUCKET_NAME env) key] in
  fetchMessage env s
  = match s3_send env (BUCKET_NAME env) key with
    | S3Body body =>
        (mkSt (set_emailData body (ctx s)) asked,
         Ok (JObject (set_emailData body (ctx s))))
    | S3Failed =>
        (mkSt (ctx s)
           (asked ++ [Log "error" "Error occurred while fetching message:"]),
         Throw FetchError)
    end.
Proof.
  unfold fetchMessage, bind, get, log, emit, modify, return_data, throw, ret.
  cbn [ctx trace].
  destruct (s3_send env _ _); cbn [ctx trace]; rewrite <- !app_assoc;
    reflexivity.
Qed.

(** The sender, run. *)
Lemma sendMessage_run (env : Env) (s : St) :
  let raw := default "" (emailData (ctx s)) in
  let submitted :=
    trace s
      ++ [Log "info"
            ("sendMessage: Sending email via SES. Original recipients: "
               +:+ show_list (originalRecipients (ctx s))
               +:+ ". Transformed recipients: "
               +:+ show_list (recipients (ctx s)) +:+ ".");
          SendRawEmail (recipients (ctx s)) (originalRecipient (ctx s)) raw] in
  sendMessage env s
  = if ses_send env (recipients (ctx s)) (originalRecipient (ctx s)) raw
    then (mkSt (ctx s)
            (submitted ++ [Log "info" "sendRawEmail() successful."]),
          Ok (JObject (ctx s)))
    else (mkSt (ctx s)
            (submitted ++ [Log "error" "sendRawEmail() returned error."]),
          Throw SendError).
Proof.
  unfold sendMessage, bind, get, log, emit, modify, return_data, throw, ret.
  cbn [ctx trace].
  destruct (ses_send env _ _ _); cbn [ctx trace]; rewrite <- !app_assoc;
    reflexivity.
Qed.

(** The outcome of [add_reply_to] depends on the header alone; the
    context is not touched and at most a log entry is added. *)
Lemma add_reply_to_run (h : option string) (s s0 : St) :
  ∃ es,
    add_reply_to h s = (mkSt (ctx s) (trace s ++ es), snd (add_reply_to h s0))
    ∧ quiet es.
Proof.
  unfold add_reply_to.
  destruct (negb _).
  - destruct (default "" _); eexists; (split; [reflexivity | apply quiet_log]).
  - exists []. rewrite app_nil_r. destruct s. split; [reflexivity | apply quiet_nil].
Qed.

(** The processor, run: it always returns, with the processed message in
    the context. *)
Lemma processMessage_run (env : Env) (s : St) :
  ∃ es,
    processMessage env s
    = (let d := set_emailData
                  (Some (processed env (toEmail (ctx s)) (emailData (ctx s))))
                  (ctx s) in
       (mkSt d (trace s ++ es), Ok (JObject d)))
    ∧ quiet es.
Proof.
  unfold processed, processMessage, bind, get. cbn [ctx emailData toEmail].
  destruct (split_message (emailData (ctx s))) as [h b].
  set (blank := mkSt _ []).
  destruct (add_reply_to_run h s blank) as (es & -> & Q).
  destruct (add_reply_to_ok h blank) as [h' Hh].
  destruct (add_reply_to h blank) as [sb rb]. cbn [snd] in Hh |- *. subst rb.
  exists es. split; [reflexivity | exact Q].
Qed.

Lemma processMessage_quiet (env : Env) : appends (processMessage env) quiet.
Proof.
  intros s. destruct (processMessage_run env s) as (es & -> & Q).
  exists es. split; [reflexivity | exact Q].
Qed.

Lemma stage_quiet (name : string) (m : M JsVal) (v : JsVal) :
  appends m quiet → quiet (fst (stage name m v)).
Proof.
  intros H. destruct v as [|d]; [apply quiet_nil|]. unfold stage.
  destruct (H (mkSt d [])) as (es & E & Q).
  destruct (m (mkSt d [])) as [s r]. cbn [fst trace] in *.
  rewrite E. exact Q.
Qed.

(** What the fetcher stage adds: nothing before it raises on a missing
    context, else one request to S3. *)
Lemma stage_fetch (env : Env) (v : JsVal) :
  sends (fst (stage "log" (fetchMessage env) v)) = 0
  ∧ ((fst (stage "log" (fetchMessage env) v) = []
      ∧ ∃ e, snd (stage "log" (fetchMessage env) v) = Throw e)
     ∨ gets (fst (stage "log" (fetchMessage env) v)) = 1).
Proof.
  destruct v as [|d]; [split; [reflexivity | left; eauto]|].
  unfold stage. rewrite fetchMessage_run. cbn [ctx trace app].
  destruct (s3_send env _ _); (split; [reflexivity | right; reflexivity]).
Qed.

(** What the sender stage adds: nothing before it raises on a missing
    context, else one submission to SES between two log entries; it
    returns when SES accepts the submission. *)
Lemma stage_send (env : Env) (v : JsVal) :
  (fst (stage "recipients" (sendMessage env) v) = []
   ∧ ∃ e, snd (stage "recipients" (sendMessage env) v) = Throw e)
  ∨ ∃ d src raw l1 m1 l2 m2,
      fst (stage "recipients" (sendMessage env) v)
      = [Log l1 m1; SendRawEmail d src raw; Log l2 m2]
      ∧ snd (stage "recipients" (sendMessage env) v)
        = (if ses_send env d src raw then Ok v else Throw SendError).
Proof.
  destruct v as [|d]; [left; split; [reflexivity | eauto]|]. right.
  unfold stage. rewrite sendMessage_run. cbn [ctx trace app].
  exists (recipients d), (originalRecipient d), (default "" (emailData d)).
  destruct (ses_send env _ _ _); do 4 eexists; split; reflexivity.
Qed.

Lemma no_send (es : list Effect) (d : option (list string))
    (src : option string) (raw : string) :
  sends es = 0 → SendRawEmail d src raw ∉ es.
Proof.
  intros Hs Hin. induction es as [|e es IH]; [inversion Hin|].
  apply elem_of_cons in Hin as [<-|Hin]; [discriminate|].
  apply IH; [|exact Hin].
  unfold sends in *. cbn [List.filter] in Hs.
  destruct (is_send e); [discriminate | exact Hs].
Qed.

Lemma finish_sends (es : list Effect) (r : Result JsVal) :
  sends (finish (es, r)) = sends es ∧ gets (finish (es, r)) = gets es.
Proof.
  destruct r; cbn [finish]; rewrite sends_app, gets_app; cbn; lia.
Qed.

Lemma finish_last (es : list Effect) (r : Result JsVal) :
  last (finish (es, r)) = Some (Callback None) ↔ ∃ v, r = Ok v.
Proof.
  destruct r as [v|e]; cbn [finish].
  - change (es ++ [?a; ?b]) with (es ++ [a] ++ [b]).
    rewrite app_assoc, last_snoc. split; eauto.
  - change (es ++ [?a; ?b]) with (es ++ [a] ++ [b]).
    rewrite app_assoc, last_snoc. split; [discriminate|].
    intros [v Hv]. discriminate.
Qed.

(** The shape of a run of the five stages: effects without requests, the
    request to S3, effects without requests, the submission to SES. *)
Lemma default_steps_run (env : Env) (v : JsVal) :
  ∃ q1 F q2 S r,
    run_steps (default_steps env) v = (q1 ++ F ++ q2 ++ S, r)
    ∧ quiet q1 ∧ quiet q2 ∧ sends F = 0 ∧ gets F ≤ 1
    ∧ ((S = [] ∧ ∃ e, r = Throw e)
       ∨ (gets F = 1
          ∧ ∃ d src raw l1 m1 l2 m2 v',
              S = [Log l1 m1; SendRawEmail d src raw; Log l2 m2]
              ∧ r = if ses_send env d src raw then Ok v'
                    else Throw SendError)).
Proof.
  unfold default_steps. cbn [run_steps].
  pose proof (stage_quiet "event" parseEvent v parseEvent_quiet) as Q1.
  destruct (stage "event" parseEvent v) as [es1 [v1|e1]]; cbn [fst] in Q1.
  2: { exists es1, [], [], [], (Throw e1). rewrite !app_nil_r.
       split_and!; [reflexivity | exact Q1 | apply quiet_nil | reflexivity
                   | cbn; lia | left; eauto]. }
  pose proof (stage_quiet "recipients" (transformRecipients env) v1
                (transformRecipients_quiet env)) as Q2.
  destruct (stage "recipients" (transformRecipients env) v1)
    as [es2 [v2|e2]]; cbn [fst] in Q2.
  2: { exists (es1 ++ es2), [], [], [], (Throw e2). rewrite !app_nil_r.
       split_and!; [reflexivity | apply quiet_app; assumption
                   | apply quiet_nil | reflexivity | cbn; lia | left; eauto]. }
  pose proof (stage_fetch env v2) as [F1 F2].
  destruct (stage "log" (fetchMessage env) v2) as [es3 [v3|e3]];
    cbn [fst snd] in F1, F2.
  2: { exists (es1 ++ es2), es3, [], [], (Throw e3). rewrite !app_nil_r.
       rewrite <- app_assoc.
       split_and!; [reflexivity | apply quiet_app; assumption
                   | apply quiet_nil | exact F1 | | left; eauto].
       destruct F2 as [[-> _]| ->]; cbn; lia. }
  destruct F2 as [[_ [e He]]|F2]; [discriminate|].
  pose proof (stage_quiet "emailData" (processMessage env) v3
                (processMessage_quiet env)) as Q4.
  destruct (stage "emailData" (processMessage env) v3) as [es4 [v4|e4]];
    cbn [fst] in Q4.
  2: { exists (es1 ++ es2), es3, es4, [], (Throw e4). rewrite !app_nil_r.
       rewrite <- !app_assoc.
       split_and!; [reflexivity | apply quiet_app; assumption
                   | exact Q4 | exact F1 | lia | left; eauto]. }
  pose proof (stage_send env v4) as S5.
  destruct (stage "recipients" (sendMessage env) v4) as [es5 r5];
    cbn [fst snd] in S5.
  exists (es1 ++ es2), es3, es4, es5, r5.
  split_and!; [| apply quiet_app; assumption | exact Q4 | exact F1 | lia |].
  { destruct r5; rewrite ?app_nil_r, <- !app_assoc; reflexivity. }
  destruct S5 as [[-> He]|(d & src & raw & l1 & m1 & l2 & m2 & -> & ->)].
  - left. split; [reflexivity | exact He].
  - right. split; [exact F2|]. exists d, src, raw, l1, m1, l2, m2, v4.
    split; reflexivity.
Qed.

(** The first request to SES of a trace is at one place only. *)
Lemma first_send_unique (l1 : list Effect) :
  ∀ (pre l2 post : list Effect) (x x' : Effect),
    sends l1 = 0 → sends pre = 0 →
    is_send x = true → is_send x' = true →
    l1 ++ x :: l2 = pre ++ x' :: post → l1 = pre.
Proof.
  induction l1 as [|a l1 IH]; intros pre l2 post x x' H1 Hp Hx Hx' E.
  - destruct pre as [|b pre]; [reflexivity|]. cbn in E. injection E as <- _.
    unfold sends in Hp. cbn [List.filter] in Hp. rewrite Hx in Hp.
    discriminate.
  - destruct pre as [|b pre].
    + cbn in E. injection E as -> _. unfold sends in H1.
      cbn [List.filter] in H1. rewrite Hx' in H1. discriminate.
    + cbn in E. injection E as <- E. f_equal.
      unfold sends in H1, Hp. cbn [List.filter] in H1, Hp.
      destruct (is_send a); [discriminate|].
      apply (IH pre l2 post x x'); assumption.
Qed.

End Effects.

(** X10. Whatever the notification, the configuration and the answers
    of S3 and SES, an invocation with the default steps asks S3 for at
    most one object and submits at most one message to SES, and where it
    submits one it has asked S3 for the object before. *)
Theorem handler_requests_bounded (env : Env) (ev : option Event)
    (te : option string) :
  Extra.sends (handler env ev (Extra.with_to te)) ≤ 1
  ∧ Extra.gets (handler env ev (Extra.with_to te)) ≤ 1
  ∧ ∀ pre d src raw post,
      handler env ev (Extra.with_to te)
      = pre ++ SendRawEmail d src raw :: post →
      Extra.gets pre = 1.
Proof.
  unfold handler. cbn [Extra.with_to o_steps default].
  destruct (default_steps_run env (JObject (initial_data ev (Extra.with_to te))))
    as (q1 & F & q2 & S & r & -> & [Q1s Q1g] & [Q2s Q2g] & Fs & Fg & HS).
  destruct (finish_sends (q1 ++ F ++ q2 ++ S) r) as [-> ->].
  rewrite !sends_app, !gets_app.
  split_and!.
  - destruct HS as [[-> _]|(Hg & d & src & raw & l1 & m1 & l2 & m2 & v' & -> & _)];
      cbn; lia.
  - destruct HS as [[-> _]|(Hg & d & src & raw & l1 & m1 & l2 & m2 & v' & -> & _)];
      cbn; lia.
  - intros pre d src raw post E.
    assert (Hsum : Extra.sends (finish (q1 ++ F ++ q2 ++ S, r))
                   = Extra.sends pre + 1 + Extra.sends post).
    { rewrite E, sends_app. cbn. unfold Extra.sends. cbn. lia. }
    destruct (finish_sends (q1 ++ F ++ q2 ++ S) r) as [Hfs _].
    rewrite Hfs, !sends_app in Hsum.
    destruct HS as [[-> _]|(Hg & d' & src' & raw' & l1 & m1 & l2 & m2 & v' & -> & _)].
    + cbn in Hsum. lia.
    + cbn in Hsum.
      assert (Hpre : q1 ++ F ++ q2 ++ [Log l1 m1] = pre).
      { apply (first_send_unique _ pre
                 (Log l2 m2 :: match r with
                               | Ok _ =>
                                   [Log "info" "Process finished successfully.";
                                    Callback None]
                               | Throw err =>
                                   [Log "error"
                                      ("Step returned error: "
                                         +:+ message_of err);
                                    Callback (Some GenericFailure)]
                               end)
                 post (SendRawEmail d' src' raw') (SendRawEmail d src raw)).
        - rewrite !sends_app. cbn. lia.
        - lia.
        - reflexivity.
        - reflexivity.
        - rewrite <- E. destruct r; cbn [finish];
            rewrite <- !app_assoc; reflexivity. }
      rewrite <- Hpre, !gets_app. cbn. lia.
Qed.

(** X11. An invocation with the default steps ends with the completion
    callback called without an error exactly when it has submitted a
    message to SES and SES has accepted it. *)
Theorem handler_success_iff_accepted (env : Env) (ev : option Event)
    (te : option string) :
  last (handler env ev (Extra.with_to te)) = Some (Callback None)
  ↔ ∃ d src raw,
      SendRawEmail d src raw ∈ handler env ev (Extra.with_to te)
      ∧ ses_send env d src raw = true.
Proof.
  unfold handler. cbn [Extra.with_to o_steps default].
  destruct (default_steps_run env (JObject (initial_data ev (Extra.with_to te))))
    as (q1 & F & q2 & S & r & -> & [Q1s _] & [Q2s _] & Fs & _ & HS).
  rewrite finish_last. split.
  - intros [v ->].
    destruct HS as [[_ [e He]]|(_ & d & src & raw & l1 & m1 & l2 & m2 & v' & -> & Hr)];
      [discriminate|].
    exists d, src, raw.
    destruct (ses_send env d src raw); [|discriminate]. split; [|reflexivity].
    cbn [finish]. rewrite !elem_of_app. left. right. right. right.
    apply elem_of_cons. right. apply elem_of_cons. left. reflexivity.
  - intros (d & src & raw & Hin & Hses).
    assert (Hes : SendRawEmail d src raw ∈ q1 ++ F ++ q2 ++ S).
    { destruct r; cbn [finish] in Hin; apply elem_of_app in Hin as [Hin|Hin];
        try exact Hin;
        repeat (apply elem_of_cons in Hin as [Hin|Hin]; [discriminate|]);
        inversion Hin. }
    rewrite !elem_of_app in Hes.
    destruct Hes as [H|[H|[H|H]]];
      try (exfalso; revert H; apply no_send; assumption).
    destruct HS as [[-> _]|(_ & d' & src' & raw' & l1 & m1 & l2 & m2 & v' & -> & ->)];
      [inversion H|].
    apply elem_of_cons in H as [H|H]; [discriminate|].
    apply elem_of_cons in H as [H|H];
      [|apply elem_of_cons in H as [H|H]; [discriminate | inversion H]].
    injection H as <- <- <-. rewrite Hses. eauto.
Qed.

Section Submission.
Import Forwarder Extra.

Lemma run_steps_cons (step : Step) (steps : list Step) (v : JsVal) :
  run_steps (step :: steps) v
  = match step v with
    | (es, Ok v') => let '(es', r) := run_steps steps v' in (es ++ es', r)
    | (es, Throw e) => (es, Throw e)
    end.
Proof. reflexivity. Qed.

Lemma not_in_finish (es : list Effect) (r : Result JsVal)
    (d : option (list string)) (src : option string) (raw : string) :
  SendRawEmail d src raw ∈ finish (es, r) → SendRawEmail d src raw ∈ es.
Proof.
  intros Hin.
  destruct r; cbn [finish] in Hin; apply elem_of_app in Hin as [Hin|Hin];
    try exact Hin;
    repeat (apply elem_of_cons in Hin as [Hin|Hin]; [discriminate|]);
    inversion Hin.
Qed.

(** What an invocation submits, when the callback returns nothing. *)
Lemma handler_submission (env : Env) (ev : option Event)
    (te : option string) (t : gmap string (list string))
    (dests : option (list string)) (src : option string) (raw : string) :
  FORWARD_MAPPING env = Table t →
  callback_result env None = JUndefined →
  SendRawEmail dests src raw
  ∈ fst (run_steps (default_steps env) (JObject (initial_data ev (with_to te)))) →
  ∃ r rs body,
    Spec.valid_notification ev r
    ∧ ses_recipients r = Some rs
    ∧ s3_send env (BUCKET_NAME env)
        (Str.show (KEY_PREFIX env) +:+ Str.show (ses_mail r ≫= messageId))
      = S3Body body
    ∧ dests = Some (destinations t rs)
    ∧ destinations t rs ≠ []
    ∧ src = last (List.filter (Spec.matches t) rs)
    ∧ raw = processed env te body.
Proof.
  intros Hm Hcb Hin. unfold default_steps in Hin.
  set (d0 := initial_data ev (with_to te)) in *.
  rewrite run_steps_cons in Hin. unfold stage at 1 in Hin.
  destruct (invalid_event ev) eqn:Ev.
  { exfalso. unfold parseEvent, bind, get in Hin.
    cbn [ctx d0 initial_data event] in Hin. rewrite Ev in Hin.
    cbn in Hin. apply elem_of_cons in Hin as [Hin|Hin]; [discriminate|].
    inversion Hin. }
  destruct (invalid_event_false_inv ev Ev) as [r Hv]. exists r.
  destruct (ses r ≫= receipt) as [rc|] eqn:Hb.
  2: { exfalso.
       rewrite (parseEvent_missing (mkSt d0 []) r Hv) in Hin
         by (unfold Spec.has_receipt; rewrite Hb; intros [? ?]; discriminate).
       destruct (ses r); cbn in Hin; inversion Hin. }
  assert (Hrc : Spec.has_receipt r)
    by (unfold Spec.has_receipt; rewrite Hb; eauto).
  rewrite (parseEvent_valid (mkSt d0 []) r Hv Hrc) in Hin.
  cbn [ctx trace] in Hin.
  set (rs := default [] (ses_recipients r)).
  set (d1 := set_recipients (ses_recipients r)
               (set_email (ses_mail r) d0)) in *.
  rewrite run_steps_cons in Hin. unfold stage at 1 in Hin.
  set (s0 := mkSt (set_originalRecipients (recipients d1) d1) []).
  pose proof (transform_loop_quiet env rs [] s0) as (es & Hes & Qes).
  pose proof (transform_loop_frame env rs [] s0) as [o Hctx].
  destruct (transform_loop env rs [] s0)
    as [s' [acc|e]] eqn:Hloop; cbn [fst] in Hes, Hctx.
  2: { exfalso.
       rewrite (transformRecipients_throw env (mkSt d1 []) s' e Hloop) in Hin.
       cbn [app fst] in Hin. rewrite Hes in Hin. cbn [s0 trace app] in Hin.
       revert Hin. apply no_send. apply Qes. }
  pose proof (transform_loop_last_match env t _ Hm _ _ _ _ Hloop) as Hsrc.
  apply (transform_loop_destinations env t _ Hm) in Hloop as Hacc.
  destruct Hacc as [Hacc Htr]. cbn [app] in Hacc. cbn [s0 trace] in Htr.
  destruct acc as [|x l].
  { exfalso.
    rewrite (transformRecipients_empty env (mkSt d1 []) s' Hloop) in Hin.
    rewrite Hcb in Hin. rewrite run_steps_cons in Hin.
    cbn [stage app fst] in Hin. rewrite Htr in Hin. cbn [app] in Hin.
    repeat (apply elem_of_cons in Hin as [Hin|Hin]; [discriminate|]).
    inversion Hin. }
  rewrite (transformRecipients_nonempty env (mkSt d1 []) s' x l Hloop) in Hin.
  rewrite Htr in Hin.
  set (d2 := set_recipients (Some (x :: l)) (ctx s')) in *.
  rewrite run_steps_cons in Hin. unfold stage at 1 in Hin.
  rewrite fetchMessage_run in Hin. cbn [ctx trace app] in Hin.
  assert (Hmail : email d2 ≫= messageId = ses_mail r ≫= messageId)
    by (unfold d2; rewrite Hctx; reflexivity).
  rewrite Hmail in Hin.
  destruct (s3_send env (BUCKET_NAME env) _) as [|body] eqn:Hs3.
  { exfalso. cbn [app fst] in Hin.
    repeat (apply elem_of_cons in Hin as [Hin|Hin]; [discriminate|]).
    inversion Hin. }
  exists rs, body.
  set (d3 := set_emailData body d2) in *.
  rewrite run_steps_cons in Hin. unfold stage at 1 in Hin.
  destruct (processMessage_run env (mkSt d3 [])) as (es4 & Hpm & Q4).
  rewrite Hpm in Hin. cbn [ctx trace app] in Hin.
  set (d4 := set_emailData (Some (processed env (toEmail d3) (emailData d3))) d3)
    in *.
  rewrite run_steps_cons in Hin. unfold stage at 1 in Hin.
  rewrite sendMessage_run in Hin. cbn [ctx trace app] in Hin.
  assert (Hsend :
    SendRawEmail dests src raw
    = SendRawEmail (recipients d4) (originalRecipient d4)
        (default "" (emailData d4))).
  { destruct (ses_send env _ _ _); cbn [run_steps fst app] in Hin;
      rewrite ?app_nil_r in Hin;
      repeat (apply elem_of_cons in Hin as [Hin|Hin]; [discriminate|]);
      (apply elem_of_app in Hin as [Hin|Hin];
       [exfalso; revert Hin; apply no_send; apply Q4|]);
      repeat (apply elem_of_cons in Hin as [Hin|Hin]; try discriminate);
      try exact Hin; inversion Hin. }
  injection Hsend as -> -> ->.
  split_and!.
  - exact Hv.
  - unfold rs in *. destruct (ses_recipients r); [reflexivity|].
    cbn [default] in Hacc. discriminate Hacc.
  - reflexivity.
  - unfold d4, d3, d2. cbn. rewrite Hacc. reflexivity.
  - rewrite <- Hacc. discriminate.
  - unfold d4, d3, d2. cbn [originalRecipient set_emailData set_recipients].
    rewrite Hsrc. cbn. destruct (last _); reflexivity.
  - unfold d4. cbn [emailData set_emailData default].
    unfold d3, d2. cbn [toEmail emailData set_emailData set_recipients].
    rewrite Hctx. reflexivity.
Qed.

End Submission.

(** X12. With a callback that returns nothing, whatever an invocation
    with the default steps submits to SES comes from a valid notification
    and is addressed to exactly the destinations the forwarding table
    gives for the recipients of that notification, of which there is at
    least one; its source is the last recipient that matches a rule, and
    its content is the object S3 returned for the notification's message
    identifier under the configured prefix, as the processor rewrites
    it. *)
Theorem handler_submits_mapped (env : Env) (ev : option Event)
    (te : option string) (t : gmap string (list string))
    (dests : option (list string)) (src : option string) (raw : string) :
  FORWARD_MAPPING env = Table t →
  callback_result env None = JUndefined →
  SendRawEmail dests src raw ∈ handler env ev (Extra.with_to te) →
  ∃ r rs body,
    Spec.valid_notification ev r
    ∧ ses_recipients r = Some rs
    ∧ s3_send env (BUCKET_NAME env)
        (Str.show (KEY_PREFIX env) +:+ Str.show (ses_mail r ≫= messageId))
      = S3Body body
    ∧ dests = Some (Extra.destinations t rs)
    ∧ Extra.destinations t rs ≠ []
    ∧ src = last (List.filter (Spec.matches t) rs)
    ∧ raw = Extra.processed env te body.
Proof.
  intros Hm Hcb Hin. unfold handler in Hin.
  cbn [Extra.with_to o_steps default] in Hin.
  destruct (run_steps (default_steps env) _) as [es r] eqn:Hrun.
  apply not_in_finish in Hin.
  apply (handler_submission env ev te t dests src raw Hm Hcb).
  fold (Extra.with_to te) in Hrun. rewrite Hrun. exact Hin.
Qed.

Lemma handler_submits_mapped_witness :
  ∃ r rs body,
    Spec.valid_notification (Examples.notification ["anyone@domain.com"]) r
    ∧ ses_recipients r = Some rs
    ∧ s3_send (Examples.env (Table Examples.catch_all))
        (BUCKET_NAME (Examples.env (Table Examples.catch_all)))
        (Str.show (KEY_PREFIX (Examples.env (Table Examples.catch_all)))
           +:+ Str.show (ses_mail r ≫= messageId))
      = S3Body body
    ∧ Some ["catchall@dest.com"]
      = Some (Extra.destinations Examples.catch_all rs)
    ∧ Extra.destinations Examples.catch_all rs ≠ []
    ∧ Some "anyone@domain.com"
      = last (List.filter (Spec.matches Examples.catch_all) rs)
    ∧ Extra.processed (Examples.env (Table Examples.catch_all)) None
        (Some Examples.message)
      = Extra.processed (Examples.env (Table Examples.catch_all)) None body.
Proof.
  apply (handler_submits_mapped (Examples.env (Table Examples.catch_all))
           (Examples.notification ["anyone@domain.com"]) None
           Examples.catch_all).
  - reflexivity.
  - reflexivity.
  - vm_compute.
    repeat constructor.
Defined.

Lemma processed_missing (env : Env) (te : option string) :
  Extra.processed env te None = "undefined".
Proof. reflexivity. Qed.

(** X13. When S3 answers with an object that has no body, the stored
    message is undefined and the processor makes the nine characters
    [undefined] of it: with a callback that returns nothing, whatever an
    invocation with the default steps then submits to SES has exactly
    that text as its content. *)
Theorem handler_missing_body (env : Env) (ev : option Event)
    (te : option string) (t : gmap string (list string))
    (dests : option (list string)) (src : option string) (raw : string) :
  FORWARD_MAPPING env = Table t →
  callback_result env None = JUndefined →
  (∀ bucket key, s3_send env bucket key = S3Body None) →
  SendRawEmail dests src raw ∈ handler env ev (Extra.with_to te) →
  raw = "undefined".
Proof.
  intros Hm Hcb Hs3 Hin. unfold handler in Hin.
  cbn [Extra.with_to o_steps default] in Hin.
  destruct (run_steps (default_steps env) _) as [es r] eqn:Hrun.
  apply not_in_finish in Hin.
  destruct (handler_submission env ev te t dests src raw Hm Hcb)
    as (r0 & rs & body & _ & _ & Hbody & _ & _ & _ & ->).
  - fold (Extra.with_to te) in Hrun. rewrite Hrun. exact Hin.
  - rewrite Hs3 in Hbody. injection Hbody as <-. apply processed_missing.
Qed.

Lemma handler_missing_body_witness :
  Extra.processed
    {| FORWARD_MAPPING := Table Examples.catch_all;
       BUCKET_NAME := Some "bucket";
       KEY_PREFIX := Some "inbound/";
       DOMAIN := Some "example.com";
       s3_send := fun _ _ => S3Body None;
       ses_send := fun _ _ _ => true;
       callback_result := fun _ => JUndefined |} None None
  = "undefined".
Proof.
  apply (handler_missing_body
           {| FORWARD_MAPPING := Table Examples.catch_all;
              BUCKET_NAME := Some "bucket";
              KEY_PREFIX := Some "inbound/";
              DOMAIN := Some "example.com";
              s3_send := fun _ _ => S3Body None;
              ses_send := fun _ _ _ => true;
              callback_result := fun _ => JUndefined |}
           (Examples.notification ["anyone@domain.com"]) None
           Examples.catch_all (Some ["catchall@dest.com"])
           (Some "anyone@domain.com")).
  - reflexivity.
  - reflexivity.
  - reflexivity.
  - vm_compute. repeat constructor.
Defined.

(** ** The header rewrites, line by line *)

Section Anchored.
Import Regex Patterns Extra.

Lemma eol_take_i (e r : string) (st : MState) (k : cont) :
  Spec.is_eol e → rest st = e +:+ r →
  rmatch flag_mi eol st k = k (feed e st).
Proof.
  intros [->| ->] Hrest; unfold Str.NL, Str.CRLF in *;
    rewrite ?append_cons, ?append_nil_l in Hrest;
    unfold eol; cbn [rmatch]; rewrite Hrest;
    rewrite (feed_cons _ _ _ _ Hrest).
  - reflexivity.
  - unfold progressed. rewrite Hrest.
    cbn [rest advance String.length feed].
    rewrite (proj2 (Nat.ltb_lt _ _)) by lia.
    change (Char.same (ignoreCase flag_mi) Char.CR Char.CR) with true.
    change (Char.same (ignoreCase flag_mi) Char.LF Char.LF) with true.
    change (Char.same (ignoreCase flag_mi) Char.CR Char.LF) with false.
    cbn. destruct (k _); reflexivity.
Qed.

Lemma prev_feed (x : string) (st : MState) :
  prev (feed x st) = prev_after (prev st) x.
Proof.
  revert st. induction x as [|a x IH]; intros st; [reflexivity|].
  cbn [feed prev_after]. rewrite IH. reflexivity.
Qed.

Lemma feed_mk (x r : string) (p : option ascii) (i : nat)
    (cs : list (nat * (nat * nat))) :
  feed x (mkState p (x +:+ r) i cs)
  = mkState (prev_after p x) r (i + String.length x) cs.
Proof.
  revert p i. induction x as [|a x IH]; intros p i.
  - cbn. rewrite Nat.add_0_r. reflexivity.
  - rewrite append_cons.
    rewrite (feed_cons a x (x +:+ r) (mkState p (String a (x +:+ r)) i cs)
               eq_refl).
    unfold advance. cbn [pos caps]. rewrite IH.
    cbn [prev_after String.length]. rewrite Nat.add_succ_r. reflexivity.
Qed.

Lemma strip_prefix_split (name : string) :
  ∀ s v, strip_prefix name s = Some v →
    ∃ n, s = n +:+ v ∧ String.length n = String.length name.
Proof.
  induction name as [|c name IH]; intros s v H.
  - cbn in H. injection H as <-. exists "". split; reflexivity.
  - cbn [strip_prefix] in H. destruct s as [|a s]; [discriminate|].
    destruct (Char.same true a c); [|discriminate].
    destruct (IH _ _ H) as (n & -> & Hn).
    exists (String a n). split; [reflexivity | cbn; congruence].
Qed.

Lemma strip_prefix_app (name : string) :
  ∀ s v r, strip_prefix name s = Some v →
    strip_prefix name (s +:+ r) = Some (v +:+ r).
Proof.
  induction name as [|c name IH]; intros s v r H.
  - cbn in H. injection H as <-. reflexivity.
  - cbn [strip_prefix] in H. destruct s as [|a s]; [discriminate|].
    rewrite append_cons. cbn [strip_prefix].
    destruct (Char.same true a c); [|discriminate]. apply IH. exact H.
Qed.

Lemma strip_prefix_none_app (name : string) :
  ∀ s r,
    Spec.all (fun c => negb (Char.same true Char.LF c)
                       && negb (Char.same true Char.CR c)) name = true →
    (∃ a r', r = String a r' ∧ (a = Char.LF ∨ a = Char.CR)) →
    strip_prefix name s = None →
    strip_prefix name (s +:+ r) = None.
Proof.
  induction name as [|c name IH]; intros s r Hn Hr H; [discriminate|].
  cbn [Spec.all] in Hn. apply andb_prop in Hn as [Hc Hn].
  apply andb_prop in Hc as [Hlf Hcr]. apply negb_true_iff in Hlf, Hcr.
  destruct s as [|a s].
  - rewrite append_nil_l. destruct Hr as (a & r' & -> & [-> | ->]);
      cbn [strip_prefix]; [rewrite Hlf | rewrite Hcr]; reflexivity.
  - rewrite append_cons. cbn [strip_prefix] in *.
    destruct (Char.same true a c); [|reflexivity]. apply IH; assumption.
Qed.

(** A literal, letter case ignored. *)
Lemma rmatch_lit (name : string) :
  ∀ (st : MState) (k : cont),
    rmatch flag_mi (Lit name) st k
    = match strip_prefix name (rest st) with
      | Some _ => k (feed (Str.take (String.length name) (rest st)) st)
      | None => None
      end.
Proof.
  induction name as [|c name IH]; intros st k.
  - cbn. destruct (rest st); reflexivity.
  - cbn [Lit rmatch strip_prefix]. destruct (rest st) as [|a s] eqn:E;
      [reflexivity|].
    cbn [ignoreCase flag_mi]. destruct (Char.same true a c); [|reflexivity].
    rewrite IH. cbn [rest advance].
    destruct (strip_prefix name s); [|reflexivity].
    cbn [String.length Str.take String.substring].
    unfold Str.take. cbn [feed]. rewrite E. reflexivity.
Qed.

Lemma exec_from_ge (fl : flags) (r : regex) (s : string) :
  ∀ (p : option ascii) (i start : nat) (res : MState),
    exec_from fl r p s i = Some (start, res) → i ≤ start.
Proof.
  induction s as [|c s IH]; intros p i start res H; cbn [exec_from] in H;
    destruct (rmatch fl r _ Some) as [res'|].
  - injection H as <- _. lia.
  - discriminate.
  - injection H as <- _. lia.
  - apply IH in H. lia.
Qed.

Lemma substring_app_skip (x s : string) (m : nat) :
  String.substring 0 (String.length x + m) (x +:+ s)
  = x +:+ String.substring 0 m s.
Proof.
  induction x as [|a x IH]; [rewrite !append_nil_l; reflexivity|].
  rewrite !append_cons. cbn [String.length Nat.add String.substring].
  rewrite IH. reflexivity.
Qed.

(** A stretch of the input in which the pattern matches nowhere is
    copied by the global replacement. *)
Lemma replace_loop_skip (fl : flags) (r : regex) (f : MatchInfo → string)
    (input x s : string) (fuel : nat) (p p' : option ascii) (i : nat) :
  exec_from fl r p (x +:+ s) i = exec_from fl r p' s (i + String.length x) →
  replace_loop fl r f input fuel p (x +:+ s) i
  = x +:+ replace_loop fl r f input fuel p' s (i + String.length x).
Proof.
  intros H. destruct fuel as [|fuel]; [reflexivity|].
  cbn [replace_loop]. rewrite H.
  destruct (exec_from fl r p' s _) as [[start res]|] eqn:E; [|reflexivity].
  apply exec_from_ge in E.
  replace (start - i) with (String.length x + (start - (i + String.length x)))
    by lia.
  rewrite substring_app_skip.
  destruct (pos res =? start).
  - destruct (rest res); rewrite !append_assoc; reflexivity.
  - rewrite !append_assoc. reflexivity.
Qed.

End Anchored.

Section Field.
Import Regex Patterns Extra.
Variable name : string.
Variable R : regex.
Hypothesis Hname : field_name name = true.

Lemma anchored_at (st : MState) (k : cont) :
  rmatch flag_mi (anchored name R) st k
  = if at_line_start flag_mi st then
      match strip_prefix name (rest st) with
      | Some _ =>
          rmatch flag_mi R
            (feed (Str.take (String.length name) (rest st)) st) k
      | None => None
      end
    else None.
Proof.
  unfold anchored. cbn [rmatch]. rewrite rmatch_lit. reflexivity.
Qed.

Lemma anchored_inside (a : ascii) (s : string) (i : nat) :
  Char.isLineTerminator a = false →
  rmatch flag_mi (anchored name R) (mkState (Some a) s i []) Some = None.
Proof.
  intros Ha. rewrite anchored_at. unfold at_line_start.
  cbn [prev multiline flag_mi andb]. rewrite Ha. reflexivity.
Qed.

Lemma field_name_all :
  Spec.all (fun c => negb (Char.same true Char.LF c)
                     && negb (Char.same true Char.CR c)) name = true.
Proof. unfold field_name in Hname. destruct name; [discriminate | exact Hname]. Qed.

Lemma anchored_lf (p : option ascii) (s : string) (i : nat) :
  rmatch flag_mi (anchored name R) (mkState p (String Char.LF s) i []) Some
  = None.
Proof.
  rewrite anchored_at. destruct (at_line_start _ _); [|reflexivity].
  cbn [rest]. pose proof field_name_all as H.
  destruct name as [|c n]; [discriminate|].
  cbn [Spec.all] in H. apply andb_prop in H as [H _].
  apply andb_prop in H as [H _]. apply negb_true_iff in H.
  cbn [strip_prefix]. rewrite H. reflexivity.
Qed.

Lemma anchored_end (p : option ascii) (i : nat) :
  rmatch flag_mi (anchored name R) (mkState p "" i []) Some = None.
Proof.
  rewrite anchored_at. destruct (at_line_start _ _); [|reflexivity].
  cbn [rest]. unfold field_name in Hname.
  destruct name; [discriminate | reflexivity].
Qed.

(** From inside a line, the search moves on to the next line. *)
Lemma exec_line_tail (c : string) :
  ∀ (a : ascii) (e nxt : string) (i : nat),
    Spec.all Char.isDot c = true → Char.isLineTerminator a = false →
    Spec.is_eol e →
    exec_from flag_mi (anchored name R) (Some a) (c +:+ e +:+ nxt) i
    = exec_from flag_mi (anchored name R) (Some Char.LF) nxt
        (i + String.length (c +:+ e)).
Proof.
  induction c as [|d c IH]; intros a e nxt i Hc Ha He.
  - rewrite !append_nil_l.
    destruct He as [-> | ->]; unfold Str.NL, Str.CRLF;
      rewrite ?append_cons, ?append_nil_l.
    + rewrite exec_from_next by (apply anchored_inside; exact Ha).
      cbn [String.length]. rewrite Nat.add_1_r. reflexivity.
    + rewrite exec_from_next by (apply anchored_inside; exact Ha).
      rewrite exec_from_next by apply anchored_lf.
      cbn [String.length]. replace (i + 2) with (S (S i)) by lia.
      reflexivity.
  - cbn [Spec.all] in Hc. apply andb_prop in Hc as [Hd Hc].
    rewrite !append_cons.
    rewrite exec_from_next by (apply anchored_inside; exact Ha).
    rewrite (IH d e nxt (S i) Hc); [| |exact He].
    + cbn [String.length]. rewrite Nat.add_succ_r. reflexivity.
    + unfold Char.isDot in Hd. apply negb_true_iff in Hd. exact Hd.
Qed.

Lemma header_line_inv (c e : string) :
  header_line (c, e) = true →
  Spec.all Char.isDot c = true
  ∧ (∃ a c', c = String a c' ∧ Char.isLineTerminator a = false)
  ∧ Spec.is_eol e.
Proof.
  unfold header_line. cbn [fst snd]. intros H.
  apply andb_prop in H as [H He]. apply andb_prop in H as [Hc Ha].
  split; [exact Hc|]. split.
  - destruct c as [|a c']; [discriminate|]. exists a, c'.
    cbn [Spec.all] in Hc. apply andb_prop in Hc as [Hd _].
    unfold Char.isDot in Hd. apply negb_true_iff in Hd. auto.
  - apply orb_prop in He as [He|He]; apply String.eqb_eq in He; subst;
      [left | right]; reflexivity.
Qed.

Lemma eol_starts_lt (e r : string) :
  Spec.is_eol e →
  ∃ a r', e +:+ r = String a r' ∧ (a = Char.LF ∨ a = Char.CR).
Proof.
  intros [-> | ->]; unfold Str.NL, Str.CRLF; rewrite ?append_cons; eauto.
Qed.

(** A line that does not start with the field name is passed over. *)
Lemma exec_keep_line (c e nxt : string) (p : option ascii) (i : nat) :
  header_line (c, e) = true → strip_prefix name c = None →
  exec_from flag_mi (anchored name R) p (c +:+ e +:+ nxt) i
  = exec_from flag_mi (anchored name R) (Some Char.LF) nxt
      (i + String.length (c +:+ e)).
Proof.
  intros Hl Hs.
  destruct (header_line_inv c e Hl) as (Hc & (a & c' & -> & Ha) & He).
  assert (Hnone : strip_prefix name (String a c' +:+ e +:+ nxt) = None).
  { apply strip_prefix_none_app;
      [apply field_name_all | apply eol_starts_lt; exact He | exact Hs]. }
  rewrite !append_cons in *.
  rewrite exec_from_next.
  - cbn [Spec.all] in Hc. apply andb_prop in Hc as [_ Hc].
    rewrite (exec_line_tail c' a e nxt (S i) Hc Ha He).
    cbn [String.length]. rewrite Nat.add_succ_r. reflexivity.
  - rewrite anchored_at. destruct (at_line_start _ _); [|reflexivity].
    cbn [rest]. rewrite Hnone. reflexivity.
Qed.

Lemma starts_field_outside (ls : list Line) :
  header ls = true → starts_field ls = true →
  starts_outside Char.isWhiteSpace (unlines ls).
Proof.
  destruct ls as [|[c e] ls]; [left; reflexivity|].
  cbn [header forallb starts_field]. intros H Hs.
  apply andb_prop in H as [H _].
  destruct (header_line_inv c e H) as (_ & (a & c' & -> & _) & _).
  unfold continuation in Hs. cbn [fst] in Hs. apply negb_true_iff in Hs.
  right. exists a. eexists. split; [|exact Hs].
  cbn [unlines]. unfold line_text. cbn [fst snd]. rewrite !append_cons.
  reflexivity.
Qed.

(** No line starts with the field name: the pattern matches nowhere. *)
Lemma exec_lines_none (ls : list Line) :
  ∀ (p : option ascii) (i : nat),
    header ls = true →
    existsb (is_field name) ls = false →
    exec_from flag_mi (anchored name R) p (unlines ls) i = None.
Proof.
  induction ls as [|[c e] ls IH]; intros p i Hp Hn.
  - cbn [unlines exec_from]. rewrite anchored_end. reflexivity.
  - cbn [header forallb] in Hp. apply andb_prop in Hp as [Hl Hp].
    cbn [existsb] in Hn. apply orb_false_elim in Hn as [Hf Hn].
    unfold is_field in Hf. cbn [fst] in Hf.
    destruct (strip_prefix name c) eqn:Hs; [discriminate|].
    cbn [unlines]. unfold line_text. cbn [fst snd]. rewrite append_assoc.
    rewrite (exec_keep_line c e _ p i Hl Hs). apply IH; assumption.
Qed.

End Field.

Section Pass.
Import Regex Patterns Extra.
Variable name : string.
Variable R : regex.
Variable f : MatchInfo → string.
Variable newtext : Line → string.
Variable need : bool.
Hypothesis Hname : field_name name = true.

(** What the pattern does on a line that starts with the field name: it
    matches the text of the line and leaves its terminator, or it
    matches the line with its terminator.  With [need], this is so when
    no continuation line follows. *)
Hypothesis Htake :
  ∀ (c e v0 nxt before : string) (p : option ascii),
    header_line (c, e) = true → strip_prefix name c = Some v0 →
    (need = true → starts_outside Char.isWhiteSpace nxt) →
    at_line_start flag_mi
      (mkState p (c +:+ e +:+ nxt) (String.length before) []) = true →
    ∃ res,
      rmatch flag_mi (anchored name R)
        (mkState p (c +:+ e +:+ nxt) (String.length before) []) Some
      = Some res
      ∧ ((rest res = e +:+ nxt
          ∧ pos res = String.length before + String.length c
          ∧ (∃ a, prev res = Some a ∧ Char.isLineTerminator a = false)
          ∧ f (info (before +:+ c +:+ e +:+ nxt) (String.length before) res)
              +:+ e
            = newtext (c, e))
         ∨ (rest res = nxt
            ∧ pos res = String.length before + String.length (c +:+ e)
            ∧ prev res = Some Char.LF
            ∧ f (info (before +:+ c +:+ e +:+ nxt) (String.length before) res)
              = newtext (c, e))).

Lemma pass_loop (ls : list Line) :
  ∀ (fuel : nat) (before : string) (p : option ascii),
    header ls = true →
    (need = true → unfolded name ls = true) →
    String.length (unlines ls) < fuel →
    at_line_start flag_mi
      (mkState p (unlines ls) (String.length before) []) = true →
    replace_loop flag_mi (anchored name R) f (before +:+ unlines ls) fuel p
      (unlines ls) (String.length before)
    = map_lines (fun l => if is_field name l then newtext l else line_text l)
        ls.
Proof.
  induction ls as [|[c e] ls IH]; intros fuel before p Hp Hu Hfuel Hstart.
  - destruct fuel as [|fuel]; [cbn in Hfuel; lia|].
    cbn [unlines replace_loop exec_from map_lines].
    rewrite (anchored_end name R Hname). reflexivity.
  - cbn [header forallb] in Hp. apply andb_prop in Hp as [Hl Hp].
    destruct (header_line_inv c e Hl) as (Hc & (a0 & c0 & Ec & _) & He).
    assert (He1 : 1 ≤ String.length e)
      by (destruct He as [-> | ->]; cbn; lia).
    assert (Hc1 : 1 ≤ String.length c) by (rewrite Ec; cbn; lia).
    assert (Hu' : need = true → unfolded name ls = true).
    { intros Hn. specialize (Hu Hn). cbn [unfolded] in Hu.
      apply andb_prop in Hu as [_ Hu]. exact Hu. }
    assert (Hstop : need = true → is_field name (c, e) = true →
                    starts_outside Char.isWhiteSpace (unlines ls)).
    { intros Hn Hf. specialize (Hu Hn). cbn [unfolded] in Hu.
      apply andb_prop in Hu as [Hu _]. rewrite Hf in Hu. cbn [negb orb] in Hu.
      apply starts_field_outside; assumption. }
    clear Hu.
    cbn [unlines map_lines] in *. unfold line_text in *. cbn [fst snd] in *.
    rewrite append_assoc in *. rewrite !length_append in Hfuel.
    unfold is_field in *. cbn [fst] in *.
    assert (Hnext :
      ∀ fuel', String.length (unlines ls) < fuel' →
        replace_loop flag_mi (anchored name R) f
          (before +:+ c +:+ e +:+ unlines ls) fuel' (Some Char.LF)
          (unlines ls) (String.length before + String.length (c +:+ e))
        = map_lines
            (fun l => if is_field name l then newtext l else line_text l) ls).
    { intros fuel' Hf'.
      pose proof (IH fuel' (before +:+ c +:+ e) (Some Char.LF) Hp Hu' Hf'
                    eq_refl) as H.
      rewrite !append_assoc in H. rewrite !length_append in H.
      rewrite length_append. exact H. }
    destruct (strip_prefix name c) as [v0|] eqn:Hs.
    + destruct (Htake c e v0 (unlines ls) before p Hl Hs
                  (fun Hn => Hstop Hn eq_refl) Hstart) as (res & Hm & Hres).
      destruct fuel as [|fuel]; [lia|].
      cbn [replace_loop]. rewrite (exec_from_here _ _ _ _ _ _ Hm).
      rewrite Nat.sub_diag.
      replace (String.substring 0 0 (c +:+ e +:+ unlines ls)) with ""
        by (destruct (c +:+ e +:+ unlines ls); reflexivity).
      rewrite append_nil_l.
      destruct Hres as [(Hr & Hpos & (a & Hprev & Ha) & Hf)
                       |(Hr & Hpos & Hprev & Hf)].
      * rewrite (proj2 (Nat.eqb_neq _ _)) by lia.
        rewrite Hr, Hprev, Hpos.
        pose proof (exec_line_tail name R Hname "" a e (unlines ls)
                      (String.length before + String.length c) eq_refl Ha He)
          as Hskip.
        rewrite !append_nil_l in Hskip.
        rewrite (replace_loop_skip _ _ _ _ _ _ _ _ _ _ Hskip).
        rewrite <- Nat.add_assoc, <- length_append.
        rewrite Hnext by lia.
        rewrite <- Hf, !append_assoc. reflexivity.
      * rewrite (proj2 (Nat.eqb_neq _ _)) by (rewrite length_append in Hpos; lia).
        rewrite Hr, Hprev, Hpos. rewrite Hnext by lia.
        rewrite Hf. reflexivity.
    + pose proof (replace_loop_skip flag_mi (anchored name R) f
                    (before +:+ c +:+ e +:+ unlines ls) (c +:+ e)
                    (unlines ls) fuel p (Some Char.LF) (String.length before))
        as Hskip.
      rewrite append_assoc in Hskip. rewrite Hskip.
      * rewrite Hnext by lia. rewrite ?append_assoc. reflexivity.
      * apply (exec_keep_line name R Hname c e _ p _ Hl Hs).
Qed.

(** The global replacement on a header works line by line. *)
Lemma pass_all (ls : list Line) :
  header ls = true →
  (need = true → unfolded name ls = true) →
  replace_all flag_mi (anchored name R) f (unlines ls)
  = map_lines (fun l => if is_field name l then newtext l else line_text l)
      ls.
Proof.
  intros Hp Hu. unfold replace_all.
  apply (pass_loop ls (S (String.length (unlines ls))) "" None Hp Hu);
    [lia | reflexivity].
Qed.

End Pass.

Section FieldTail.
Import Regex Patterns Extra.

Lemma prev_after_dot (c : string) :
  ∀ p, Spec.all Char.isDot c = true → c ≠ "" →
    ∃ a, prev_after p c = Some a ∧ Char.isLineTerminator a = false.
Proof.
  induction c as [|a c IH]; intros p Hc Hne; [congruence|].
  cbn [Spec.all] in Hc. apply andb_prop in Hc as [Ha Hc].
  destruct c as [|b c].
  - exists a. split; [reflexivity|].
    unfold Char.isDot in Ha. apply negb_true_iff in Ha. exact Ha.
  - cbn [prev_after]. apply (IH (Some a) Hc). discriminate.
Qed.

Lemma tabsp_split (v : string) : v = tabsp_part v +:+ drop_tabsp v.
Proof.
  destruct v as [|a v]; [reflexivity|]. cbn.
  destruct (Char.isTabOrSpace a); reflexivity.
Qed.

(** [[\\t ]?] before a value that a line terminator follows. *)
Lemma rmatch_tabsp (v0 rr : string) (st : MState) (k : cont) (x : MState) :
  rest st = v0 +:+ rr →
  (∃ a r', rr = String a r' ∧ (a = Char.LF ∨ a = Char.CR)) →
  k (feed (tabsp_part v0) st) = Some x →
  rmatch flag_mi tabsp st k = Some x.
Proof.
  intros Hrest (b & r' & -> & Hb) Hk. unfold tabsp. cbn [rmatch].
  destruct v0 as [|a v].
  - rewrite append_nil_l in Hrest. rewrite Hrest.
    replace (Char.isTabOrSpace b) with false
      by (destruct Hb as [-> | ->]; reflexivity).
    exact Hk.
  - rewrite append_cons in Hrest. rewrite Hrest.
    cbn [tabsp_part] in Hk. destruct (Char.isTabOrSpace a).
    + unfold progressed. rewrite Hrest. cbn [rest advance String.length].
      rewrite (proj2 (Nat.ltb_lt _ _)) by lia.
      rewrite (feed_cons _ _ _ _ Hrest) in Hk. cbn [feed] in Hk.
      rewrite Hk. reflexivity.
    + exact Hk.
Qed.

Lemma any_take (v rr : string) (st : MState) (k : cont) (x : MState) :
  rest st = v +:+ rr → Spec.all Char.isDot v = true →
  starts_outside Char.isDot rr →
  k (feed v st) = Some x →
  rmatch flag_mi any st k = Some x.
Proof.
  intros Hrest Hv Hrr Hk. unfold any, dot. cbn [rmatch].
  apply (star_cls_greedy flag_mi Char.isDot v rr); try assumption. lia.
Qed.

Lemma ws_plus_fail_i (st : MState) (k : cont) :
  starts_outside Char.isWhiteSpace (rest st) →
  rmatch flag_mi (Plus ws) st k = None.
Proof.
  intros [H|(a & s & H & Ha)]; unfold Plus; cbn [rmatch]; unfold ws at 1.
  - apply rmatch_cls_nil. exact H.
  - rewrite (rmatch_cls flag_mi _ _ _ _ _ H), Ha. reflexivity.
Qed.

(** After the value of an unfolded line no continuation line follows. *)
Lemma folded_stop (e nxt : string) (st : MState) (k : cont) :
  rest st = e +:+ nxt → Spec.is_eol e →
  starts_outside Char.isWhiteSpace nxt →
  rmatch flag_mi (Star true (Seq eol (Seq (Plus ws) any))) st k = k st.
Proof.
  intros Hrest He Hn. cbn [rmatch star_loop].
  fold (rmatch flag_mi eol) (rmatch flag_mi (Plus ws)).
  rewrite (eol_take_i e nxt st _ He Hrest).
  rewrite ws_plus_fail_i; [reflexivity|].
  rewrite (feed_rest e nxt st Hrest). exact Hn.
Qed.

Lemma dkim_stop (nxt : string) (st : MState) (k : cont) :
  rest st = nxt → starts_outside Char.isWhiteSpace nxt →
  rmatch flag_mi (Star true (Grp 1 (Seq (Plus ws) (Seq any eol)))) st k
  = k st.
Proof.
  intros Hrest Hn. cbn [rmatch star_loop].
  fold (rmatch flag_mi (Plus ws)).
  rewrite ws_plus_fail_i; [reflexivity|]. rewrite Hrest. exact Hn.
Qed.

Lemma substring_mid (a b c : string) :
  String.substring (String.length a) (String.length b) (a +:+ b +:+ c) = b.
Proof. rewrite substring_skip. apply substring_prefix. Qed.

End FieldTail.

Section FieldTake.
Import Regex Patterns Extra.
Variable name : string.
Variable R : regex.
Hypothesis Hname : field_name name = true.

(** At the start of a line that starts with the field name, the pattern
    goes on after the name and one tab or space, if there is one. *)
Lemma anchored_tabsp (c e v0 nxt : string) (st : MState) :
  header_line (c, e) = true → strip_prefix name c = Some v0 →
  at_line_start flag_mi st = true →
  rest st = c +:+ e +:+ nxt →
  ∃ n,
    c = n +:+ tabsp_part v0 +:+ drop_tabsp v0
    ∧ ∀ x,
        rmatch flag_mi R (feed (n +:+ tabsp_part v0) st) Some = Some x →
        rmatch flag_mi (anchored name (Seq tabsp R)) st Some = Some x.
Proof.
  intros Hl Hs Hstart Hrest.
  destruct (strip_prefix_split _ _ _ Hs) as (n & Hc & Hn).
  destruct (header_line_inv c e Hl) as (_ & _ & He).
  exists n. split; [rewrite <- tabsp_split; exact Hc|].
  intros x Hx. rewrite anchored_at, Hstart, Hrest.
  rewrite (strip_prefix_app _ _ _ (e +:+ nxt) Hs).
  assert (Htake : Str.take (String.length name) (c +:+ e +:+ nxt) = n).
  { unfold Str.take. rewrite Hc, <- Hn, append_assoc.
    apply substring_prefix. }
  rewrite Htake. cbn [rmatch].
  apply (rmatch_tabsp v0 (e +:+ nxt)).
  - apply feed_rest. rewrite Hrest, Hc, append_assoc. reflexivity.
  - apply eol_starts_lt. exact He.
  - rewrite <- feed_app. exact Hx.
Qed.

End FieldTake.

Section FieldStates.
Import Regex Patterns Extra.

Lemma prev_after_app (x y : string) :
  ∀ p, prev_after (prev_after p x) y = prev_after p (x +:+ y).
Proof.
  induction x as [|a x IH]; intros p; [reflexivity|].
  rewrite append_cons. cbn [prev_after]. apply IH.
Qed.

Lemma prev_after_eol (e : string) (p : option ascii) :
  Spec.is_eol e → prev_after p e = Some Char.LF.
Proof. intros [-> | ->]; reflexivity. Qed.

(** The states of a match on a line [n t v e]: after the field name and
    one tab or space, after the value, after the line terminator. *)
Lemma feed_name (n t v e nxt : string) (p : option ascii) (i : nat) :
  feed (n +:+ t) (mkState p ((n +:+ t +:+ v) +:+ e +:+ nxt) i [])
  = mkState (prev_after p (n +:+ t)) (v +:+ e +:+ nxt)
      (i + String.length (n +:+ t)) [].
Proof.
  rewrite <- feed_mk. rewrite !append_assoc. reflexivity.
Qed.

Lemma feed_value (n t v e nxt : string) (p : option ascii) (i : nat)
    (cs : list (nat * (nat * nat))) :
  feed v (mkState (prev_after p (n +:+ t)) (v +:+ e +:+ nxt)
            (i + String.length (n +:+ t)) cs)
  = mkState (prev_after p (n +:+ t +:+ v)) (e +:+ nxt)
      (i + String.length (n +:+ t +:+ v)) cs.
Proof.
  rewrite feed_mk, prev_after_app.
  rewrite <- (append_assoc n t v), (length_append (n +:+ t) v), Nat.add_assoc.
  reflexivity.
Qed.

Lemma feed_eol (c e nxt : string) (p : option ascii) (i : nat)
    (cs : list (nat * (nat * nat))) :
  Spec.is_eol e →
  feed e (mkState (prev_after p c) (e +:+ nxt) (i + String.length c) cs)
  = mkState (Some Char.LF) nxt (i + String.length (c +:+ e)) cs.
Proof.
  intros He. rewrite feed_mk, (prev_after_eol e _ He), length_append.
  rewrite Nat.add_assoc. reflexivity.
Qed.

Lemma expand_plain (tpl : string) (mi : MatchInfo) :
  Spec.count "$" tpl = 0 → Template.expand tpl mi = tpl.
Proof.
  induction tpl as [|c tpl IH]; [reflexivity|]. intros H.
  apply count_cons_zero in H as [Hc H]. specialize (IH H).
  destruct c as [[] [] [] [] [] [] [] []];
    try (exfalso; apply Hc; reflexivity);
    cbn [Template.expand]; rewrite IH; reflexivity.
Qed.

End FieldStates.

Section Takes.
Import Regex Patterns Extra Forwarder.

(** [to_value] on a line that starts with [to:]. *)
Lemma to_value_take (te : string) :
  Spec.count "$" te = 0 →
  ∀ (c e v0 nxt before : string) (p : option ascii),
    header_line (c, e) = true → strip_prefix "to:" c = Some v0 →
    (false = true → starts_outside Char.isWhiteSpace nxt) →
    at_line_start flag_mi
      (mkState p (c +:+ e +:+ nxt) (String.length before) []) = true →
    ∃ res,
      rmatch flag_mi (anchored "to:" (Seq tabsp (Grp 1 any)))
        (mkState p (c +:+ e +:+ nxt) (String.length before) []) Some
      = Some res
      ∧ ((rest res = e +:+ nxt
          ∧ pos res = String.length before + String.length c
          ∧ (∃ a, prev res = Some a ∧ Char.isLineTerminator a = false)
          ∧ Template.expand ("To: " +:+ te)
              (info (before +:+ c +:+ e +:+ nxt) (String.length before) res)
              +:+ e
            = (fun l : Line => "To: " +:+ te +:+ snd l) (c, e))
         ∨ (rest res = nxt
            ∧ pos res = String.length before + String.length (c +:+ e)
            ∧ prev res = Some Char.LF
            ∧ Template.expand ("To: " +:+ te)
                (info (before +:+ c +:+ e +:+ nxt) (String.length before) res)
              = (fun l : Line => "To: " +:+ te +:+ snd l) (c, e))).
Proof.
  intros Hte c e v0 nxt before p Hl Hs Hn Hstart.
  destruct (header_line_inv c e Hl) as (Hc & (a0 & c0 & Ec & _) & He).
  destruct (anchored_tabsp "to:" (Grp 1 any) c e v0 nxt _ Hl Hs
              Hstart eq_refl) as (n & Hcn & Hm).
  set (t := tabsp_part v0) in *. set (v := drop_tabsp v0) in *.
  assert (Hv : Spec.all Char.isDot v = true).
  { rewrite Hcn, !all_app in Hc. apply andb_prop in Hc as [_ Hc].
    apply andb_prop in Hc as [_ Hc]. exact Hc. }
  assert (Hne : n +:+ t +:+ v ≠ "") by (rewrite <- Hcn, Ec; discriminate).
  clear Ec. subst c.
  eexists. split.
  { apply Hm. rewrite feed_name. cbn [rmatch].
    apply (any_take v (e +:+ nxt)); [reflexivity | exact Hv | | reflexivity].
    apply eol_starts_outside. exact He. }
  left. rewrite feed_value. cbn [rest pos prev set_cap].
  split_and!; [reflexivity | reflexivity | |].
  - apply prev_after_dot; assumption.
  - rewrite expand_plain; [rewrite append_assoc; reflexivity|].
    rewrite count_app. cbn. exact Hte.
Qed.

Lemma group_value (before n t v r : string) :
  String.substring (String.length before + String.length (n +:+ t))
    (String.length before + String.length (n +:+ t +:+ v)
     - (String.length before + String.length (n +:+ t)))
    (before +:+ (n +:+ t +:+ v) +:+ r)
  = v.
Proof.
  replace (String.length before + String.length (n +:+ t +:+ v)
           - (String.length before + String.length (n +:+ t)))
    with (String.length v)
    by (rewrite <- (append_assoc n t v), (length_append (n +:+ t) v); lia).
  rewrite <- length_append.
  replace (before +:+ (n +:+ t +:+ v) +:+ r)
    with ((before +:+ n +:+ t) +:+ v +:+ r)
    by (rewrite !append_assoc; reflexivity).
  apply substring_mid.
Qed.

Lemma rewrite_from_group1 (fromEmail v : string) (mi : MatchInfo) :
  m_group1 mi = Some v →
  rewrite_from fromEmail mi
  = rewrite_from fromEmail
      {| m_text := ""; m_group1 := Some v; m_before := ""; m_after := "" |}.
Proof.
  intros H. unfold rewrite_from, Template.group1. rewrite H. reflexivity.
Qed.

(** [from_value] on a line that starts with [from:]. *)
Lemma from_value_take (env : Env) :
  ∀ (c e v0 nxt before : string) (p : option ascii),
    header_line (c, e) = true → strip_prefix "from:" c = Some v0 →
    (true = true → starts_outside Char.isWhiteSpace nxt) →
    at_line_start flag_mi
      (mkState p (c +:+ e +:+ nxt) (String.length before) []) = true →
    ∃ res,
      rmatch flag_mi (anchored "from:" (Seq tabsp (Grp 1 folded)))
        (mkState p (c +:+ e +:+ nxt) (String.length before) []) Some
      = Some res
      ∧ ((rest res = e +:+ nxt
          ∧ pos res = String.length before + String.length c
          ∧ (∃ a, prev res = Some a ∧ Char.isLineTerminator a = false)
          ∧ rewrite_from ("noreply@" +:+ Str.show (DOMAIN env))
              (info (before +:+ c +:+ e +:+ nxt) (String.length before) res)
              +:+ e
            = (fun l : Line =>
                 default "" (from_field env <$> field "from:" l) +:+ snd l)
                (c, e))
         ∨ (rest res = nxt
            ∧ pos res = String.length before + String.length (c +:+ e)
            ∧ prev res = Some Char.LF
            ∧ rewrite_from ("noreply@" +:+ Str.show (DOMAIN env))
                (info (before +:+ c +:+ e +:+ nxt) (String.length before) res)
              = (fun l : Line =>
                   default "" (from_field env <$> field "from:" l) +:+ snd l)
                  (c, e))).
Proof.
  intros c e v0 nxt before p Hl Hs Hn Hstart.
  specialize (Hn eq_refl).
  destruct (header_line_inv c e Hl) as (Hc & (a0 & c0 & Ec & _) & He).
  destruct (anchored_tabsp "from:" (Grp 1 folded) c e v0 nxt _ Hl Hs
              Hstart eq_refl) as (n & Hcn & Hm).
  unfold field. cbn [fst snd]. rewrite Hs. cbn [fmap option_fmap option_map default].
  set (t := tabsp_part v0) in *. set (v := drop_tabsp v0) in *.
  assert (Hv : Spec.all Char.isDot v = true).
  { rewrite Hcn, !all_app in Hc. apply andb_prop in Hc as [_ Hc].
    apply andb_prop in Hc as [_ Hc]. exact Hc. }
  assert (Hne : n +:+ t +:+ v ≠ "") by (rewrite <- Hcn, Ec; discriminate).
  clear Ec Hs. subst c.
  eexists. split.
  { apply Hm. rewrite feed_name. unfold folded. cbn [rmatch].
    fold (rmatch flag_mi any).
    apply (any_take v (e +:+ nxt)); [reflexivity | exact Hv | |].
    - apply eol_starts_outside. exact He.
    - rewrite feed_value.
      change (star_loop ?m true ?f ?st ?k)
        with (rmatch flag_mi (Star true (Seq eol (Seq (Plus ws) any))) st k).
      rewrite folded_stop with (e := e) (nxt := nxt);
        [reflexivity | reflexivity | exact He | exact Hn]. }
  left. cbn [rest pos prev set_cap].
  split_and!; [reflexivity | reflexivity | |].
  - apply prev_after_dot; assumption.
  - f_equal. unfold from_field. apply rewrite_from_group1.
    unfold info. cbn [m_group1]. unfold group.
    cbn [caps set_cap lookup_cap Nat.eqb pos]. f_equal.
    apply group_value.
Qed.

(** [whole_line name] on a line that starts with [name]. *)
Lemma whole_line_take (name : string) :
  field_name name = true →
  ∀ (c e v0 nxt before : string) (p : option ascii),
    header_line (c, e) = true → strip_prefix name c = Some v0 →
    (false = true → starts_outside Char.isWhiteSpace nxt) →
    at_line_start flag_mi
      (mkState p (c +:+ e +:+ nxt) (String.length before) []) = true →
    ∃ res,
      rmatch flag_mi (anchored name (Seq tabsp (Seq (Grp 1 any) eol)))
        (mkState p (c +:+ e +:+ nxt) (String.length before) []) Some
      = Some res
      ∧ ((rest res = e +:+ nxt
          ∧ pos res = String.length before + String.length c
          ∧ (∃ a, prev res = Some a ∧ Char.isLineTerminator a = false)
          ∧ (fun _ : MatchInfo => "")
              (info (before +:+ c +:+ e +:+ nxt) (String.length before) res)
              +:+ e
            = (fun _ : Line => "") (c, e))
         ∨ (rest res = nxt
            ∧ pos res = String.length before + String.length (c +:+ e)
            ∧ prev res = Some Char.LF
            ∧ (fun _ : MatchInfo => "")
                (info (before +:+ c +:+ e +:+ nxt) (String.length before) res)
              = (fun _ : Line => "") (c, e))).
Proof.
  intros Hname c e v0 nxt before p Hl Hs Hn Hstart.
  destruct (header_line_inv c e Hl) as (Hc & _ & He).
  destruct (anchored_tabsp name (Seq (Grp 1 any) eol) c e v0 nxt _ Hl Hs
              Hstart eq_refl) as (n & Hcn & Hm).
  set (t := tabsp_part v0) in *. set (v := drop_tabsp v0) in *.
  assert (Hv : Spec.all Char.isDot v = true).
  { rewrite Hcn, !all_app in Hc. apply andb_prop in Hc as [_ Hc].
    apply andb_prop in Hc as [_ Hc]. exact Hc. }
  clear Hs. subst c.
  eexists. split.
  { apply Hm. rewrite feed_name. cbn [rmatch].
    fold (rmatch flag_mi any) (rmatch flag_mi eol).
    apply (any_take v (e +:+ nxt)); [reflexivity | exact Hv | |].
    - apply eol_starts_outside. exact He.
    - rewrite feed_value. unfold set_cap. cbn [prev rest pos caps].
      rewrite eol_take_i with (e := e) (r := nxt);
        [| exact He | reflexivity].
      rewrite (feed_eol _ e nxt p _ _ He). reflexivity. }
  right. cbn [rest pos prev]. split_and!; reflexivity.
Qed.

End Takes.

Section Lines.
Import Regex Patterns Extra Forwarder.

Lemma unlines_app (a b : list Line) :
  unlines (a ++ b) = unlines a +:+ unlines b.
Proof.
  induction a as [|l a IH]; [reflexivity|].
  cbn [app unlines]. rewrite IH, append_assoc. reflexivity.
Qed.

Lemma map_lines_unlines (g : Line → string) (h : Line → list Line)
    (ls : list Line) :
  (∀ l, g l = unlines (h l)) →
  map_lines g ls = unlines (flat_map h ls).
Proof.
  intros H. induction ls as [|l ls IH]; [reflexivity|].
  cbn [map_lines flat_map]. rewrite unlines_app, H, IH. reflexivity.
Qed.

Lemma header_flat_map (h : Line → list Line) (ls : list Line) :
  (∀ l, header_line l = true → header (h l) = true) →
  header ls = true → header (flat_map h ls) = true.
Proof.
  intros H. induction ls as [|l ls IH]; [reflexivity|].
  cbn [header forallb flat_map]. intros Hp. apply andb_prop in Hp as [Hl Hp].
  unfold header. rewrite forallb_app. apply andb_true_intro.
  split; [apply H; exact Hl | apply IH; exact Hp].
Qed.

Lemma unlines_one (l : Line) : unlines [l] = line_text l.
Proof. cbn. apply append_nil_r. Qed.

Lemma reach_suffix (fl : flags) (r : regex) (st st' : MState) :
  reach fl r st st' → ∃ x, rest st = x +:+ rest st'.
Proof.
  induction 1 as [st|c a s st Hr _|p a s st Hr _|st _
                 |r1 r2 st st1 st2 _ [x1 H1] _ [x2 H2]|r st
                 |r st st' _ IH|g r st
                 |g r st st1 st2 _ [x1 H1] _ [x2 H2]|n r st st' _ IH];
    try (exists ""; reflexivity); try exact IH.
  - exists (String a ""). rewrite Hr. reflexivity.
  - exists (String a ""). rewrite Hr. reflexivity.
  - exists (x1 +:+ x2). rewrite H1, H2, append_assoc. reflexivity.
  - exists (x1 +:+ x2). rewrite H1, H2, append_assoc. reflexivity.
Qed.

Lemma exec_from_suffix (fl : flags) (r : regex) (s : string) :
  ∀ (p : option ascii) (i start : nat) (res : MState),
    exec_from fl r p s i = Some (start, res) → ∃ x, s = x +:+ rest res.
Proof.
  induction s as [|c s IH]; intros p i start res H; cbn [exec_from] in H;
    destruct (rmatch fl r _ Some) as [res'|] eqn:E.
  - injection H as _ <-. apply rmatch_sound in E as (st' & Rch & [= <-]).
    apply reach_suffix in Rch. exact Rch.
  - discriminate.
  - injection H as _ <-. apply rmatch_sound in E as (st' & Rch & [= <-]).
    apply reach_suffix in Rch. exact Rch.
  - apply IH in H as [x ->]. exists (String c x). reflexivity.
Qed.

Lemma all_substring0 (p : ascii → bool) (s : string) :
  ∀ n, Spec.all p s = true → Spec.all p (String.substring 0 n s) = true.
Proof.
  induction s as [|a s IH]; intros n H; [destruct n; reflexivity|].
  cbn [Spec.all] in H. apply andb_prop in H as [Ha H].
  destruct n as [|n]; [reflexivity|]. cbn [String.substring Spec.all].
  rewrite Ha. apply IH. exact H.
Qed.

Lemma all_replace_first (p : ascii → bool) (fl : flags) (r : regex)
    (s : string) :
  Spec.all p s = true →
  Spec.all p (replace_first fl r (fun _ => "") s) = true.
Proof.
  intros H. unfold replace_first, exec.
  destruct (exec_from fl r None s 0) as [[start res]|] eqn:E; [|exact H].
  rewrite append_nil_l, all_app, all_substring0 by exact H.
  apply exec_from_suffix in E as [x E]. rewrite E, all_app in H.
  apply andb_prop in H as [_ H]. exact H.
Qed.

Lemma all_dropWhile (p q : ascii → bool) (s : string) :
  Spec.all p s = true → Spec.all p (Str.dropWhile q s) = true.
Proof.
  induction s as [|a s IH]; [reflexivity|]. intros H.
  cbn [Str.dropWhile]. destruct (q a); [|exact H].
  cbn [Spec.all] in H. apply andb_prop in H as [_ H]. apply IH. exact H.
Qed.

Lemma all_rev_onto (p : ascii → bool) (s : string) :
  ∀ acc, Spec.all p acc = true → Spec.all p s = true →
    Spec.all p (Str.rev_onto acc s) = true.
Proof.
  induction s as [|a s IH]; intros acc Ha Hs; [exact Ha|].
  cbn [Spec.all] in Hs. apply andb_prop in Hs as [H1 H2].
  cbn [Str.rev_onto]. apply IH; [|exact H2]. cbn [Spec.all].
  rewrite H1, Ha. reflexivity.
Qed.

Lemma all_trim (p : ascii → bool) (s : string) :
  Spec.all p s = true → Spec.all p (Str.trim s) = true.
Proof.
  intros H. unfold Str.trim, Str.rev.
  apply all_rev_onto; [reflexivity|]. apply all_dropWhile.
  apply all_rev_onto; [reflexivity|]. apply all_dropWhile. exact H.
Qed.

Lemma all_drop_tabsp (p : ascii → bool) (v : string) :
  Spec.all p v = true → Spec.all p (drop_tabsp v) = true.
Proof.
  destruct v as [|a v]; [reflexivity|]. cbn [drop_tabsp].
  destruct (Char.isTabOrSpace a); [|auto]. cbn [Spec.all]. intros H.
  apply andb_prop in H as [_ H]. exact H.
Qed.

Lemma all_field (p : ascii → bool) (name c v : string) :
  Spec.all p c = true → strip_prefix name c = Some v →
  Spec.all p v = true.
Proof.
  intros Hc Hs. destruct (strip_prefix_split _ _ _ Hs) as (n & -> & _).
  rewrite all_app in Hc. apply andb_prop in Hc as [_ Hc]. exact Hc.
Qed.

(** The rewritten [From:] line is a header line. *)
Lemma from_field_header_line (env : Env) (c e v : string) :
  Spec.all Char.isDot (Str.show (DOMAIN env)) = true →
  header_line (c, e) = true → field "from:" (c, e) = Some v →
  header_line (from_field env v, e) = true.
Proof.
  intros Hd Hl Hf. destruct (header_line_inv c e Hl) as (Hc & _ & He).
  unfold field in Hf. cbn [fst] in Hf.
  destruct (strip_prefix "from:" c) as [v0|] eqn:Hs; [|discriminate].
  cbn in Hf. injection Hf as <-.
  pose proof (all_drop_tabsp _ _ (all_field _ _ _ _ Hc Hs)) as Hv.
  unfold header_line. cbn [fst snd].
  assert (Hall : Spec.all Char.isDot (from_field env (drop_tabsp v0)) = true).
  { unfold from_field, rewrite_from, Template.group1. cbn [m_group1].
    rewrite !all_app, Hd.
    rewrite all_trim by (apply all_replace_first; exact Hv). reflexivity. }
  rewrite Hall. unfold from_field, rewrite_from.
  rewrite append_cons. cbn [andb negb].
  destruct He as [-> | ->]; reflexivity.
Qed.

Lemma to_line_header_line (s e : string) :
  Spec.all Char.isDot s = true → Spec.is_eol e →
  header_line ("To: " +:+ s, e) = true.
Proof.
  intros Hs He. unfold header_line. cbn [fst snd].
  rewrite all_app, Hs. rewrite append_cons.
  destruct He as [-> | ->]; reflexivity.
Qed.

End Lines.

Section HeaderRewrites.
Import Regex Patterns Extra Forwarder.

Lemma from_pass_all (env : Env) (ls : list Line) :
  header ls = true → unfolded "from:" ls = true →
  replace_all flag_mi from_value
    (rewrite_from ("noreply@" +:+ Str.show (DOMAIN env))) (unlines ls)
  = unlines (flat_map (from_pass env) ls).
Proof.
  intros Hp Hu.
  change from_value with (anchored "from:" (Seq tabsp (Grp 1 folded))).
  rewrite (pass_all "from:" _ _ _ true eq_refl (from_value_take env) ls Hp
             (fun _ => Hu)).
  apply map_lines_unlines. intros [c e].
  unfold from_pass, is_field, field. cbn [fst snd].
  destruct (strip_prefix "from:" c); cbn [fmap option_fmap option_map default];
    rewrite unlines_one; reflexivity.
Qed.

Lemma to_pass_all (s : string) (ls : list Line) :
  Spec.count "$" s = 0 → truthy (Some s) = true →
  header ls = true →
  replace_all flag_mi to_value (Template.expand ("To: " +:+ s)) (unlines ls)
  = unlines (flat_map (to_pass (Some s)) ls).
Proof.
  intros Hs Ht Hp.
  change to_value with (anchored "to:" (Seq tabsp (Grp 1 any))).
  rewrite (pass_all "to:" _ _ _ false eq_refl (to_value_take s Hs) ls Hp
             ltac:(discriminate)).
  apply map_lines_unlines. intros [c e].
  unfold to_pass. rewrite Ht. cbn [andb Str.show snd].
  destruct (is_field "to:" (c, e)); rewrite unlines_one; [|reflexivity].
  unfold line_text. cbn [fst snd]. rewrite append_assoc. reflexivity.
Qed.

Lemma strip_pass_all (name : string) (ls : list Line) :
  field_name name = true → header ls = true →
  replace_all flag_mi (whole_line name) (fun _ => "") (unlines ls)
  = unlines (flat_map (strip_pass name) ls).
Proof.
  intros Hn Hp.
  change (whole_line name)
    with (anchored name (Seq tabsp (Seq (Grp 1 any) eol))).
  rewrite (pass_all name _ _ _ false Hn (whole_line_take name Hn) ls Hp
             ltac:(discriminate)).
  apply map_lines_unlines. intros l. unfold strip_pass.
  destruct (is_field name l); [reflexivity | rewrite unlines_one; reflexivity].
Qed.

Lemma from_pass_header (env : Env) (ls : list Line) :
  Spec.all Char.isDot (Str.show (DOMAIN env)) = true →
  header ls = true → header (flat_map (from_pass env) ls) = true.
Proof.
  intros Hd. apply header_flat_map. intros [c e] Hl. unfold from_pass.
  destruct (field "from:" (c, e)) as [v|] eqn:Hf; cbn [header forallb snd];
    rewrite andb_true_r; [|exact Hl].
  apply (from_field_header_line env c e v Hd Hl Hf).
Qed.

Lemma to_pass_header (te : option string) (ls : list Line) :
  (∀ s, te = Some s → Spec.all Char.isDot s = true) →
  header ls = true → header (flat_map (to_pass te) ls) = true.
Proof.
  intros Ht. apply header_flat_map. intros [c e] Hl. unfold to_pass.
  destruct (truthy te && is_field "to:" (c, e)) eqn:E;
    cbn [header forallb snd]; rewrite andb_true_r; [|exact Hl].
  destruct te as [s|]; [|discriminate]. cbn [Str.show].
  destruct (header_line_inv c e Hl) as (_ & _ & He).
  apply to_line_header_line; [apply Ht; reflexivity | exact He].
Qed.

Lemma strip_pass_header (name : string) (ls : list Line) :
  header ls = true → header (flat_map (strip_pass name) ls) = true.
Proof.
  apply header_flat_map. intros l Hl. unfold strip_pass.
  destruct (is_field name l); cbn [header forallb]; [reflexivity|].
  rewrite Hl. reflexivity.
Qed.

Lemma to_pass_none (te : option string) (ls : list Line) :
  truthy te = false → flat_map (to_pass te) ls = ls.
Proof.
  intros Ht. induction ls as [|l ls IH]; [reflexivity|].
  cbn [flat_map]. rewrite IH. unfold to_pass. rewrite Ht. reflexivity.
Qed.

Lemma flat_map_ext' {A B} (f g : A → list B) (l : list A) :
  (∀ x, f x = g x) → flat_map f l = flat_map g l.
Proof.
  intros H. induction l as [|x l IH]; [reflexivity|].
  cbn [flat_map]. rewrite H, IH. reflexivity.
Qed.

(** The rewrites of single lines in sequence, on one line. *)
Lemma rewrite_line_passes (env : Env) (te : option string) (l : Line) :
  flat_map (strip_pass "message-id:")
    (flat_map (strip_pass "sender:")
       (flat_map (strip_pass "return-path:")
          (flat_map (to_pass te) (from_pass env l))))
  = rewrite_line env te l.
Proof.
  destruct l as [c e]. unfold rewrite_line, from_pass.
  destruct (field "from:" (c, e)) as [v|].
  - cbn [flat_map app snd].
    assert (H : ∀ name, Char.same true "F" (match name with
                                            | String a _ => a
                                            | EmptyString => "F"%char
                                            end) = false →
                is_field name (from_field env v, e) = false).
    { intros name Hn. unfold is_field, from_field, rewrite_from. cbn [fst].
      rewrite append_cons. destruct name as [|a name]; [discriminate|].
      cbn [strip_prefix]. rewrite Hn. reflexivity. }
    unfold to_pass. rewrite (H "to:" eq_refl), andb_false_r.
    cbn [flat_map app]. unfold strip_pass.
    rewrite (H "return-path:" eq_refl). cbn [flat_map app].
    rewrite (H "sender:" eq_refl). cbn [flat_map app].
    rewrite (H "message-id:" eq_refl). reflexivity.
  - cbn [flat_map app]. rewrite app_nil_r. unfold to_pass.
    destruct (truthy te && is_field "to:" (c, e)).
    + cbn [flat_map app snd].
      assert (H : ∀ name, Char.same true "T" (match name with
                                              | String a _ => a
                                              | EmptyString => "T"%char
                                              end) = false →
                  is_field name ("To: " +:+ Str.show te, e) = false).
      { intros name Hn. unfold is_field. cbn [fst].
        rewrite append_cons. destruct name as [|a name]; [discriminate|].
        cbn [strip_prefix]. rewrite Hn. reflexivity. }
      unfold strip_pass.
      rewrite (H "return-path:" eq_refl). cbn [flat_map app].
      rewrite (H "sender:" eq_refl). cbn [flat_map app].
      rewrite (H "message-id:" eq_refl). reflexivity.
    + cbn [flat_map app]. unfold strip_pass.
      destruct (is_field "return-path:" (c, e)); [reflexivity|].
      cbn [flat_map app orb].
      destruct (is_field "sender:" (c, e)); [reflexivity|].
      cbn [flat_map app orb].
      destruct (is_field "message-id:" (c, e)); reflexivity.
Qed.

Lemma passes_rewrite_lines (env : Env) (te : option string)
    (ls : list Line) :
  flat_map (strip_pass "message-id:")
    (flat_map (strip_pass "sender:")
       (flat_map (strip_pass "return-path:")
          (flat_map (to_pass te) (flat_map (from_pass env) ls))))
  = flat_map (rewrite_line env te) ls.
Proof.
  induction ls as [|l ls IH]; [reflexivity|].
  cbn [flat_map]. rewrite !flat_map_app, IH, rewrite_line_passes.
  reflexivity.
Qed.

Lemma canonicalize_whitespace (a : ascii) :
  Char.isWhiteSpace a = true → Char.canonicalize a = a.
Proof.
  destruct a as [[] [] [] [] [] [] [] []]; intros H;
    try discriminate H; reflexivity.
Qed.

Lemma field_first (n0 : ascii) (name c v : string) :
  strip_prefix (String n0 name) c = Some v →
  ∃ a c', c = String a c' ∧ Char.same true a n0 = true.
Proof.
  cbn [strip_prefix]. destruct c as [|a c']; [discriminate|].
  destruct (Char.same true a n0) eqn:E; [eauto | discriminate].
Qed.

(** A line that starts with a field name is no continuation line. *)
Lemma field_not_continuation (n0 : ascii) (name : string) (l : Line) :
  Char.isWhiteSpace (Char.canonicalize n0) = false →
  is_field (String n0 name) l = true → continuation l = false.
Proof.
  intros Hn Hf. unfold is_field in Hf. unfold continuation.
  destruct (strip_prefix (String n0 name) (fst l)) as [v|] eqn:Hs;
    [|discriminate].
  destruct (field_first _ _ _ _ Hs) as (a & c' & -> & Ha).
  destruct (Char.isWhiteSpace a) eqn:Hw; [|reflexivity].
  unfold Char.same in Ha. apply Ascii.eqb_eq in Ha.
  rewrite (canonicalize_whitespace a Hw) in Ha. congruence.
Qed.

(** A line starts with at most one of two names that differ in their
    first letter. *)
Lemma field_other (n0 m0 : ascii) (name other : string) (l : Line) :
  Char.same true n0 m0 = false →
  is_field (String n0 name) l = true →
  is_field (String m0 other) l = false.
Proof.
  intros Hnm Hf. unfold is_field in *.
  destruct (strip_prefix (String n0 name) (fst l)) as [v|] eqn:Hs;
    [|discriminate].
  destruct (field_first _ _ _ _ Hs) as (a & c' & Hc & Ha).
  rewrite Hc. cbn [strip_prefix].
  destruct (Char.same true a m0) eqn:Hm; [|reflexivity].
  unfold Char.same in *. apply Ascii.eqb_eq in Ha, Hm.
  rewrite <- Ha, Hm, Ascii.eqb_refl in Hnm. discriminate.
Qed.

Lemma flat_map_single {A B} (h : A → B) (l : list A) :
  flat_map (fun x => [h x]) l = map h l.
Proof. induction l as [|x l IH]; [reflexivity|]. cbn. rewrite IH. reflexivity. Qed.

Lemma from_pass_map (env : Env) (ls : list Line) :
  flat_map (from_pass env) ls = map (from_line_of env) ls.
Proof.
  rewrite <- flat_map_single. apply flat_map_ext'. intros l.
  unfold from_pass, from_line_of. destruct (field "from:" l); reflexivity.
Qed.

Lemma to_pass_map (te : option string) (ls : list Line) :
  flat_map (to_pass te) ls = map (to_line_of te) ls.
Proof.
  rewrite <- flat_map_single. apply flat_map_ext'. intros l.
  unfold to_pass, to_line_of.
  destruct (truthy te && is_field "to:" l); reflexivity.
Qed.

(** A rewrite that neither makes nor unmakes a line of the field [name]
    or a continuation line keeps the field unfolded. *)
Lemma unfolded_map (name : string) (h : Line → Line) (ls : list Line) :
  (∀ l, is_field name (h l) = is_field name l) →
  (∀ l, continuation (h l) = continuation l) →
  unfolded name (map h ls) = unfolded name ls.
Proof.
  intros Hf Hc. induction ls as [|l ls IH]; [reflexivity|].
  cbn [map unfolded]. rewrite IH, Hf. f_equal. f_equal.
  destruct ls as [|l' ls]; [reflexivity|]. cbn [map starts_field].
  rewrite Hc. reflexivity.
Qed.

Lemma from_line_field (env : Env) (n0 : ascii) (name : string) (l : Line) :
  Char.same true "f" n0 = false → Char.same true "F" n0 = false →
  is_field (String n0 name) (from_line_of env l) = is_field (String n0 name) l.
Proof.
  intros Hf HF. unfold from_line_of, field.
  destruct (strip_prefix "from:" (fst l)) as [v|] eqn:Hs;
    cbn [fmap option_fmap option_map]; [|reflexivity].
  rewrite (field_other "f" n0 "rom:" name l Hf)
    by (unfold is_field; rewrite Hs; reflexivity).
  unfold is_field, from_field, rewrite_from. cbn [fst].
  rewrite append_cons. cbn [strip_prefix]. rewrite HF. reflexivity.
Qed.

Lemma from_line_continuation (env : Env) (l : Line) :
  continuation (from_line_of env l) = continuation l.
Proof.
  unfold from_line_of, field.
  destruct (strip_prefix "from:" (fst l)) as [v|] eqn:Hs;
    cbn [fmap option_fmap option_map]; [|reflexivity].
  rewrite (field_not_continuation "f" "rom:" l eq_refl)
    by (unfold is_field; rewrite Hs; reflexivity).
  unfold continuation, from_field, rewrite_from. cbn [fst].
  rewrite append_cons. reflexivity.
Qed.

Lemma to_line_field (te : option string) (n0 : ascii) (name : string)
    (l : Line) :
  Char.same true "t" n0 = false → Char.same true "T" n0 = false →
  is_field (String n0 name) (to_line_of te l) = is_field (String n0 name) l.
Proof.
  intros Ht HT. unfold to_line_of.
  destruct (truthy te); cbn [andb]; [|reflexivity].
  destruct (is_field "to:" l) eqn:Hf; [|reflexivity].
  rewrite (field_other "t" n0 "o:" name l Ht Hf).
  unfold is_field. cbn [fst]. rewrite append_cons. cbn [strip_prefix].
  rewrite HT. reflexivity.
Qed.

Lemma to_line_continuation (te : option string) (l : Line) :
  continuation (to_line_of te l) = continuation l.
Proof.
  unfold to_line_of. destruct (truthy te); cbn [andb]; [|reflexivity].
  destruct (is_field "to:" l) eqn:Hf; [|reflexivity].
  rewrite (field_not_continuation "t" "o:" l eq_refl Hf).
  unfold continuation. cbn [fst]. rewrite append_cons. reflexivity.
Qed.

Lemma starts_field_strip (m : string) (ls : list Line) :
  unfolded m ls = true → starts_field ls = true →
  starts_field (flat_map (strip_pass m) ls) = true.
Proof.
  induction ls as [|l ls IH]; [reflexivity|]. intros Hu Hs.
  cbn [unfolded] in Hu. apply andb_prop in Hu as [Hl Hu].
  cbn [flat_map]. unfold strip_pass at 1.
  destruct (is_field m l); cbn [app negb orb] in *.
  - apply IH; assumption.
  - exact Hs.
Qed.

(** Removing the lines of an unfolded field keeps another field
    unfolded. *)
Lemma unfolded_strip (name m : string) (ls : list Line) :
  unfolded name ls = true → unfolded m ls = true →
  unfolded name (flat_map (strip_pass m) ls) = true.
Proof.
  induction ls as [|l ls IH]; [reflexivity|]. intros Hn Hm.
  cbn [unfolded] in Hn, Hm.
  apply andb_prop in Hn as [Hnl Hn]. apply andb_prop in Hm as [Hml Hm].
  cbn [flat_map]. unfold strip_pass at 1.
  destruct (is_field m l); cbn [app negb orb] in *.
  - apply IH; assumption.
  - cbn [unfolded]. rewrite (IH Hn Hm), andb_true_r.
    destruct (is_field name l); cbn [negb orb] in *; [|reflexivity].
    apply starts_field_strip; assumption.
Qed.

Lemma unfolded_snoc (name : string) (ls rt : list Line) :
  unfolded name ls = true → starts_field rt = true →
  unfolded name rt = true →
  unfolded name (ls ++ rt) = true.
Proof.
  intros Hu Hs Hr. induction ls as [|l ls IH]; [exact Hr|].
  cbn [unfolded] in Hu. apply andb_prop in Hu as [Hl Hu].
  cbn [app unfolded]. rewrite (IH Hu), andb_true_r.
  destruct ls as [|l' ls]; [|exact Hl].
  cbn [app]. rewrite Hs. apply orb_true_r.
Qed.

End HeaderRewrites.

Section First.
Import Regex Patterns Extra.
Variable name : string.
Variable R : regex.
Variable Q : string → MState → Line → Prop.
Variable need : bool.
Hypothesis Hname : field_name name = true.
Hypothesis Hfirst :
  ∀ (c e v0 nxt before : string) (p : option ascii),
    header_line (c, e) = true → strip_prefix name c = Some v0 →
    (need = true → starts_outside Char.isWhiteSpace nxt) →
    at_line_start flag_mi
      (mkState p (c +:+ e +:+ nxt) (String.length before) []) = true →
    ∃ res,
      rmatch flag_mi (anchored name R)
        (mkState p (c +:+ e +:+ nxt) (String.length before) []) Some
      = Some res
      ∧ Q (before +:+ c +:+ e +:+ nxt) res (c, e).

(** The first match of the pattern is at the first line that starts with
    the field name. *)
Lemma exec_first (ls : list Line) :
  ∀ (before : string) (p : option ascii) (l : Line),
    header ls = true →
    (need = true → unfolded name ls = true) →
    at_line_start flag_mi
      (mkState p (unlines ls) (String.length before) []) = true →
    List.find (is_field name) ls = Some l →
    ∃ start res,
      exec_from flag_mi (anchored name R) p (unlines ls)
        (String.length before)
      = Some (start, res)
      ∧ Q (before +:+ unlines ls) res l.
Proof.
  induction ls as [|[c e] ls IH]; intros before p l Hp Hu Hstart Hfind;
    [discriminate|].
  cbn [header forallb] in Hp. apply andb_prop in Hp as [Hl Hp].
  assert (Hu' : need = true → unfolded name ls = true).
  { intros Hn. specialize (Hu Hn). cbn [unfolded] in Hu.
    apply andb_prop in Hu as [_ Hu]. exact Hu. }
  assert (Hstop : need = true → is_field name (c, e) = true →
                  starts_outside Char.isWhiteSpace (unlines ls)).
  { intros Hn Hf. specialize (Hu Hn). cbn [unfolded] in Hu.
    apply andb_prop in Hu as [Hu _]. rewrite Hf in Hu. cbn [negb orb] in Hu.
    apply starts_field_outside; assumption. }
  clear Hu. unfold is_field in Hstop. cbn [fst] in Hstop.
  cbn [List.find] in Hfind. unfold is_field in Hfind at 1. cbn [fst] in Hfind.
  cbn [unlines] in *. unfold line_text in *. cbn [fst snd] in *.
  rewrite append_assoc in *.
  destruct (strip_prefix name c) as [v0|] eqn:Hs.
  - injection Hfind as <-.
    destruct (Hfirst c e v0 (unlines ls) before p Hl Hs
                (fun Hn => Hstop Hn eq_refl) Hstart) as (res & Hm & HQ).
    exists (String.length before), res.
    split; [apply exec_from_here; exact Hm | exact HQ].
  - rewrite (exec_keep_line name R Hname c e _ p _ Hl Hs).
    destruct (IH (before +:+ c +:+ e) (Some Char.LF) l Hp Hu' eq_refl Hfind)
      as (start & res & He & HQ).
    exists start, res. rewrite !length_append in He.
    rewrite length_append. rewrite !append_assoc in HQ.
    split; [exact He | exact HQ].
Qed.

End First.

Section ReplyTo.
Import Regex Patterns Extra Forwarder.

Lemma find_none_existsb {A} (f : A → bool) (l : list A) :
  List.find f l = None → existsb f l = false.
Proof.
  induction l as [|x l IH]; [reflexivity|]. cbn.
  destruct (f x); [discriminate | exact IH].
Qed.

Lemma existsb_find {A} (f : A → bool) (l : list A) :
  existsb f l = true → ∃ x, List.find f l = Some x.
Proof.
  induction l as [|x l IH]; [discriminate|]. cbn.
  destruct (f x); [eauto | exact IH].
Qed.

Lemma reply_to_take :
  ∀ (c e v0 nxt before : string) (p : option ascii),
    header_line (c, e) = true → strip_prefix "reply-to:" c = Some v0 →
    (false = true → starts_outside Char.isWhiteSpace nxt) →
    at_line_start flag_mi
      (mkState p (c +:+ e +:+ nxt) (String.length before) []) = true →
    ∃ res,
      rmatch flag_mi (anchored "reply-to:" tabsp)
        (mkState p (c +:+ e +:+ nxt) (String.length before) []) Some
      = Some res
      ∧ (fun _ _ _ => True) (before +:+ c +:+ e +:+ nxt) res (c, e).
Proof.
  intros c e v0 nxt before p Hl Hs Hn Hstart.
  destruct (anchored_tabsp "reply-to:" Eps c e v0 nxt _ Hl Hs Hstart eq_refl)
    as (n & _ & Hm).
  exists (feed (n +:+ tabsp_part v0)
            (mkState p (c +:+ e +:+ nxt) (String.length before) [])).
  split; [|exact I]. exact (Hm _ eq_refl).
Qed.

(** The header has a [Reply-To:] field exactly when one of its lines
    starts with the name. *)
Lemma reply_to_test (ls : list Line) :
  header ls = true →
  test flag_mi reply_to (unlines ls) = existsb (is_field "reply-to:") ls.
Proof.
  intros Hp. unfold test, exec.
  change reply_to with (anchored "reply-to:" tabsp).
  destruct (existsb (is_field "reply-to:") ls) eqn:E.
  - apply existsb_find in E as [l Hl].
    destruct (exec_first "reply-to:" tabsp (fun _ _ _ => True) false eq_refl
                reply_to_take ls "" None l Hp ltac:(discriminate) eq_refl Hl)
      as (start & res & He & _).
    cbn [String.length] in He. rewrite He. reflexivity.
  - rewrite (exec_lines_none "reply-to:" tabsp eq_refl ls None 0 Hp E).
    reflexivity.
Qed.

(** [from_line] on a line that starts with [from:]: the group is the
    value with the line terminator. *)
Lemma from_line_take :
  ∀ (c e v0 nxt before : string) (p : option ascii),
    header_line (c, e) = true → strip_prefix "from:" c = Some v0 →
    (true = true → starts_outside Char.isWhiteSpace nxt) →
    at_line_start flag_mi
      (mkState p (c +:+ e +:+ nxt) (String.length before) []) = true →
    ∃ res,
      rmatch flag_mi (anchored "from:" (Seq tabsp (Grp 1 (Seq folded eol))))
        (mkState p (c +:+ e +:+ nxt) (String.length before) []) Some
      = Some res
      ∧ (fun input res l =>
           group input res 1
           = Some (default "" (field "from:" l) +:+ snd l))
          (before +:+ c +:+ e +:+ nxt) res (c, e).
Proof.
  intros c e v0 nxt before p Hl Hs Hn Hstart.
  specialize (Hn eq_refl).
  destruct (header_line_inv c e Hl) as (Hc & _ & He).
  destruct (anchored_tabsp "from:" (Grp 1 (Seq folded eol)) c e v0 nxt _
              Hl Hs Hstart eq_refl) as (n & Hcn & Hm).
  unfold field. cbn [fst snd]. rewrite Hs.
  cbn [fmap option_fmap option_map default].
  set (t := tabsp_part v0) in *. set (v := drop_tabsp v0) in *.
  assert (Hv : Spec.all Char.isDot v = true).
  { rewrite Hcn, !all_app in Hc. apply andb_prop in Hc as [_ Hc].
    apply andb_prop in Hc as [_ Hc]. exact Hc. }
  clear Hs. subst c.
  eexists. split.
  { apply Hm. rewrite feed_name. unfold folded. cbn [rmatch].
    fold (rmatch flag_mi any) (rmatch flag_mi eol).
    apply (any_take v (e +:+ nxt)); [reflexivity | exact Hv | |].
    - apply eol_starts_outside. exact He.
    - rewrite feed_value.
      change (star_loop ?m true ?f ?st ?k)
        with (rmatch flag_mi (Star true (Seq eol (Seq (Plus ws) any))) st k).
      rewrite folded_stop with (e := e) (nxt := nxt);
        [| reflexivity | exact He | exact Hn].
      rewrite eol_take_i with (e := e) (r := nxt);
        [| exact He | reflexivity].
      rewrite (feed_eol _ e nxt p _ _ He). reflexivity. }
  unfold group. cbn [caps set_cap lookup_cap Nat.eqb pos]. f_equal.
  replace (String.length before + String.length ((n +:+ t +:+ v) +:+ e)
           - (String.length before + String.length (n +:+ t)))
    with (String.length (v +:+ e))
    by (rewrite !length_append; lia).
  rewrite <- length_append.
  replace (before +:+ (n +:+ t +:+ v) +:+ e +:+ nxt)
    with ((before +:+ n +:+ t) +:+ (v +:+ e) +:+ nxt)
    by (rewrite !append_assoc; reflexivity).
  apply substring_mid.
Qed.

Lemma reply_to_lines_header (ls : list Line) :
  header ls = true → header (ls ++ reply_to_lines ls) = true.
Proof.
  intros Hp. unfold header. rewrite forallb_app. fold (header ls).
  rewrite Hp. cbn [andb]. unfold reply_to_lines.
  destruct (existsb (is_field "reply-to:") ls); [reflexivity|].
  destruct (List.find (is_field "from:") ls) as [[c e]|] eqn:Hf;
    [|reflexivity].
  apply find_some in Hf as [Hin Hfield].
  assert (Hl : header_line (c, e) = true).
  { unfold header in Hp. rewrite forallb_forall in Hp. apply Hp. exact Hin. }
  destruct (header_line_inv c e Hl) as (Hc & _ & He).
  cbn [forallb snd]. rewrite andb_true_r.
  unfold header_line. cbn [fst snd]. rewrite all_app, append_cons.
  unfold field, is_field in *. cbn [fst] in *.
  destruct (strip_prefix "from:" c) as [v0|] eqn:Hs; [|discriminate].
  cbn [fmap option_fmap option_map default]. unfold id.
  rewrite (all_drop_tabsp _ _ (all_field _ _ _ _ Hc Hs)).
  destruct He as [-> | ->]; reflexivity.
Qed.

(** The header after [add_reply_to], line by line. *)
Lemma add_reply_to_lines (ls : list Line) (s : St) :
  header ls = true → unfolded "from:" ls = true →
  snd (add_reply_to (Some (unlines ls)) s)
  = Ok (Some (unlines (ls ++ reply_to_lines ls))).
Proof.
  intros Hp Hu. unfold add_reply_to, reply_to_lines. cbn [default]. unfold id.
  rewrite (reply_to_test ls Hp).
  destruct (existsb (is_field "reply-to:") ls);
    [rewrite app_nil_r; reflexivity|].
  cbn [negb mbind option_bind]. unfold jsmatch, exec.
  change from_line
    with (anchored "from:" (Seq tabsp (Grp 1 (Seq folded eol)))).
  destruct (List.find (is_field "from:") ls) as [[c e]|] eqn:Hf.
  - destruct (exec_first "from:" _ _ true eq_refl from_line_take ls "" None
                (c, e) Hp (fun _ => Hu) eq_refl Hf)
      as (start & res & Hex & Hg).
    cbn [String.length] in Hex. rewrite Hex.
    cbn beta in Hg. rewrite append_nil_l in Hg. rewrite Hg.
    cbn [mbind option_bind snd].
    apply find_some in Hf as [Hin _].
    assert (Hl : header_line (c, e) = true).
    { unfold header in Hp. rewrite forallb_forall in Hp. apply Hp. exact Hin. }
    destruct (header_line_inv c e Hl) as (_ & _ & He).
    set (v := default "" (field "from:" (c, e))).
    assert (Hne : ∃ a r, v +:+ e = String a r).
    { destruct v as [|a v']; [|rewrite append_cons; eauto].
      rewrite append_nil_l. destruct He as [-> | ->]; eauto. }
    destruct Hne as (a & r & Hvr). rewrite Hvr.
    cbn [nonempty default]. unfold bind, log, emit, ret. cbn [snd Str.show].
    rewrite <- Hvr, unlines_app, unlines_one. unfold line_text.
    cbn [fst snd]. rewrite !append_assoc. reflexivity.
  - rewrite (exec_lines_none "from:" _ eq_refl ls None 0 Hp
               (find_none_existsb _ _ Hf)).
    rewrite app_nil_r. reflexivity.
Qed.

End ReplyTo.

(** ** A folded [DKIM-Signature:] field *)

Section Folded.
Import Regex Patterns Extra Forwarder.

Lemma ws_plus_take_i (w r : string) (st : MState) (k : cont) (x : MState) :
  w ≠ "" → Spec.all Char.isWhiteSpace w = true →
  rest st = w +:+ r → starts_outside Char.isWhiteSpace r →
  k (feed w st) = Some x →
  rmatch flag_mi (Plus ws) st k = Some x.
Proof.
  intros Hw Hall Hrest Hr Hk. destruct w as [|a w]; [congruence|].
  cbn in Hall. apply andb_prop in Hall as [Ha Hall].
  rewrite append_cons in Hrest.
  unfold Plus. cbn [rmatch]. unfold ws at 1.
  rewrite (rmatch_cls flag_mi _ _ _ _ _ Hrest), Ha. unfold ws.
  apply (star_cls_greedy flag_mi Char.isWhiteSpace w r); try assumption.
  - reflexivity.
  - lia.
  - rewrite <- (feed_cons _ _ _ _ Hrest). exact Hk.
Qed.

(** A continuation line that holds more than whitespace: its leading
    whitespace and the rest. *)
Lemma continuation_split (c e : string) :
  header_line (c, e) = true → solid_continuation (c, e) = true →
  ∃ w x,
    c = w +:+ x ∧ w ≠ "" ∧ Spec.all Char.isWhiteSpace w = true
    ∧ (∀ r, starts_outside Char.isWhiteSpace (x +:+ r))
    ∧ Spec.all Char.isDot x = true.
Proof.
  intros Hl Hs. destruct (header_line_inv c e Hl) as (Hc & _ & _).
  unfold solid_continuation, continuation in Hs. cbn [fst] in Hs.
  apply andb_prop in Hs as [Hcont Hsolid]. apply negb_true_iff in Hsolid.
  destruct (span Char.isWhiteSpace c) as (w & x & E & Hw & Hx).
  exists w, x. rewrite E, all_app in Hc. apply andb_prop in Hc as [_ Hxd].
  split_and!; try assumption.
  - intros ->. rewrite append_nil_l in E. subst x.
    destruct Hx as [-> | (a & c' & -> & Ha)]; [discriminate|].
    rewrite Ha in Hcont. discriminate.
  - intros r. destruct Hx as [-> | (a & x' & -> & Ha)].
    + rewrite append_nil_r in E. subst w. congruence.
    + right. rewrite append_cons. eauto.
Qed.

(** The continuation lines of the field are all taken. *)
Lemma dkim_star (conts : list Line) :
  ∀ (nxt : string) (st : MState),
    header conts = true → forallb solid_continuation conts = true →
    rest st = unlines conts +:+ nxt →
    starts_outside Char.isWhiteSpace nxt →
    ∃ st',
      rmatch flag_mi (Star true (Grp 1 (Seq (Plus ws) (Seq any eol)))) st Some
      = Some st'
      ∧ rest st' = nxt
      ∧ pos st' = pos st + String.length (unlines conts)
      ∧ prev st' = prev_after (prev st) (unlines conts).
Proof.
  induction conts as [|[c e] conts IH]; intros nxt st Hh Hs Hrest Hn.
  - exists st. cbn [unlines] in *. rewrite append_nil_l in Hrest.
    rewrite (dkim_stop nxt st Some Hrest Hn).
    split_and!; [reflexivity | exact Hrest | cbn; lia | reflexivity].
  - cbn [header forallb] in Hh, Hs.
    apply andb_prop in Hh as [Hl Hh]. apply andb_prop in Hs as [Hsc Hs].
    destruct (header_line_inv c e Hl) as (_ & _ & He).
    destruct (continuation_split c e Hl Hsc) as (w & x & -> & Hw & Hww & Hx & Hxd).
    cbn [unlines] in *. unfold line_text in *. cbn [fst snd] in *.
    assert (Hrest' :
      rest st = w +:+ x +:+ e +:+ unlines conts +:+ nxt)
      by (rewrite Hrest, !append_assoc; reflexivity).
    set (s3 := feed e (feed x (feed w st))).
    assert (Hr3 : rest s3 = unlines conts +:+ nxt).
    { unfold s3. apply (feed_rest e). apply (feed_rest x).
      apply (feed_rest w). exact Hrest'. }
    destruct (IH nxt (set_cap 1 (pos st) (pos s3) s3) Hh Hs Hr3 Hn)
      as (st' & Hm & Hr' & Hp' & Hv').
    exists st'. split_and!.
    + cbn [rmatch star_loop]. fold (rmatch flag_mi (Plus ws)).
      fold (rmatch flag_mi any) (rmatch flag_mi eol).
      rewrite (ws_plus_take_i w (x +:+ e +:+ unlines conts +:+ nxt) st _ st'
                 Hw Hww Hrest' (Hx _)); [reflexivity|].
      apply (any_take x (e +:+ unlines conts +:+ nxt));
        [apply (feed_rest w); exact Hrest' | exact Hxd
        | apply eol_starts_outside; exact He |].
      rewrite eol_take_i with (e := e) (r := unlines conts +:+ nxt);
        [| exact He | apply (feed_rest x); apply (feed_rest w); exact Hrest'].
      fold s3.
      assert (Hprog : progressed st (set_cap 1 (pos st) (pos s3) s3) = true).
      { unfold progressed. cbn [rest set_cap]. rewrite Hr3, Hrest'.
        apply Nat.ltb_lt. rewrite !length_append.
        destruct w; [congruence | cbn; lia]. }
      rewrite Hprog.
      change (star_loop ?m true ?f ?s ?k)
        with (star_loop
                (rmatch flag_mi (Grp 1 (Seq (Plus ws) (Seq any eol))))
                true f s k).
      rewrite star_fuel_enough; [exact Hm|].
      cbn [rest set_cap]. rewrite Hr3, Hrest', !length_append.
      destruct w; [congruence | cbn; lia].
    + exact Hr'.
    + rewrite Hp'. cbn [pos set_cap]. unfold s3. rewrite !feed_pos.
      rewrite !length_append. lia.
    + rewrite Hv'. cbn [prev set_cap]. unfold s3. rewrite !prev_feed.
      rewrite !prev_after_app, !append_assoc. reflexivity.
Qed.

Lemma prev_after_unlines (ls : list Line) :
  header ls = true → prev_after (Some Char.LF) (unlines ls) = Some Char.LF.
Proof.
  induction ls as [|[c e] ls IH]; [reflexivity|].
  cbn [header forallb]. intros H. apply andb_prop in H as [Hl H].
  destruct (header_line_inv c e Hl) as (_ & _ & He).
  cbn [unlines]. unfold line_text. cbn [fst snd].
  rewrite <- !prev_after_app, (prev_after_eol e _ He). apply IH. exact H.
Qed.

(** [dkim] on a line that starts with [dkim-signature:], with the
    continuation lines of the field. *)
Lemma dkim_take_folded (c e v0 : string) (conts : list Line)
    (nxt before : string) (p : option ascii) :
  header_line (c, e) = true → strip_prefix "dkim-signature:" c = Some v0 →
  header conts = true → forallb solid_continuation conts = true →
  starts_outside Char.isWhiteSpace nxt →
  at_line_start flag_mi
    (mkState p (c +:+ e +:+ unlines conts +:+ nxt) (String.length before) [])
  = true →
  ∃ res,
    rmatch flag_mi dkim
      (mkState p (c +:+ e +:+ unlines conts +:+ nxt) (String.length before) [])
      Some
    = Some res
    ∧ rest res = nxt
    ∧ pos res
      = String.length before + String.length (c +:+ e +:+ unlines conts)
    ∧ prev res = Some Char.LF.
Proof.
  intros Hl Hs Hh Hsc Hn Hstart.
  destruct (header_line_inv c e Hl) as (Hc & _ & He).
  change dkim
    with (anchored "dkim-signature:"
            (Seq tabsp
               (Seq any
                  (Seq eol
                     (Star true (Grp 1 (Seq (Plus ws) (Seq any eol)))))))).
  destruct (anchored_tabsp "dkim-signature:"
              (Seq any
                 (Seq eol (Star true (Grp 1 (Seq (Plus ws) (Seq any eol))))))
              c e v0 (unlines conts +:+ nxt) _ Hl Hs Hstart eq_refl)
    as (n & Hcn & Hm).
  set (t := tabsp_part v0) in *. set (v := drop_tabsp v0) in *.
  assert (Hv : Spec.all Char.isDot v = true).
  { rewrite Hcn, !all_app in Hc. apply andb_prop in Hc as [_ Hc].
    apply andb_prop in Hc as [_ Hc]. exact Hc. }
  clear Hs. subst c.
  destruct (dkim_star conts nxt
              (mkState (Some Char.LF) (unlines conts +:+ nxt)
                 (String.length before + String.length ((n +:+ t +:+ v) +:+ e))
                 [])
              Hh Hsc eq_refl Hn) as (st' & Hstar & Hr & Hp & Hv').
  exists st'. split_and!.
  - apply Hm. rewrite feed_name. cbn [rmatch].
    fold (rmatch flag_mi any) (rmatch flag_mi eol).
    apply (any_take v (e +:+ unlines conts +:+ nxt));
      [reflexivity | exact Hv | apply eol_starts_outside; exact He |].
    rewrite feed_value.
    rewrite eol_take_i with (e := e) (r := unlines conts +:+ nxt);
      [| exact He | reflexivity].
    rewrite (feed_eol _ e _ p _ _ He).
    change (star_loop ?m true ?f ?st ?k)
      with (rmatch flag_mi
              (Star true (Grp 1 (Seq (Plus ws) (Seq any eol)))) st k).
    exact Hstar.
  - exact Hr.
  - rewrite Hp. cbn [pos]. rewrite !length_append. lia.
  - rewrite Hv'. cbn [prev]. apply prev_after_unlines. exact Hh.
Qed.

Lemma continuation_not_field (n0 : ascii) (name : string) (l : Line) :
  Char.isWhiteSpace (Char.canonicalize n0) = false →
  continuation l = true → is_field (String n0 name) l = false.
Proof.
  intros Hn Hc. destruct (is_field (String n0 name) l) eqn:E; [|reflexivity].
  rewrite (field_not_continuation n0 name l Hn E) in Hc. discriminate.
Qed.

Lemma strip_folded_start (name : string) (ls : list Line) :
  starts_field ls = true →
  strip_folded name true ls = strip_folded name false ls.
Proof.
  destruct ls as [|l ls]; [reflexivity|]. cbn [starts_field strip_folded].
  intros H. apply negb_true_iff in H. rewrite H. reflexivity.
Qed.

Lemma solid_start (name : string) (ls : list Line) :
  starts_field ls = true → solid name true ls = solid name false ls.
Proof.
  destruct ls as [|l ls]; [reflexivity|]. cbn [starts_field solid].
  intros H. apply negb_true_iff in H. rewrite H. reflexivity.
Qed.

(** The lines after a field line: its continuation lines, and the rest
    of the header. *)
Lemma folded_split (n0 : ascii) (name : string) (ls : list Line) :
  Char.isWhiteSpace (Char.canonicalize n0) = false →
  ∃ conts rest,
    ls = conts ++ rest
    ∧ starts_field rest = true
    ∧ strip_folded (String n0 name) true ls
      = strip_folded (String n0 name) false rest
    ∧ (solid (String n0 name) true ls = true →
       forallb solid_continuation conts = true
       ∧ solid (String n0 name) false rest = true).
Proof.
  intros Hn. induction ls as [|l ls (conts & rest & E & Hs & Hf & Hsol)].
  - exists [], []. split_and!; try reflexivity. intros _. split; reflexivity.
  - destruct (continuation l) eqn:Hc.
    + exists (l :: conts), rest.
      pose proof (continuation_not_field n0 name l Hn Hc) as Hnf.
      split_and!.
      * rewrite E. reflexivity.
      * exact Hs.
      * cbn [strip_folded]. rewrite Hnf, Hc. exact Hf.
      * cbn [solid]. rewrite Hnf, Hc. cbn [andb]. intros H.
        apply andb_prop in H as [H1 H2]. destruct (Hsol H2) as [H3 H4].
        split; [|exact H4]. cbn [forallb]. unfold solid_continuation at 1.
        rewrite Hc, H1, H3. reflexivity.
    + exists [], (l :: ls).
      assert (Hst : starts_field (l :: ls) = true)
        by (cbn [starts_field]; rewrite Hc; reflexivity).
      split_and!; [reflexivity | exact Hst | apply strip_folded_start; exact Hst |].
      intros H. split; [reflexivity|]. rewrite <- solid_start; assumption.
Qed.

(** The removal of the [DKIM-Signature:] fields, continuation lines
    included. *)
Lemma dkim_loop (n : nat) :
  ∀ (ls : list Line) (fuel : nat) (before : string) (p : option ascii),
    length ls ≤ n →
    header ls = true → solid "dkim-signature:" false ls = true →
    String.length (unlines ls) < fuel →
    at_line_start flag_mi
      (mkState p (unlines ls) (String.length before) []) = true →
    replace_loop flag_mi dkim (fun _ => "") (before +:+ unlines ls) fuel p
      (unlines ls) (String.length before)
    = unlines (strip_folded "dkim-signature:" false ls).
Proof.
  induction n as [|n IH]; intros ls fuel before p Hlen Hh Hsol Hfuel Hstart.
  - destruct ls; [|cbn in Hlen; lia].
    destruct fuel as [|fuel]; [cbn in Hfuel; lia|].
    cbn [unlines replace_loop exec_from strip_folded].
    change dkim
      with (anchored "dkim-signature:"
              (Seq tabsp
                 (Seq any
                    (Seq eol
                       (Star true (Grp 1 (Seq (Plus ws) (Seq any eol)))))))).
    rewrite (anchored_end "dkim-signature:" _ eq_refl). reflexivity.
  - destruct ls as [|[c e] ls].
    { destruct fuel as [|fuel]; [cbn in Hfuel; lia|].
      cbn [unlines replace_loop exec_from strip_folded].
      change dkim
        with (anchored "dkim-signature:"
                (Seq tabsp
                   (Seq any
                      (Seq eol
                         (Star true (Grp 1 (Seq (Plus ws) (Seq any eol)))))))).
      rewrite (anchored_end "dkim-signature:" _ eq_refl). reflexivity. }
    cbn [length] in Hlen.
    cbn [header forallb] in Hh. apply andb_prop in Hh as [Hl Hh].
    destruct (header_line_inv c e Hl) as (Hc & (a0 & c0 & Ec & _) & He).
    assert (He1 : 1 ≤ String.length e)
      by (destruct He as [-> | ->]; cbn; lia).
    cbn [solid strip_folded] in *. unfold is_field in *. cbn [fst] in *.
    cbn [andb] in *.
    destruct (strip_prefix "dkim-signature:" c) as [v0|] eqn:Hs.
    + destruct (folded_split "d" "kim-signature:" ls eq_refl)
        as (conts & rest & E & Hst & Hf & Hsol').
      destruct (Hsol' Hsol) as [Hsc Hsr]. rewrite Hf. subst ls.
      unfold header in Hh. rewrite forallb_app in Hh.
      apply andb_prop in Hh as [Hhc Hhr].
      rewrite length_app in Hlen.
      cbn [unlines] in *. unfold line_text in *. cbn [fst snd] in *.
      rewrite unlines_app in *. rewrite !append_assoc in *.
      destruct (dkim_take_folded c e v0 conts (unlines rest) before p Hl Hs
                  Hhc Hsc (starts_field_outside rest Hhr Hst) Hstart)
        as (res & Hm & Hr & Hp & Hv).
      destruct fuel as [|fuel]; [lia|].
      cbn [replace_loop]. rewrite (exec_from_here _ _ _ _ _ _ Hm).
      rewrite Nat.sub_diag.
      replace (String.substring 0 0 _) with ""
        by (destruct (c +:+ e +:+ unlines conts +:+ unlines rest);
            reflexivity).
      rewrite !append_nil_l.
      rewrite (proj2 (Nat.eqb_neq _ _))
        by (rewrite Hp, !length_append; lia).
      rewrite Hr, Hv, Hp.
      pose proof (IH rest fuel (before +:+ c +:+ e +:+ unlines conts)
                    (Some Char.LF) ltac:(lia) Hhr Hsr) as H.
      rewrite !append_assoc in H. rewrite (length_append before) in H.
      apply H; [|reflexivity].
      rewrite !length_append in Hfuel. lia.
    + cbn [unlines] in *. unfold line_text in *. cbn [fst snd] in *.
      rewrite append_assoc in *.
      pose proof (replace_loop_skip flag_mi dkim (fun _ => "")
                    (before +:+ c +:+ e +:+ unlines ls) (c +:+ e)
                    (unlines ls) fuel p (Some Char.LF) (String.length before))
        as Hskip.
      rewrite append_assoc in Hskip. rewrite Hskip.
      * pose proof (IH ls fuel (before +:+ c +:+ e) (Some Char.LF)
                      ltac:(lia) Hh Hsol) as H.
        rewrite !append_assoc in H. rewrite (length_append before) in H.
        rewrite H; [rewrite ?append_assoc; reflexivity | | reflexivity].
        rewrite !length_append in Hfuel. lia.
      * change dkim
          with (anchored "dkim-signature:"
                  (Seq tabsp
                     (Seq any
                        (Seq eol
                           (Star true
                              (Grp 1 (Seq (Plus ws) (Seq any eol)))))))).
        apply (exec_keep_line "dkim-signature:" _ eq_refl c e _ p _ Hl Hs).
Qed.

Lemma dkim_folded_all (ls : list Line) :
  header ls = true → solid "dkim-signature:" false ls = true →
  replace_all flag_mi dkim (fun _ => "") (unlines ls)
  = unlines (strip_folded "dkim-signature:" false ls).
Proof.
  intros Hh Hs. unfold replace_all.
  apply (dkim_loop (length ls) ls (S (String.length (unlines ls))) "" None);
    [lia | exact Hh | exact Hs | lia | reflexivity].
Qed.

End Folded.

(** ** The processor on a message with header lines *)

Section Composition.
Import Regex Patterns Extra Forwarder.

Lemma solid_map (name : string) (h : Line → Line) (ls : list Line) :
  (∀ l, is_field name (h l) = is_field name l) →
  (∀ l, continuation (h l) = continuation l) →
  (∀ l, continuation l = true → h l = l) →
  ∀ b, solid name b (map h ls) = solid name b ls.
Proof.
  intros Hf Hc Hid. induction ls as [|l ls IH]; intros b; [reflexivity|].
  cbn [map solid]. rewrite Hf, Hc, !IH.
  destruct (is_field name l); [reflexivity|].
  destruct (continuation l) eqn:E;
    [|rewrite andb_false_r; reflexivity].
  rewrite (Hid l E). reflexivity.
Qed.

Lemma from_line_of_continuation (env : Env) (l : Line) :
  continuation l = true → from_line_of env l = l.
Proof.
  intros Hc. unfold from_line_of, field.
  pose proof (continuation_not_field "f" "rom:" l eq_refl Hc) as H.
  unfold is_field in H. destruct (strip_prefix "from:" (fst l));
    [discriminate | reflexivity].
Qed.

Lemma to_line_of_continuation (te : option string) (l : Line) :
  continuation l = true → to_line_of te l = l.
Proof.
  intros Hc. unfold to_line_of.
  rewrite (continuation_not_field "t" "o:" l eq_refl Hc), andb_false_r.
  reflexivity.
Qed.

Lemma solid_strip (name m : string) (ls : list Line) :
  (∀ l, is_field m l = true → is_field name l = false) →
  (∀ l, is_field m l = true → continuation l = false) →
  unfolded m ls = true →
  ∀ b, solid name b ls = true →
       solid name b (flat_map (strip_pass m) ls) = true.
Proof.
  intros H1 H2. induction ls as [|l ls IH]; intros Hu b Hs; [reflexivity|].
  cbn [unfolded] in Hu. apply andb_prop in Hu as [Hl Hu].
  cbn [flat_map]. unfold strip_pass at 1.
  destruct (is_field m l) eqn:Em; cbn [app negb orb] in *.
  - cbn [solid] in Hs. rewrite (H1 l Em), (H2 l Em), andb_false_r in Hs.
    pose proof (IH Hu false Hs) as H.
    destruct b; [|exact H].
    rewrite solid_start; [exact H|]. apply starts_field_strip; assumption.
  - cbn [solid] in *. destruct (is_field name l); [apply IH; assumption|].
    destruct (b && continuation l).
    + apply andb_prop in Hs as [Hs1 Hs2]. rewrite Hs1. apply IH; assumption.
    + apply IH; assumption.
Qed.

Lemma solid_snoc (name : string) (ls rt : list Line) :
  starts_field rt = true → solid name false rt = true →
  ∀ b, solid name b ls = true → solid name b (ls ++ rt) = true.
Proof.
  intros Hs Hr. induction ls as [|l ls IH]; intros b H.
  - destruct b; [rewrite solid_start by exact Hs|]; exact Hr.
  - cbn [app solid] in *. destruct (is_field name l); [apply IH; exact H|].
    destruct (b && continuation l).
    + apply andb_prop in H as [H1 H2]. rewrite H1. apply IH; exact H2.
    + apply IH; exact H.
Qed.

(** The header rewrites on a header whose [From:], [Return-Path:],
    [Sender:] and [Message-ID:] fields are not folded. *)
Lemma rewrite_header_lines (env : Env) (te : option string)
    (ls : list Line) :
  header ls = true → unfolded_fields ls = true →
  solid "dkim-signature:" false ls = true →
  Spec.all Char.isDot (Str.show (DOMAIN env)) = true →
  (∀ s, te = Some s → Spec.all Char.isDot s = true ∧ Spec.count "$" s = 0) →
  rewrite_header env te (unlines ls)
  = unlines
      (strip_folded "dkim-signature:" false
         (flat_map (rewrite_line env te) ls)).
Proof.
  intros Hp Hu Sd Hd Hte. unfold unfolded_fields in Hu.
  apply andb_prop in Hu as [Hu Um].
  apply andb_prop in Hu as [Hu Us]. apply andb_prop in Hu as [Uf Ur].
  unfold rewrite_header.
  rewrite (from_pass_all env ls Hp Uf).
  pose proof (from_pass_header env ls Hd Hp) as Hp1.
  assert (U1 : ∀ n0 name,
             Char.same true "f" n0 = false → Char.same true "F" n0 = false →
             unfolded (String n0 name) ls = true →
             unfolded (String n0 name) (flat_map (from_pass env) ls) = true).
  { intros n0 name H1 H2 H. rewrite from_pass_map, unfolded_map; [exact H| |].
    - intros l. apply from_line_field; assumption.
    - apply from_line_continuation. }
  pose proof (U1 "r"%char "eturn-path:" eq_refl eq_refl Ur) as Ur1.
  pose proof (U1 "s"%char "ender:" eq_refl eq_refl Us) as Us1.
  pose proof (U1 "m"%char "essage-id:" eq_refl eq_refl Um) as Um1.
  assert (Sd1 : solid "dkim-signature:" false (flat_map (from_pass env) ls)
                = true).
  { rewrite from_pass_map, solid_map; [exact Sd | | |].
    - intros l. apply (from_line_field env "d" "kim-signature:"); reflexivity.
    - apply from_line_continuation.
    - apply from_line_of_continuation. }
  clear U1. set (ls1 := flat_map (from_pass env) ls) in *.
  assert (H2 :
    (if truthy te then
       replace_all flag_mi to_value
         (Template.expand ("To: " +:+ Str.show te)) (unlines ls1)
     else unlines ls1)
    = unlines (flat_map (to_pass te) ls1)).
  { destruct (truthy te) eqn:Ht.
    - destruct te as [s|]; [|discriminate]. cbn [Str.show].
      apply to_pass_all; [apply (Hte s eq_refl) | exact Ht | exact Hp1].
    - rewrite to_pass_none by exact Ht. reflexivity. }
  rewrite H2.
  assert (Hp2 : header (flat_map (to_pass te) ls1) = true).
  { apply to_pass_header; [|exact Hp1]. intros s Hs. apply (Hte s Hs). }
  assert (U2 : ∀ n0 name,
             Char.same true "t" n0 = false → Char.same true "T" n0 = false →
             unfolded (String n0 name) ls1 = true →
             unfolded (String n0 name) (flat_map (to_pass te) ls1) = true).
  { intros n0 name H1 H3 H. rewrite to_pass_map, unfolded_map; [exact H| |].
    - intros l. apply to_line_field; assumption.
    - apply to_line_continuation. }
  pose proof (U2 "r"%char "eturn-path:" eq_refl eq_refl Ur1) as Ur2.
  pose proof (U2 "s"%char "ender:" eq_refl eq_refl Us1) as Us2.
  pose proof (U2 "m"%char "essage-id:" eq_refl eq_refl Um1) as Um2.
  assert (Sd2 : solid "dkim-signature:" false (flat_map (to_pass te) ls1)
                = true).
  { rewrite to_pass_map, solid_map; [exact Sd1 | | |].
    - intros l. apply (to_line_field te "d" "kim-signature:"); reflexivity.
    - apply to_line_continuation.
    - apply to_line_of_continuation. }
  clear U2. set (ls2 := flat_map (to_pass te) ls1) in *.
  assert (S3 : ∀ m0 m ls',
             Char.same true m0 "d" = false →
             Char.isWhiteSpace (Char.canonicalize m0) = false →
             unfolded (String m0 m) ls' = true →
             solid "dkim-signature:" false ls' = true →
             solid "dkim-signature:" false
               (flat_map (strip_pass (String m0 m)) ls') = true).
  { intros m0 m ls' H1 H3 Hu Hs.
    apply (solid_strip "dkim-signature:" (String m0 m) ls'); try assumption.
    - intros l. apply (field_other m0 "d" m "kim-signature:" l H1).
    - intros l. apply (field_not_continuation m0 m l H3). }
  rewrite (strip_pass_all "return-path:" ls2 eq_refl Hp2).
  pose proof (strip_pass_header "return-path:" ls2 Hp2) as Hp3.
  pose proof (unfolded_strip _ _ _ Us2 Ur2) as Us3.
  pose proof (unfolded_strip _ _ _ Um2 Ur2) as Um3.
  pose proof (S3 "r"%char "eturn-path:" ls2 eq_refl eq_refl Ur2 Sd2) as Sd3.
  set (ls3 := flat_map (strip_pass "return-path:") ls2) in *.
  rewrite (strip_pass_all "sender:" ls3 eq_refl Hp3).
  pose proof (strip_pass_header "sender:" ls3 Hp3) as Hp4.
  pose proof (unfolded_strip _ _ _ Um3 Us3) as Um4.
  pose proof (S3 "s"%char "ender:" ls3 eq_refl eq_refl Us3 Sd3) as Sd4.
  set (ls4 := flat_map (strip_pass "sender:") ls3) in *.
  rewrite (strip_pass_all "message-id:" ls4 eq_refl Hp4).
  pose proof (strip_pass_header "message-id:" ls4 Hp4) as Hp5.
  pose proof (S3 "m"%char "essage-id:" ls4 eq_refl eq_refl Um4 Sd4) as Sd5.
  set (ls5 := flat_map (strip_pass "message-id:") ls4) in *.
  rewrite (dkim_folded_all ls5 Hp5 Sd5).
  unfold ls5, ls4, ls3, ls2, ls1. rewrite passes_rewrite_lines.
  reflexivity.
Qed.

Lemma reply_to_lines_unfolded (ls : list Line) :
  unfolded_fields ls = true →
  unfolded_fields (ls ++ reply_to_lines ls) = true.
Proof.
  assert (H : ∀ name, unfolded name ls = true →
                unfolded name (ls ++ reply_to_lines ls) = true).
  { intros name Hu. apply unfolded_snoc; [exact Hu | |];
      unfold reply_to_lines;
      destruct (existsb _ ls); try reflexivity;
      destruct (List.find _ ls) as [l|]; try reflexivity.
    cbn [unfolded starts_field]. rewrite orb_true_r. reflexivity. }
  unfold unfolded_fields. intros Hu.
  apply andb_prop in Hu as [Hu Um].
  apply andb_prop in Hu as [Hu Us]. apply andb_prop in Hu as [Uf Ur].
  rewrite !H by assumption. reflexivity.
Qed.

Lemma reply_to_lines_solid (name : string) (ls : list Line) :
  solid name false ls = true →
  solid name false (ls ++ reply_to_lines ls) = true.
Proof.
  intros Hs. apply solid_snoc; [| |exact Hs];
    unfold reply_to_lines;
    destruct (existsb _ ls); try reflexivity;
    destruct (List.find _ ls) as [l|]; try reflexivity.
  cbn [solid]. destruct (is_field name _); reflexivity.
Qed.

Lemma header_lines (ls : list Line) :
  header ls = true → Spec.lines Spec.empty (unlines ls).
Proof.
  induction ls as [|[c e] ls IH]; [constructor|].
  cbn [header forallb]. intros Hp. apply andb_prop in Hp as [Hl Hp].
  destruct (header_line_inv c e Hl) as (Hc & (a & c' & -> & _) & He).
  cbn [unlines]. unfold line_text. cbn [fst snd].
  rewrite append_assoc.
  apply Spec.lines_cons; [exact Hc | reflexivity | exact He | apply IH; exact Hp].
Qed.

End Composition.

(** X14. The processor on a message that starts with one or more header
    lines (not empty, without a line terminator inside), then an empty
    line, then any text, when the [From:], [Return-Path:], [Sender:] and
    [Message-ID:] fields are not folded and every continuation line of a
    [DKIM-Signature:] field holds more than whitespace (any field other
    than those four may have continuation lines), and when [DOMAIN] and
    the [toEmail] override hold no line terminator and the override no
    [$].  The header gets a
    [Reply-To:] line with the value of its first [From:] line when no
    line starts with [reply-to:] and some line starts with [from:]; then
    every [From:] line is rewritten to come from [noreply@DOMAIN], every
    line that starts with [to:] is replaced when a [toEmail] override is
    set, the [Return-Path:], [Sender:] and [Message-ID:] lines are
    removed, every [DKIM-Signature:] field is removed with its
    continuation lines, and every other line is kept as it is, in order
    (field names in any letter case).  The body is the empty line and
    the text up to its last whitespace character. *)
Theorem processMessage_header_lines (env : Env) (s : St)
    (ls : list Extra.Line) (e body : string) :
  Extra.header ls = true → ls ≠ [] → Extra.unfolded_fields ls = true →
  Extra.solid "dkim-signature:" false ls = true →
  Spec.is_eol e →
  Spec.all Char.isDot (Str.show (DOMAIN env)) = true →
  (∀ to, toEmail (ctx s) = Some to →
         Spec.all Char.isDot to = true ∧ Spec.count "$" to = 0) →
  emailData (ctx s) = Some (Extra.unlines ls +:+ e +:+ body) →
  emailData (ctx (fst (processMessage env s)))
  = Some (Extra.unlines
            (Extra.strip_folded "dkim-signature:" false
               (flat_map (Extra.rewrite_line env (toEmail (ctx s)))
                  (ls ++ Extra.reply_to_lines ls)))
          +:+ e +:+ Extra.upto_last_whitespace body).
Proof.
  intros Hp Hne Hu Sd He Hd Hte Hmsg.
  pose proof (split_message_cut (Extra.unlines ls) e body (header_lines ls Hp)
                He) as Hsplit.
  assert (Hnonempty : Spec.empty (Extra.unlines ls) = false).
  { destruct ls as [|[c e'] ls']; [congruence|].
    cbn [Extra.header forallb] in Hp. apply andb_prop in Hp as [Hl _].
    destruct (header_line_inv c e' Hl) as (_ & (a & c' & -> & _) & _).
    cbn [Extra.unlines]. unfold Extra.line_text. cbn [fst snd].
    rewrite !append_cons. reflexivity. }
  rewrite Hnonempty in Hsplit.
  destruct (processMessage_of_split env s _ _ _ Hmsg Hsplit)
    as (h' & Hh & ->).
  assert (Uf : Extra.unfolded "from:" ls = true).
  { unfold Extra.unfolded_fields in Hu. repeat (apply andb_prop in Hu as [Hu _]).
    exact Hu. }
  rewrite (add_reply_to_lines ls s Hp Uf) in Hh. injection Hh as <-.
  cbn [fmap option_fmap option_map Str.show].
  rewrite (rewrite_header_lines env (toEmail (ctx s)) _
             (reply_to_lines_header ls Hp) (reply_to_lines_unfolded ls Hu)
             (reply_to_lines_solid _ ls Sd) Hd Hte).
  reflexivity.
Qed.

Lemma processMessage_header_lines_witness :
  emailData
    (ctx (fst (processMessage (Examples.env (Table ∅))
                 (mkSt (mkData None (Some "me@z.org") None None None None
                          (Some ("Received: by mx" +:+ Str.CRLF
                                   +:+ "  with smtp" +:+ Str.CRLF
                                   +:+ "DKIM-Signature: v=1;" +:+ Str.CRLF
                                   +:+ "  b=abc" +:+ Str.CRLF
                                   +:+ "FROM: Ann <a@b.com>" +:+ Str.CRLF
                                   +:+ "Sender: x" +:+ Str.CRLF
                                   +:+ "to: x@y.com," +:+ Str.CRLF
                                   +:+ " z@y.com" +:+ Str.CRLF
                                   +:+ "Subject: hi" +:+ Str.CRLF
                                   +:+ Str.CRLF +:+ "one two")))
                    []))))
  = Some ("Received: by mx" +:+ Str.CRLF
            +:+ "  with smtp" +:+ Str.CRLF
            +:+ "From: Ann <noreply@example.com>" +:+ Str.CRLF
            +:+ "To: me@z.org" +:+ Str.CRLF
            +:+ " z@y.com" +:+ Str.CRLF
            +:+ "Subject: hi" +:+ Str.CRLF
            +:+ "Reply-To: Ann <a@b.com>" +:+ Str.CRLF
            +:+ Str.CRLF +:+ "one ").
Proof.
  rewrite (processMessage_header_lines (Examples.env (Table ∅)) _
             [("Received: by mx", Str.CRLF); ("  with smtp", Str.CRLF);
              ("DKIM-Signature: v=1;", Str.CRLF); ("  b=abc", Str.CRLF);
              ("FROM: Ann <a@b.com>", Str.CRLF); ("Sender: x", Str.CRLF);
              ("to: x@y.com,", Str.CRLF); (" z@y.com", Str.CRLF);
              ("Subject: hi", Str.CRLF)]
             Str.CRLF "one two").
  - vm_compute. reflexivity.
  - reflexivity.
  - discriminate.
  - reflexivity.
  - reflexivity.
  - right. reflexivity.
  - reflexivity.
  - intros to [= <-]. split; reflexivity.
  - reflexivity.
Defined.

(** ** A record without its blocks *)

(** X15. A single record of the expected source and version passes the
    parser's validation whatever else it holds.  When it has no [ses]
    block, or a [ses] block without the [receipt] block, the parser
    raises a [TypeError] and not [InvalidEventError], writes no log entry,
    and in the second case has stored the mail metadata already; the
    invocation then ends with the error log entry and the generic failure
    signal, and asks nothing of S3 or SES. *)
Theorem handler_missing_block (env : Env) (ev : option Event)
    (te : option string) (r : SesRecord) :
  Spec.valid_notification ev r →
  ¬ Spec.has_receipt r →
  let read := match ses r with Some _ => "recipients" | None => "mail" end in
  (∀ s, event (ctx s) = ev →
     parseEvent s
     = (mkSt match ses r with
             | Some block => set_email (mail block) (ctx s)
             | None => ctx s
             end (trace s),
        Throw (undefined_read read)))
  ∧ handler env ev (Extra.with_to te)
    = [Log "error" ("Step returned error: " +:+ message_of (undefined_read read));
       Callback (Some GenericFailure)].
Proof.
  intros Hv Hb read. split.
  - intros s Hs. rewrite <- Hs in Hv.
    rewrite (parseEvent_missing s r Hv Hb). subst read.
    destruct (ses r); [reflexivity | destruct s; reflexivity].
  - unfold handler. cbn [Extra.with_to o_steps default]. unfold default_steps.
    rewrite run_steps_cons. unfold stage at 1.
    rewrite (parseEvent_missing (mkSt (initial_data ev _) []) r Hv Hb).
    subst read. destruct (ses r); reflexivity.
Qed.

Lemma handler_missing_block_witness :
  (∀ s,
     event (ctx s)
     = Some {| Records :=
                 Some [Examples.bare_record
                         (Some {| mail := Some {| messageId := Some "m1" |};
                                  receipt := None |})] |} →
     parseEvent s
     = (mkSt (set_email (Some {| messageId := Some "m1" |}) (ctx s)) (trace s),
        Throw (undefined_read "recipients")))
  ∧ handler (Examples.env (Table Examples.catch_all))
      (Some {| Records :=
                 Some [Examples.bare_record
                         (Some {| mail := Some {| messageId := Some "m1" |};
                                  receipt := None |})] |})
      (Extra.with_to None)
    = [Log "error"
         "Step returned error: Cannot read properties of undefined (reading 'recipients')";
       Callback (Some GenericFailure)].
Proof.
  apply (handler_missing_block (Examples.env (Table Examples.catch_all))
           (Some {| Records :=
                      Some [Examples.bare_record
                              (Some {| mail := Some {| messageId := Some "m1" |};
                                       receipt := None |})] |})
           None
           (Examples.bare_record
              (Some {| mail := Some {| messageId := Some "m1" |};
                       receipt := None |}))).
  - repeat split; reflexivity.
  - unfold Spec.has_receipt. cbn. intros [x Hx]. discriminate Hx.
Defined.
